(** * Moore automata library (ma.c): a shallow embedding and its properties

    The C library keeps every automaton in a heap block reached through a
    [moore_t *].  Here the heap is a finite map from addresses to records,
    a pointer is an optional address ([None] is [NULL]), a buffer of
    [uint64_t] words is a list of integers, and [size_t] arithmetic is
    arithmetic on [Z] reduced modulo [2^64].

    Conventions of the model, where C itself says nothing:
    - [ma_delete] releases a block; the model keeps the block in the map
      with its tag set to [MOORE_DELETED], because the library itself reads
      the tag of blocks it reaches through stale pointers;
    - an address that holds no block reads as "not live"; an operation
      asked to work on such an address leaves the heap as it is;
    - a load outside a buffer reads 0 and a store outside a buffer is
      dropped; the statements below assume buffers of the declared size;
    - the two caller-supplied functions receive the previous contents of
      their out-buffer and return its new contents. *)

From Stdlib Require Import ZArith Lia.
From stdpp Require Import base option list numbers gmap.

Local Open Scope Z_scope.

(** ** Constants and machine arithmetic *)

Definition SIZE_MAX : Z := 18446744073709551615.
Definition INIT_CONNECTION_CAPACITY : Z := 8.
Definition MOORE_MAGIC : Z := 3735928559.   (* 0xDEADBEEF *)
Definition MOORE_DELETED : Z := 0.
Definition sizeof_uint64_t : Z := 8.
Definition sizeof_input_connection_info : Z := 16.
Definition sizeof_ptr : Z := 8.

(** [size_t] and [uint64_t] results wrap modulo [2^64]. *)
Definition wrap64 (x : Z) : Z := x mod (SIZE_MAX + 1).

(** The conversion [(int) x] of the helpers [bit_word] and [bit_pos]. *)
Definition to_int (x : Z) : Z := (x + 2147483648) mod 4294967296 - 2147483648.

(** Largest bit width whose word indices all survive [to_int]. *)
Definition INT_BITS : Z := 137438953472.   (* 64 * 2^31 *)

Definition bit_word (idx : Z) : Z := to_int (idx / 64).
Definition bit_pos (idx : Z) : Z := to_int (idx mod 64).

(** ** Buffers *)

Abbreviation addr := positive.
Abbreviation ptr := (option addr).

Definition zeros (k : Z) : list Z := replicate (Z.to_nat k) 0.

Definition load (buf : list Z) (i : Z) : Z :=
  if decide (0 <= i) then default 0 (buf !! Z.to_nat i) else 0.

Definition store (buf : list Z) (i : Z) (v : Z) : list Z :=
  if decide (0 <= i) then <[Z.to_nat i := v]> buf else buf.

(** [memcpy(dst, src, k * sizeof(uint64_t))]. *)
Definition memcpy (dst src : list Z) (k : Z) : list Z :=
  take (Z.to_nat k) src ++ drop (Z.to_nat k) dst.

(** Bit [i] of a packed buffer: word [i / 64], bit [i % 64]. *)
Definition get_bit (buf : list Z) (i : Z) : bool :=
  Z.testbit (load buf (i / 64)) (i mod 64).

(** Whether the bits of the last word above width [w] are all zero. *)
Definition unused_high_bits_zero (w : Z) (buf : list Z) : bool :=
  if w mod 64 =? 0 then true
  else Z.shiftr (load buf (w / 64)) (w mod 64) =? 0.

(** ** Data model *)

Record input_connection_info := {
  source_automaton : ptr;
  source_output_index : Z
}.

Definition transition_function_t : Type :=
  list Z -> option (list Z) -> list Z -> Z -> Z -> list Z.

Definition output_function_t : Type :=
  list Z -> list Z -> Z -> Z -> list Z.

(** [connected_to_me] holds the first [connected_to_me_count] entries of the
    C array; the count is its length. *)
Record moore := {
  n : Z;
  m : Z;
  s : Z;
  t : transition_function_t;
  y : output_function_t;
  magic : Z;
  state : list Z;
  next_state : list Z;
  output : list Z;
  manual_input : option (list Z);
  final_input : option (list Z);
  incoming_connections : option (list input_connection_info);
  connected_to_me : list addr;
  connected_to_me_capacity : Z
}.

Definition connected_to_me_count (r : moore) : Z :=
  Z.of_nat (length (connected_to_me r)).

Abbreviation heap := (gmap addr moore).

Inductive errno_t := EINVAL | ENOMEM.

(** [Ok v]: the call returned [v] (0 for an [int] result);
    [Err e]: it returned -1 or [NULL] with [errno = e]. *)
Inductive res (A : Type) : Type :=
  | Ok (v : A)
  | Err (e : errno_t).
Arguments Ok {A} v.
Arguments Err {A} e.

Definition status : Type := res unit.

(** Field updates. *)
Definition set_magic (v : Z) (r : moore) : moore :=
  {| n := n r; m := m r; s := s r; t := t r; y := y r; magic := v;
     state := state r; next_state := next_state r; output := output r;
     manual_input := manual_input r; final_input := final_input r;
     incoming_connections := incoming_connections r;
     connected_to_me := connected_to_me r;
     connected_to_me_capacity := connected_to_me_capacity r |}.

Definition set_state (v : list Z) (r : moore) : moore :=
  {| n := n r; m := m r; s := s r; t := t r; y := y r; magic := magic r;
     state := v; next_state := next_state r; output := output r;
     manual_input := manual_input r; final_input := final_input r;
     incoming_connections := incoming_connections r;
     connected_to_me := connected_to_me r;
     connected_to_me_capacity := connected_to_me_capacity r |}.

Definition set_next_state (v : list Z) (r : moore) : moore :=
  {| n := n r; m := m r; s := s r; t := t r; y := y r; magic := magic r;
     state := state r; next_state := v; output := output r;
     manual_input := manual_input r; final_input := final_input r;
     incoming_connections := incoming_connections r;
     connected_to_me := connected_to_me r;
     connected_to_me_capacity := connected_to_me_capacity r |}.

Definition set_output (v : list Z) (r : moore) : moore :=
  {| n := n r; m := m r; s := s r; t := t r; y := y r; magic := magic r;
     state := state r; next_state := next_state r; output := v;
     manual_input := manual_input r; final_input := final_input r;
     incoming_connections := incoming_connections r;
     connected_to_me := connected_to_me r;
     connected_to_me_capacity := connected_to_me_capacity r |}.

Definition set_manual_input (v : option (list Z)) (r : moore) : moore :=
  {| n := n r; m := m r; s := s r; t := t r; y := y r; magic := magic r;
     state := state r; next_state := next_state r; output := output r;
     manual_input := v; final_input := final_input r;
     incoming_connections := incoming_connections r;
     connected_to_me := connected_to_me r;
     connected_to_me_capacity := connected_to_me_capacity r |}.

Definition set_final_input (v : option (list Z)) (r : moore) : moore :=
  {| n := n r; m := m r; s := s r; t := t r; y := y r; magic := magic r;
     state := state r; next_state := next_state r; output := output r;
     manual_input := manual_input r; final_input := v;
     incoming_connections := incoming_connections r;
     connected_to_me := connected_to_me r;
     connected_to_me_capacity := connected_to_me_capacity r |}.

Definition set_incoming_connections
    (v : option (list input_connection_info)) (r : moore) : moore :=
  {| n := n r; m := m r; s := s r; t := t r; y := y r; magic := magic r;
     state := state r; next_state := next_state r; output := output r;
     manual_input := manual_input r; final_input := final_input r;
     incoming_connections := v;
     connected_to_me := connected_to_me r;
     connected_to_me_capacity := connected_to_me_capacity r |}.

Definition set_connected_to_me (v : list addr) (cap : Z) (r : moore) : moore :=
  {| n := n r; m := m r; s := s r; t := t r; y := y r; magic := magic r;
     state := state r; next_state := next_state r; output := output r;
     manual_input := manual_input r; final_input := final_input r;
     incoming_connections := incoming_connections r;
     connected_to_me := v;
     connected_to_me_capacity := cap |}.

(** A block is live when it exists and carries [MOORE_MAGIC]. *)
Definition is_live (h : heap) (a : addr) : bool :=
  match h !! a with
  | Some r => magic r =? MOORE_MAGIC
  | None => false
  end.

(** ** Construction *)

(** [new] is what [calloc] returns for the structure ([None]: it failed) and
    [bufs] tells whether every later buffer allocation succeeded.  On the
    [cleanup_fail] path everything allocated is released again and the heap
    is as before. *)
Definition ma_create_full (h : heap) (new : option addr) (bufs : bool)
    (n_ m_ s_ : Z) (t_ : option transition_function_t)
    (y_ : option output_function_t) (q : option (list Z)) : heap * res addr :=
  match t_, y_, q with
  | Some tf, Some yf, Some qv =>
    if (m_ =? 0) || (s_ =? 0) then (h, Err EINVAL) else
    let n_elements := if 0 <? n_ then wrap64 (n_ + 63) / 64 else 0 in
    let m_elements := wrap64 (m_ + 63) / 64 in
    let s_elements := wrap64 (s_ + 63) / 64 in
    if (n_ >? SIZE_MAX / 64) || (m_ >? SIZE_MAX / 64) || (s_ >? SIZE_MAX / 64)
    then (h, Err ENOMEM) else
    if (n_elements >? SIZE_MAX / sizeof_uint64_t)
       || (m_elements >? SIZE_MAX / sizeof_uint64_t)
       || (s_elements >? SIZE_MAX / sizeof_uint64_t)
       || (n_ >? SIZE_MAX / sizeof_input_connection_info)
    then (h, Err ENOMEM) else
    match new with
    | None => (h, Err ENOMEM)
    | Some a =>
      if bufs then
        let state0 := memcpy (zeros s_elements) qv s_elements in
        let r :=
          {| n := n_; m := m_; s := s_; t := tf; y := yf;
             magic := MOORE_MAGIC;
             state := state0;
             next_state := zeros s_elements;
             output := yf (zeros m_elements) state0 m_ s_;
             manual_input :=
               if 0 <? n_ then Some (zeros n_elements) else None;
             final_input :=
               if 0 <? n_ then Some (zeros n_elements) else None;
             incoming_connections :=
               if 0 <? n_
               then Some (replicate (Z.to_nat n_)
                            {| source_automaton := None;
                               source_output_index := 0 |})
               else None;
             connected_to_me := [];
             connected_to_me_capacity := INIT_CONNECTION_CAPACITY |} in
        (<[a := r]> h, Ok a)
      else (h, Err ENOMEM)
    end
  | _, _, _ => (h, Err EINVAL)
  end.

Definition identity_func : output_function_t :=
  fun output_ state_ m_ s_ =>
    if (m_ =? s_) && (0 <? s_) then
      let elements_to_copy := wrap64 (s_ + 63) / 64 in
      let out1 := memcpy output_ state_ elements_to_copy in
      let used_bits := s_ mod 64 in
      if used_bits =? 0 then out1
      else
        let mask := wrap64 (wrap64 (Z.shiftl 1 used_bits) - 1) in
        store out1 (elements_to_copy - 1)
              (Z.land (load out1 (elements_to_copy - 1)) mask)
    else output_.

(** [qz] tells whether the temporary zero state could be allocated. *)
Definition ma_create_simple (h : heap) (qz : bool) (new : option addr)
    (bufs : bool) (n_ s_ : Z) (t_ : option transition_function_t)
    : heap * res addr :=
  if (s_ =? 0) || negb (bool_decide (is_Some t_)) then (h, Err EINVAL) else
  let s_elements := wrap64 (s_ + 63) / 64 in
  if (0 <? s_) && negb qz then (h, Err ENOMEM) else
  ma_create_full h new bufs n_ s_ s_ t_ (Some identity_func)
                 (Some (zeros s_elements)).

(** ** Connections *)

(** [realloc_ok] tells whether [realloc] succeeds, should it be called. *)
Definition append_to_connected_list (realloc_ok : bool) (h : heap)
    (a_out a_in : addr) : heap * status :=
  match h !! a_out with
  | None => (h, Ok tt)
  | Some r =>
    if bool_decide (a_in ∈ connected_to_me r) then (h, Ok tt) else
    if connected_to_me_count r =? connected_to_me_capacity r then
      let new_capacity :=
        if connected_to_me_capacity r =? 0 then 8
        else wrap64 (connected_to_me_capacity r * 2) in
      if realloc_ok then
        (<[a_out := set_connected_to_me (connected_to_me r ++ [a_in])
                      new_capacity r]> h, Ok tt)
      else (h, Err ENOMEM)
    else
      (<[a_out := set_connected_to_me (connected_to_me r ++ [a_in])
                    (connected_to_me_capacity r) r]> h, Ok tt)
  end.

(** The slot-writing loop of [ma_connect]. *)
Definition connect_slots (ic : list input_connection_info)
    (in_ : Z) (a_out : addr) (out : Z) (num : Z) : list input_connection_info :=
  foldl (fun ic i =>
           <[Z.to_nat (wrap64 (in_ + Z.of_nat i)) :=
               {| source_automaton := Some a_out;
                  source_output_index := wrap64 (out + Z.of_nat i) |}]> ic)
        ic (seq 0 (Z.to_nat num)).

Definition ma_connect (realloc_ok : bool) (h : heap) (a_in : ptr) (in_ : Z)
    (a_out : ptr) (out : Z) (num : Z) : heap * status :=
  match a_in, a_out with
  | Some ai, Some ao =>
    if num =? 0 then (h, Err EINVAL) else
    match h !! ai, h !! ao with
    | Some ri, Some ro =>
      if (in_ >=? n ri) || (out >=? m ro)
         || (num >? wrap64 (n ri - in_)) || (num >? wrap64 (m ro - out))
      then (h, Err EINVAL) else
      let h1 :=
        <[ai := set_incoming_connections
                  ((fun ic => connect_slots ic in_ ao out num)
                     <$> incoming_connections ri) ri]> h in
      append_to_connected_list realloc_ok h1 ao ai
    | _, _ => (h, Ok tt)
    end
  | _, _ => (h, Err EINVAL)
  end.

(** Compaction of the dependents array: every occurrence of [a_in] goes. *)
Definition remove_connected (h : heap) (a_in a_out : ptr) : heap :=
  match a_in, a_out with
  | Some ai, Some ao =>
    alter (fun r =>
             set_connected_to_me
               (filter (fun x => x ≠ ai) (connected_to_me r))
               (connected_to_me_capacity r) r) ao h
  | _, _ => h
  end.

(** ** Deletion *)

Definition slot_source (r : moore) (j : nat) : ptr :=
  match incoming_connections r with
  | Some ic => default None (source_automaton <$> ic !! j)
  | None => None
  end.

(** One round of the first loop of [ma_delete]: slot [j] of [a]. *)
Definition delete_unlink_source (a : addr) (h : heap) (j : nat) : heap :=
  match h !! a with
  | None => h
  | Some r =>
    match slot_source r j with
    | Some src => if is_live h src then remove_connected h (Some a) (Some src)
                  else h
    | None => h
    end
  end.

Definition clear_slots_of (a : addr) (ic : list input_connection_info)
    : list input_connection_info :=
  (fun c => if bool_decide (source_automaton c = Some a)
            then {| source_automaton := None; source_output_index := 0 |}
            else c) <$> ic.

(** One round of the second loop of [ma_delete]: dependent number [i]. *)
Definition delete_unlink_dependent (a : addr) (h : heap) (i : nat) : heap :=
  match h !! a with
  | None => h
  | Some r =>
    match connected_to_me r !! i with
    | Some in_ =>
      if is_live h in_ then
        alter (fun ri =>
                 set_incoming_connections
                   (clear_slots_of a <$> incoming_connections ri) ri) in_ h
      else h
    | None => h
    end
  end.

(** [ma_delete]: the guard, the tag and the two unlinking loops.  The calls
    of [free] that end the function release the buffers and the structure
    itself; the map has no counterpart for them: the released block stays
    in it under the tag [MOORE_DELETED], and the allocator may hand its
    address out again ([new] in [ma_create_full] is not restricted).  What
    the program does with the reference of a released block is therefore
    not given by this definition. *)
Definition ma_delete (h : heap) (p : ptr) : heap :=
  match p with
  | None => h
  | Some a =>
    match h !! a with
    | None => h
    | Some r =>
      if negb (magic r =? MOORE_MAGIC) then h else
      let h1 := <[a := set_magic MOORE_DELETED r]> h in
      let h2 := foldl (delete_unlink_source a) h1 (seq 0 (Z.to_nat (n r))) in
      let h3 := foldl (delete_unlink_dependent a) h2
                      (seq 0 (length (connected_to_me r))) in
      h3
    end
  end.

(** ** Disconnection *)

(** First loop of [ma_disconnect]: collect the distinct sources of the
    addressed slots and clear the slots. *)
Definition disconnect_slots (ic : list input_connection_info) (in_ num : Z)
    : list input_connection_info * list addr :=
  foldl (fun '(ic, sources) i =>
           let k := Z.to_nat (wrap64 (in_ + Z.of_nat i)) in
           let sources' :=
             match default None (source_automaton <$> ic !! k) with
             | Some src => if bool_decide (src ∈ sources) then sources
                           else sources ++ [src]
             | None => sources
             end in
           (<[k := {| source_automaton := None; source_output_index := 0 |}]> ic,
            sources'))
        (ic, []) (seq 0 (Z.to_nat num)).

Definition still_connected (r : moore) (src : addr) : bool :=
  match incoming_connections r with
  | Some ic => existsb (fun c => bool_decide (source_automaton c = Some src)) ic
  | None => false
  end.

Definition ma_disconnect (h : heap) (a_in : ptr) (in_ num : Z) : heap * status :=
  match a_in with
  | None => (h, Err EINVAL)
  | Some ai =>
    if num =? 0 then (h, Err EINVAL) else
    match h !! ai with
    | None => (h, Ok tt)
    | Some ri =>
      if (in_ >=? n ri) || (num >? wrap64 (n ri - in_)) then (h, Err EINVAL) else
      match incoming_connections ri with
      | None => (h, Ok tt)
      | Some ic =>
        let '(ic', sources_to_remove) := disconnect_slots ic in_ num in
        let h1 := <[ai := set_incoming_connections (Some ic') ri]> h in
        (foldl (fun h src =>
                  match h !! ai with
                  | Some r => if still_connected r src then h
                              else remove_connected h (Some ai) (Some src)
                  | None => h
                  end) h1 sources_to_remove, Ok tt)
      end
    end
  end.

(** ** Manual signal control *)

Definition ma_set_input (h : heap) (a : ptr) (input : option (list Z))
    : heap * status :=
  match a, input with
  | Some a, Some input =>
    match h !! a with
    | None => (h, Ok tt)
    | Some r =>
      if n r =? 0 then (h, Err EINVAL) else
      let n_elements := wrap64 (n r + 63) / 64 in
      (<[a := set_manual_input
                ((fun mi => memcpy mi input n_elements) <$> manual_input r) r]> h,
       Ok tt)
    end
  | _, _ => (h, Err EINVAL)
  end.

Definition ma_set_state (h : heap) (a : ptr) (state_ : option (list Z))
    : heap * status :=
  match a, state_ with
  | Some a, Some state_ =>
    match h !! a with
    | None => (h, Ok tt)
    | Some r =>
      let s_elements := wrap64 (s r + 63) / 64 in
      let st := memcpy (state r) state_ s_elements in
      (<[a := set_output (y r (output r) st (m r) (s r)) (set_state st r)]> h,
       Ok tt)
    end
  | _, _ => (h, Err EINVAL)
  end.

(** The result is the contents of the buffer the returned pointer names. *)
Definition ma_get_output (h : heap) (a : ptr) : res (list Z) :=
  match a with
  | None => Err EINVAL
  | Some a =>
    match h !! a with
    | Some r => Ok (output r)
    | None => Ok []
    end
  end.

(** ** Input merge *)

(** The value the loop body of [update_final_input] computes for input [i]:
    the bit of the live source's output, or the manual bit.  ([src->output]
    is never [NULL] in a block that carries [MOORE_MAGIC], so that conjunct
    of the guard has no counterpart here.) *)
Definition input_value (h : heap) (mi : list Z)
    (ic : list input_connection_info) (i : Z) : Z :=
  let w := bit_word i in
  let b := bit_pos i in
  let manual := Z.land (Z.shiftr (load mi w) b) 1 in
  match ic !! Z.to_nat i with
  | Some c =>
    match source_automaton c with
    | Some src =>
      match h !! src with
      | Some rs =>
        if magic rs =? MOORE_MAGIC then
          let src_idx := source_output_index c in
          if src_idx <? m rs then
            let sw := bit_word src_idx in
            let sb := bit_pos src_idx in
            Z.land (Z.shiftr (load (output rs) sw) sb) 1
          else manual
        else manual
      | None => manual
      end
    | None => manual
    end
  | None => manual
  end.

Definition clear_words (fi : list Z) (n_words : Z) : list Z :=
  foldl (fun fi w => store fi (Z.of_nat w) 0) fi (seq 0 (Z.to_nat n_words)).

(** One round of the merging loop: input [i]. *)
Definition merge_round (h : heap) (mi : list Z)
    (ic : list input_connection_info) (fi : list Z) (i : nat) : list Z :=
  let i := Z.of_nat i in
  let w := bit_word i in
  let b := bit_pos i in
  let mask := wrap64 (Z.shiftl 1 b) in
  if input_value h mi ic i =? 0 then fi
  else store fi w (Z.lor (load fi w) mask).

Definition merge_inputs (h : heap) (mi : list Z)
    (ic : list input_connection_info) (n_ : Z) (fi : list Z) : list Z :=
  foldl (merge_round h mi ic) fi (seq 0 (Z.to_nat n_)).

(** The new contents of [a->final_input]. *)
Definition final_input_of (h : heap) (r : moore) : option (list Z) :=
  if n r =? 0 then final_input r else
  match final_input r, manual_input r, incoming_connections r with
  | Some fi, Some mi, Some ic =>
    let n_words := wrap64 (n r + 63) / 64 in
    Some (merge_inputs h mi ic (n r) (clear_words fi n_words))
  | _, _, _ => final_input r
  end.

Definition update_final_input (h : heap) (a : ptr) : heap :=
  match a with
  | None => h
  | Some a =>
    match h !! a with
    | None => h
    | Some r => <[a := set_final_input (final_input_of h r) r]> h
    end
  end.

(** ** Step engine *)

(** Calls made through the two function pointers, in program order, with
    the input and state buffers each call was handed. *)
Inductive call :=
  | CallT (a : addr) (input : option (list Z)) (state_ : list Z)
  | CallY (a : addr) (state_ : list Z).

(** First loop of [ma_step]; the flag is false when a [NULL] element stopped
    it. *)
Fixpoint step_inputs (h : heap) (l : list ptr) : heap * bool :=
  match l with
  | [] => (h, true)
  | None :: _ => (h, false)
  | Some a :: l' => step_inputs (update_final_input h (Some a)) l'
  end.

(** What the second loop of [ma_step] does to one block: the call of the
    transition function fills [next_state]. *)
Definition transition_of (r : moore) : moore :=
  set_next_state (t r (next_state r) (final_input r) (state r) (n r) (s r)) r.

(** What the third loop does to one block: the two state buffers change
    places and the output is computed from the new current state. *)
Definition commit_of (r : moore) : moore :=
  let r1 := set_next_state (state r) (set_state (next_state r) r) in
  set_output (y r1 (output r1) (state r1) (m r1) (s r1)) r1.

Definition step_transition (st : heap * list call) (p : ptr)
    : heap * list call :=
  match p with
  | None => st
  | Some a =>
    match st.1 !! a with
    | None => st
    | Some r =>
      (<[a := transition_of r]> st.1,
       st.2 ++ [CallT a (final_input r) (state r)])
    end
  end.

Definition step_commit (st : heap * list call) (p : ptr) : heap * list call :=
  match p with
  | None => st
  | Some a =>
    match st.1 !! a with
    | None => st
    | Some r =>
      (<[a := commit_of r]> st.1,
       st.2 ++ [CallY a (next_state r)])
    end
  end.

Record step_result := {
  heap_after : heap;
  calls : list call;
  result : status
}.

(** [at_] is the array with its length [num]. *)
Definition ma_step (h : heap) (at_ : option (list ptr)) : step_result :=
  match at_ with
  | None => {| heap_after := h; calls := []; result := Err EINVAL |}
  | Some l =>
    if Z.of_nat (length l) =? 0
    then {| heap_after := h; calls := []; result := Err EINVAL |}
    else
      let '(h1, ok) := step_inputs h l in
      if negb ok
      then {| heap_after := h1; calls := []; result := Err EINVAL |}
      else
        let st2 := foldl step_transition (h1, []) l in
        let st3 := foldl step_commit st2 l in
        {| heap_after := st3.1; calls := st3.2; result := Ok tt |}
  end.

(** ** Specification-side notions *)

(** Widths for which the [int] word indices of [update_final_input] are
    exact, buffers as [ma_create_full] allocates them (the input buffers
    [NULL] when [n = 0]; the final-input, next-state and output buffers of
    the declared size), and recorded indices in the range of [size_t]. *)
Definition sized (r : moore) : bool :=
  (0 <=? n r) && (n r <=? INT_BITS) && (m r <=? INT_BITS)
  && (Z.of_nat (length (next_state r)) =? (s r + 63) / 64)
  && (Z.of_nat (length (output r)) =? (m r + 63) / 64)
  && (if n r =? 0 then bool_decide (final_input r = None)
      else match final_input r, manual_input r, incoming_connections r with
           | Some fi, Some _, Some _ =>
             Z.of_nat (length fi) =? (n r + 63) / 64
           | _, _, _ => false
           end)
  && match incoming_connections r with
     | Some ic => forallb (fun c => 0 <=? source_output_index c) ic
     | None => true
     end.

Definition sized_heap (h : heap) : Prop :=
  map_Forall (fun _ r => sized r = true) h.

(** Input merge, in the words of section 4.5 of the specification: the bit
    of the live source's current output when slot [i] has a source, the
    source is live and the recorded index is within its output width, and
    bit [i] of the manual input otherwise. *)
Definition spec_input_bit (h : heap) (r : moore) (i : Z) : bool :=
  let manual := get_bit (default [] (manual_input r)) i in
  match incoming_connections r ≫= (fun ic => ic !! Z.to_nat i) with
  | Some c =>
    match source_automaton c with
    | Some src =>
      match h !! src with
      | Some rs =>
        if is_live h src && (source_output_index c <? m rs)
        then get_bit (output rs) (source_output_index c)
        else manual
      | None => manual
      end
    | None => manual
    end
  | None => manual
  end.

(** All fields but the final-input buffer. *)
Definition erase_final (r : moore) : moore := set_final_input None r.

(** The invariant of section 3 on dependents, in the specification's words:
    the dependents of [x] are exactly the live automata with at least one
    incoming connection whose source is [x]. *)
Definition dependents_exact (h : heap) (x : addr) : Prop :=
  forall r, h !! x = Some r ->
  forall d, d ∈ connected_to_me r <->
    (is_live h d = true /\
     exists rd, h !! d = Some rd /\ still_connected rd x = true).

(** Heaps that agree on every field but the final-input buffers. *)
Definition same_visible (h h' : heap) : Prop :=
  forall a, erase_final <$> (h !! a) = erase_final <$> (h' !! a).

(** The first loop of [ma_step] over a list without [NULL]. *)
Definition resolve_all (h : heap) (la : list addr) : heap :=
  foldl (fun h a => update_final_input h (Some a)) h la.

(** A block whose final input has been recomputed from heap [h] when its
    address is among [dn]. *)
Definition resolved_if (h : heap) (dn : list addr) (a : addr) (r : moore)
    : moore :=
  if bool_decide (a ∈ dn) then set_final_input (final_input_of h r) r else r.

(** A per-block update applied through a pointer; [NULL] and an address
    with no block are left alone. *)
Definition apply_at (f : moore -> moore) (h : heap) (p : ptr) : heap :=
  match p with
  | Some a => alter f a h
  | None => h
  end.

(** How many times the array names automaton [a]. *)
Definition occurrences (a : addr) (l : list ptr) : nat :=
  length (filter (fun p => p = Some a) l).

(** What a caller fixes about an automaton: its widths and functions, its
    liveness, its current state, its manual input and its incoming
    connections. *)
Definition config (r : moore) :=
  (n r, m r, s r, t r, y r, magic r, state r, manual_input r,
   incoming_connections r).

(** Two heaps holding the same automata with identical current states,
    manual inputs and connection topology. *)
Definition same_inputs (h1 h2 : heap) : Prop :=
  forall a, config <$> (h1 !! a) = config <$> (h2 !! a).

(** The purity contract of section 6 on the injected functions: what they
    write into an out-buffer of the declared size does not depend on what
    the buffer held before. *)
Definition pure_record (r : moore) : Prop :=
  (forall ns ns' i st,
     Z.of_nat (length ns) = (s r + 63) / 64 ->
     Z.of_nat (length ns') = (s r + 63) / 64 ->
     t r ns i st (n r) (s r) = t r ns' i st (n r) (s r)) /\
  (forall o o' st,
     Z.of_nat (length o) = (m r + 63) / 64 ->
     Z.of_nat (length o') = (m r + 63) / 64 ->
     y r o st (m r) (s r) = y r o' st (m r) (s r)).

Definition pure_functions (h : heap) : Prop :=
  forall a r, h !! a = Some r -> pure_record r.

(** Every output buffer holds the output of the current state, as it does
    after construction, [ma_set_state] and [ma_step]. *)
Definition outputs_current (h : heap) : Prop :=
  forall a r, h !! a = Some r ->
    output r = y r (output r) (state r) (m r) (s r).

(** What input resolution reads of a source: its tag, its output width and
    its output buffer. *)
Definition sources_agree (h h' : heap) : Prop :=
  forall a, (fun r => (magic r, m r, output r)) <$> (h !! a)
            = (fun r => (magic r, m r, output r)) <$> (h' !! a).

(** Everything a step reads of a block once its final input is computed. *)
Definition core_state (r : moore) :=
  (config r, next_state r, final_input r).

(** ** A small network

    The two automata of the library's own example: a pulse generator
    ([n = 0], [s = 2], [m = 1]) whose output is 1 exactly in state 3, and a
    4-bit counter ([n = 1]) that counts while its input bit is 1, wired to
    the generator's output. *)

Definition pulse_generator : transition_function_t :=
  fun _ _ state_ _ _ => [(load state_ 0 + 1) mod 4].

Definition pulse_output : output_function_t :=
  fun _ state_ _ _ => [if load state_ 0 =? 3 then 1 else 0].

Definition enabled_counter : transition_function_t :=
  fun _ input_ state_ _ _ =>
    if Z.testbit (load (default [] input_) 0) 0
    then [(load state_ 0 + 1) mod 16]
    else [load state_ 0].

Definition pulse : moore :=
  {| n := 0; m := 1; s := 2; t := pulse_generator; y := pulse_output;
     magic := MOORE_MAGIC;
     state := [3]; next_state := [0]; output := [1];
     manual_input := None; final_input := None;
     incoming_connections := None;
     connected_to_me := [2%positive];
     connected_to_me_capacity := 8 |}.

Definition counter_slot : input_connection_info :=
  {| source_automaton := Some 1%positive; source_output_index := 0 |}.

Definition counter : moore :=
  {| n := 1; m := 4; s := 4; t := enabled_counter; y := identity_func;
     magic := MOORE_MAGIC;
     state := [0]; next_state := [0]; output := [0];
     manual_input := Some [0]; final_input := Some [0];
     incoming_connections := Some [counter_slot];
     connected_to_me := [];
     connected_to_me_capacity := 8 |}.

(** The generator at address 1, in state 3, and the counter at address 2. *)
Definition net : heap := <[2%positive := counter]> (<[1%positive := pulse]> ∅).

(** The same network with other leftovers in the counter's scratch
    buffers. *)
Definition net_scratch : heap :=
  <[2%positive := set_next_state [7] (set_final_input (Some [1]) counter)]>
    (<[1%positive := set_next_state [2] pulse]> ∅).

(** The calls that build [net]. *)
Definition net_by_calls : heap :=
  let h1 := (ma_create_full ∅ (Some 1%positive) true 0 1 2
               (Some pulse_generator) (Some pulse_output) (Some [3])).1 in
  let h2 := (ma_create_simple h1 true (Some 2%positive) true 1 4
               (Some enabled_counter)).1 in
  (ma_connect true h2 (Some 2%positive) 0 (Some 1%positive) 0 1).1.

(** A second generator at address 3, and the counter's input rewired to
    it. *)
Definition net_rewired : heap * status :=
  let h3 := (ma_create_full net (Some 3%positive) true 0 1 2
               (Some pulse_generator) (Some pulse_output) (Some [0])).1 in
  ma_connect true h3 (Some 2%positive) 0 (Some 3%positive) 0 1.

(** A generator with eight listeners, which fill the dependents array as
    [ma_create_full] allocates it, and one more counter not yet wired. *)
Definition add_listener (h : heap) (a : addr) : heap :=
  let h1 := (ma_create_simple h true (Some a) true 1 4
               (Some enabled_counter)).1 in
  (ma_connect true h1 (Some a) 0 (Some 1%positive) 0 1).1.

Definition crowded : heap :=
  let h1 := (ma_create_full ∅ (Some 1%positive) true 0 1 2
               (Some pulse_generator) (Some pulse_output) (Some [3])).1 in
  let h2 := foldl add_listener h1
              [2; 3; 4; 5; 6; 7; 8; 9]%positive in
  (ma_create_simple h2 true (Some 10%positive) true 1 4
     (Some enabled_counter)).1.

(** ** Further notions used for the rest of the library *)

(** [is_connected_to]: the first slot with a source, among the [n] slots. *)
Fixpoint first_source (ic : list input_connection_info) : ptr :=
  match ic with
  | [] => None
  | c :: ic' =>
    match source_automaton c with
    | Some src => Some src
    | None => first_source ic'
    end
  end.

Definition is_connected_to (h : heap) (a_in : addr) : ptr :=
  match h !! a_in with
  | Some r =>
    first_source (take (Z.to_nat (n r)) (default [] (incoming_connections r)))
  | None => None
  end.

(** A slot as [calloc] and the clearing loops leave it. *)
Definition empty_slot : input_connection_info :=
  {| source_automaton := None; source_output_index := 0 |}.

(** What a step must leave alone: widths, functions, liveness, manual
    input, connections and dependents. *)
Definition topology (r : moore) :=
  (n r, m r, s r, t r, y r, magic r, manual_input r,
   incoming_connections r, connected_to_me r, connected_to_me_capacity r).

(** What connection management must leave alone: everything but the slots
    and the dependents array. *)
Definition signals (r : moore) :=
  (n r, m r, s r, t r, y r, state r, next_state r, output r,
   manual_input r, final_input r).

(** Every live automaton with a slot fed by a live automaton is in that
    automaton's dependents. *)
Definition dependents_cover (h : heap) : Prop :=
  forall d rd x rx,
    h !! d = Some rd -> h !! x = Some rx ->
    magic rd = MOORE_MAGIC -> magic rx = MOORE_MAGIC ->
    still_connected rd x = true ->
    d ∈ connected_to_me rx.

(** What [remove_connected] does to the owner's block. *)
Definition drop_dependent (ai : addr) (r : moore) : moore :=
  set_connected_to_me (filter (fun x => x ≠ ai) (connected_to_me r))
                      (connected_to_me_capacity r) r.

(** The rescan loop of [ma_disconnect]: one collected source. *)
Definition disconnect_unlink (ai : addr) (h : heap) (src : addr) : heap :=
  match h !! ai with
  | Some r => if still_connected r src then h
              else remove_connected h (Some ai) (Some src)
  | None => h
  end.

(** What the second loop of [ma_delete] does to a live dependent. *)
Definition clear_dependent (a : addr) (ri : moore) : moore :=
  set_incoming_connections (clear_slots_of a <$> incoming_connections ri) ri.

(** Whether one of the [n] slots of [r] names [b]. *)
Definition names (r : moore) (b : addr) : bool :=
  bool_decide (Some b ∈ slot_source r <$> seq 0 (Z.to_nat (n r))).

(** The block [ma_delete a] leaves at [b], given the block [r] of [a] and
    the block [rb] of [b] before the call. *)
Definition after_delete (a : addr) (r : moore) (h : heap) (b : addr)
    (rb : moore) : moore :=
  let rb1 := if bool_decide (b = a) then set_magic MOORE_DELETED rb else rb in
  let live := negb (bool_decide (b = a)) && (magic rb =? MOORE_MAGIC) in
  let rb2 := if live && names r b then drop_dependent a rb1 else rb1 in
  if live && bool_decide (b ∈ connected_to_me r)
  then clear_dependent a rb2 else rb2.

(** Every entry of the dependents of a live automaton is a live automaton
    with a slot fed by it. *)
Definition dependents_sound (h : heap) : Prop :=
  forall x rx d,
    h !! x = Some rx -> magic rx = MOORE_MAGIC ->
    d ∈ connected_to_me rx ->
    exists rd, h !! d = Some rd /\ magic rd = MOORE_MAGIC
               /\ still_connected rd x = true.

(** The two automata of the example before they are connected. *)
Definition lone_pulse : moore := set_connected_to_me [] 8 pulse.

Definition idle_counter : moore :=
  set_incoming_connections (Some [empty_slot]) counter.

Definition unwired : heap :=
  <[2%positive := idle_counter]> (<[1%positive := lone_pulse]> ∅).

(** The automaton a logged call was made for, and whether the call went
    through the transition function. *)
Definition call_addr (c : call) : addr :=
  match c with
  | CallT a _ _ => a
  | CallY a _ => a
  end.

Definition is_transition (c : call) : bool :=
  match c with
  | CallT _ _ _ => true
  | CallY _ _ => false
  end.


(** ** Machine arithmetic and bits *)

Section Bits.

Lemma to_int_small x : 0 <= x < 2147483648 -> to_int x = x.
Proof.
  intros Hx. unfold to_int.
  rewrite Z.mod_small by lia. lia.
Qed.

Lemma bit_word_small i : 0 <= i < INT_BITS -> bit_word i = i / 64.
Proof.
  intros Hi. unfold bit_word, INT_BITS in *.
  apply to_int_small. split.
  - apply Z.div_pos; lia.
  - apply Z.div_lt_upper_bound; lia.
Qed.

(** At [INT_BITS] the word index no longer fits [int]: the conversion
    yields a negative index. *)
Lemma bit_word_wraps : bit_word INT_BITS = -2147483648.
Proof. reflexivity. Qed.

Lemma bit_pos_small i : bit_pos i = i mod 64.
Proof.
  unfold bit_pos. apply to_int_small.
  pose proof (Z.mod_pos_bound i 64). lia.
Qed.

Lemma land_shiftr_one x b :
  0 <= b -> Z.land (Z.shiftr x b) 1 = if Z.testbit x b then 1 else 0.
Proof.
  intros Hb. change 1 with (Z.ones 1) at 1.
  rewrite Z.land_ones by lia.
  rewrite <- Z.bit0_mod, Z.shiftr_spec, Z.add_0_l by lia.
  destruct (Z.testbit x b); reflexivity.
Qed.

Lemma mask_pow2 b : 0 <= b < 64 -> wrap64 (Z.shiftl 1 b) = 2 ^ b.
Proof.
  intros Hb. unfold wrap64, SIZE_MAX.
  rewrite Z.shiftl_1_l. apply Z.mod_small. split.
  - apply Z.pow_nonneg; lia.
  - change (18446744073709551615 + 1) with (2 ^ 64).
    apply Z.pow_lt_mono_r; lia.
Qed.

Lemma testbit_lor_pow2 x b j :
  0 <= b -> 0 <= j ->
  Z.testbit (Z.lor x (2 ^ b)) j = Z.testbit x j || (j =? b).
Proof.
  intros Hb Hj. rewrite Z.lor_spec. f_equal.
  destruct (Z.eqb_spec j b) as [->|Hne].
  - apply Z.pow2_bits_true; lia.
  - apply Z.pow2_bits_false; lia.
Qed.

Lemma wrap64_small x : 0 <= x <= SIZE_MAX -> wrap64 x = x.
Proof. intros Hx. unfold wrap64, SIZE_MAX in *. apply Z.mod_small. lia. Qed.

End Bits.

(** ** Buffers *)

Section Buffers.

Implicit Types buf : list Z.

Lemma length_store buf i v : length (store buf i v) = length buf.
Proof. unfold store. case_decide; [apply length_insert | done]. Qed.

Lemma load_store_eq buf i v :
  0 <= i -> (Z.to_nat i < length buf)%nat -> load (store buf i v) i = v.
Proof.
  intros Hi Hlen. unfold load, store.
  rewrite !decide_True by done.
  by rewrite list_lookup_insert_eq.
Qed.

Lemma load_store_ne buf i j v : i <> j -> load (store buf i v) j = load buf j.
Proof.
  intros Hne. unfold load, store.
  destruct (decide (0 <= j)); [|done].
  destruct (decide (0 <= i)); [|done].
  rewrite list_lookup_insert_ne; [done | lia].
Qed.

Lemma get_bit_store_lor buf i j :
  0 <= i -> (Z.to_nat (i / 64) < length buf)%nat -> 0 <= j ->
  get_bit (store buf (i / 64) (Z.lor (load buf (i / 64)) (2 ^ (i mod 64)))) j
  = get_bit buf j || (j =? i).
Proof.
  intros Hi Hlen Hj. unfold get_bit.
  pose proof (Z.mod_pos_bound i 64 ltac:(lia)).
  pose proof (Z.mod_pos_bound j 64 ltac:(lia)).
  pose proof (Z.div_mod i 64 ltac:(lia)).
  pose proof (Z.div_mod j 64 ltac:(lia)).
  assert (0 <= i / 64) by (apply Z.div_pos; lia).
  destruct (decide (i / 64 = j / 64)) as [Heq|Hne].
  - rewrite <- Heq, load_store_eq by done.
    rewrite testbit_lor_pow2 by lia. f_equal.
    destruct (Z.eqb_spec (j mod 64) (i mod 64)), (Z.eqb_spec j i);
      first [done | lia | congruence].
  - rewrite load_store_ne by done.
    destruct (Z.eqb_spec j i) as [->|]; [done|].
    by rewrite orb_false_r.
Qed.

Lemma load_replicate_zero k i : load (replicate k 0) i = 0.
Proof.
  unfold load. case_decide; [|done].
  destruct (replicate k 0 !! Z.to_nat i) as [v|] eqn:E; [|done].
  by apply lookup_replicate in E as [-> _].
Qed.

Lemma get_bit_replicate_zero k j : get_bit (replicate k 0) j = false.
Proof. unfold get_bit. rewrite load_replicate_zero. apply Z.testbit_0_l. Qed.

End Buffers.

(** ** The loops of [update_final_input] *)

Section Merge.

Lemma clear_words_prefix (fi : list Z) (k : nat) :
  (k <= length fi)%nat ->
  foldl (fun fi w => store fi (Z.of_nat w) 0) fi (seq 0 k)
  = replicate k 0 ++ drop k fi.
Proof.
  induction k as [|k IH]; intros Hk; [by rewrite drop_0|].
  rewrite seq_S, foldl_snoc, IH by lia. simpl.
  unfold store. rewrite decide_True by lia. rewrite Nat2Z.id.
  destruct (lookup_lt_is_Some_2 fi k ltac:(lia)) as [x Hx].
  rewrite (drop_S _ _ _ Hx).
  rewrite insert_app_r_alt by (rewrite length_replicate; lia).
  rewrite length_replicate, Nat.sub_diag. simpl.
  by rewrite app_comm_cons, replicate_cons_app, <- app_assoc.
Qed.

Lemma clear_words_all (fi : list Z) (k : Z) :
  Z.of_nat (length fi) = k -> clear_words fi k = replicate (length fi) 0.
Proof.
  intros <-. unfold clear_words. rewrite Nat2Z.id.
  rewrite clear_words_prefix by done.
  by rewrite drop_all, app_nil_r.
Qed.

Lemma length_merge_rounds h mi ic (l : list nat) fi :
  length (foldl (merge_round h mi ic) fi l) = length fi.
Proof.
  revert fi. induction l as [|i l IH]; intros fi; [done|].
  simpl. rewrite IH. unfold merge_round.
  case_match; [done | apply length_store].
Qed.

(** After the rounds for inputs [0 .. k-1] bit [j] of the buffer holds the
    value computed for input [j] when [j < k], and its old value otherwise. *)
Lemma merge_inputs_prefix h mi ic (fi : list Z) (k : nat) j :
  Z.of_nat k <= INT_BITS -> Z.of_nat k <= 64 * Z.of_nat (length fi) -> 0 <= j ->
  get_bit (foldl (merge_round h mi ic) fi (seq 0 k)) j
  = get_bit fi j || ((j <? Z.of_nat k) && negb (input_value h mi ic j =? 0)).
Proof.
  intros Hint Hlen Hj. induction k as [|k IH].
  - destruct (Z.ltb_spec j (Z.of_nat 0)) as [?|_]; [lia|].
    simpl. by rewrite orb_false_r.
  - rewrite seq_S, foldl_snoc, Nat.add_0_l.
    pose proof (length_merge_rounds h mi ic (seq 0 k) fi) as Hbuf.
    set (buf := foldl _ fi (seq 0 k)) in *.
    specialize (IH ltac:(lia) ltac:(lia)).
    unfold merge_round at 1.
    destruct (Z.eqb_spec (input_value h mi ic (Z.of_nat k)) 0) as [Hz|Hnz].
    + rewrite IH. f_equal.
      destruct (Z.ltb_spec j (Z.of_nat k)), (Z.ltb_spec j (Z.of_nat (S k)));
        try done; try lia.
      assert (j = Z.of_nat k) as -> by lia.
      by rewrite Hz.
    + rewrite bit_word_small, bit_pos_small by (unfold INT_BITS in *; lia).
      pose proof (Z.mod_pos_bound (Z.of_nat k) 64 ltac:(lia)).
      rewrite mask_pow2 by lia.
      rewrite get_bit_store_lor; [| lia | | done].
      * rewrite IH, <- orb_assoc. f_equal.
        destruct (Z.ltb_spec j (Z.of_nat k)), (Z.ltb_spec j (Z.of_nat (S k))),
                 (Z.eqb_spec j (Z.of_nat k)); try lia; subst; simpl;
          rewrite ?orb_false_r; try done.
        by destruct (Z.eqb_spec (input_value h mi ic (Z.of_nat k)) 0).
      * rewrite Hbuf.
        assert (Z.of_nat k / 64 < Z.of_nat (length fi))
          by (apply Z.div_lt_upper_bound; lia).
        assert (0 <= Z.of_nat k / 64) by (apply Z.div_pos; lia).
        lia.
Qed.

End Merge.

(** ** Input resolution (section 4.5) *)

Section Resolution.

Lemma sized_spec r :
  sized r = true ->
  0 <= n r <= INT_BITS /\ m r <= INT_BITS /\
  (n r <> 0 ->
   exists fi mi ic,
     final_input r = Some fi /\ manual_input r = Some mi /\
     incoming_connections r = Some ic /\
     Z.of_nat (length fi) = (n r + 63) / 64) /\
  (forall ic c, incoming_connections r = Some ic -> c ∈ ic ->
                0 <= source_output_index c).
Proof.
  unfold sized. intros H.
  repeat (apply andb_prop in H as [H ?]).
  repeat split; try lia.
  - intros Hn. destruct (Z.eqb_spec (n r) 0); [done|].
    destruct (final_input r) as [fi|]; [|done].
    destruct (manual_input r) as [mi|]; [|done].
    destruct (incoming_connections r) as [ic|]; [|done].
    exists fi, mi, ic. repeat split. lia.
  - intros ic c Hic Hc. rewrite Hic in *.
    rewrite forallb_forall in H0.
    apply Z.leb_le, H0, list_elem_of_In, Hc.
Qed.

Lemma sized_lengths r :
  sized r = true ->
  Z.of_nat (length (next_state r)) = (s r + 63) / 64 /\
  Z.of_nat (length (output r)) = (m r + 63) / 64.
Proof.
  unfold sized. intros H.
  repeat (apply andb_prop in H as [H ?]). lia.
Qed.

Lemma sized_inputless r :
  sized r = true -> n r = 0 -> final_input r = None.
Proof.
  unfold sized. intros H Hn.
  repeat (apply andb_prop in H as [H ?]).
  rewrite Hn in *. simpl in *. by eapply bool_decide_eq_true_1.
Qed.

Lemma sized_heap_lookup h a r :
  sized_heap h -> h !! a = Some r -> sized r = true.
Proof. intros Hh Ha. exact (Hh a r Ha). Qed.

(** The loop body computes the bit that section 4.5 prescribes. *)
Lemma input_value_spec h r mi ic i :
  sized_heap h -> sized r = true ->
  manual_input r = Some mi -> incoming_connections r = Some ic ->
  0 <= i < n r ->
  input_value h mi ic i = if spec_input_bit h r i then 1 else 0.
Proof.
  intros Hh Hr Hmi Hic Hi.
  destruct (sized_spec r Hr) as (Hn & _ & _ & Hidx).
  unfold input_value, spec_input_bit.
  rewrite Hmi, Hic. simpl.
  rewrite bit_word_small, bit_pos_small by lia.
  pose proof (Z.mod_pos_bound i 64 ltac:(lia)).
  assert (Z.land (Z.shiftr (load mi (i / 64)) (i mod 64)) 1
          = if get_bit mi i then 1 else 0) as Hman
    by (apply land_shiftr_one; lia).
  destruct (ic !! Z.to_nat i) as [c|] eqn:Hc; [|done].
  destruct (source_automaton c) as [src|]; [|done].
  destruct (h !! src) as [rs|] eqn:Hsrc; [|done].
  unfold is_live. rewrite Hsrc.
  destruct (magic rs =? MOORE_MAGIC); [|done]. simpl.
  destruct (Z.ltb_spec (source_output_index c) (m rs)) as [Hlt|]; [|done].
  destruct (sized_spec rs (sized_heap_lookup _ _ _ Hh Hsrc)) as (_ & Hm & _).
  assert (0 <= source_output_index c)
    by (eapply Hidx; [done | eapply list_elem_of_lookup_2, Hc]).
  rewrite bit_word_small, bit_pos_small by lia.
  pose proof (Z.mod_pos_bound (source_output_index c) 64 ltac:(lia)).
  apply land_shiftr_one. lia.
Qed.

Lemma final_input_of_spec h r :
  sized_heap h -> sized r = true -> 0 < n r ->
  exists fi',
    final_input_of h r = Some fi' /\
    Z.of_nat (length fi') = (n r + 63) / 64 /\
    forall j, 0 <= j ->
      get_bit fi' j = (j <? n r) && spec_input_bit h r j.
Proof.
  intros Hh Hr Hpos.
  destruct (sized_spec r Hr) as (Hn & _ & Hbufs & _).
  destruct (Hbufs ltac:(lia)) as (fi & mi & ic & Hfi & Hmi & Hic & Hlen).
  unfold final_input_of. rewrite Hfi, Hmi, Hic.
  destruct (Z.eqb_spec (n r) 0); [lia|].
  rewrite wrap64_small by (unfold SIZE_MAX, INT_BITS in *; lia).
  rewrite (clear_words_all fi) by done.
  eexists. split; [done|]. unfold merge_inputs. split.
  - by rewrite length_merge_rounds, length_replicate.
  - intros j Hj.
    assert (0 <= (n r + 63) / 64) by (apply Z.div_pos; lia).
    pose proof (Z.mul_div_le (n r + 63) 64 ltac:(lia)).
    pose proof (Z.mod_pos_bound (n r + 63) 64 ltac:(lia)).
    pose proof (Z.div_mod (n r + 63) 64 ltac:(lia)).
    rewrite merge_inputs_prefix by (rewrite ?length_replicate; lia).
    rewrite get_bit_replicate_zero, Z2Nat.id by lia. simpl.
    destruct (Z.ltb_spec j (n r)); [|done]. simpl.
    rewrite (input_value_spec h r mi ic j) by (done || lia).
    by destruct (spec_input_bit h r j).
Qed.

End Resolution.

(** C2. For an automaton with [n > 0] input resolution leaves in the
    final-input buffer, for every input [i < n], the bit section 4.5
    prescribes: the bit at the recorded index of the source's current
    output when the slot has a live source and the index is within its
    width, and bit [i] of the manual input otherwise; every other bit of
    the buffer is zero, and nothing else in the heap changes. *)
Theorem update_final_input_resolves (h : heap) (a : addr) (r : moore) :
  sized_heap h -> h !! a = Some r -> 0 < n r ->
  exists fi',
    update_final_input h (Some a) = <[a := set_final_input (Some fi') r]> h /\
    Z.of_nat (length fi') = (n r + 63) / 64 /\
    (forall i, 0 <= i < n r -> get_bit fi' i = spec_input_bit h r i) /\
    (forall j, n r <= j -> get_bit fi' j = false).
Proof.
  intros Hh Ha Hpos.
  destruct (final_input_of_spec h r Hh (sized_heap_lookup _ _ _ Hh Ha) Hpos)
    as (fi' & Hfi & Hlen & Hbits).
  exists fi'. unfold update_final_input. rewrite Ha, Hfi.
  repeat split; [done| |].
  - intros i Hi. rewrite Hbits by lia.
    by destruct (Z.ltb_spec i (n r)); [|lia].
  - intros j Hj. rewrite Hbits by lia.
    by destruct (Z.ltb_spec j (n r)); [lia|].
Qed.

(** ** Heaps that differ in final-input buffers only *)

Section Visible.

Lemma same_visible_refl h : same_visible h h.
Proof. by intros a. Qed.

Lemma same_visible_sym h h' : same_visible h h' -> same_visible h' h.
Proof. intros H a. by rewrite H. Qed.

Lemma same_visible_trans h1 h2 h3 :
  same_visible h1 h2 -> same_visible h2 h3 -> same_visible h1 h3.
Proof. intros H1 H2 a. by rewrite H1, H2. Qed.

Lemma erase_final_set v r : erase_final (set_final_input v r) = erase_final r.
Proof. done. Qed.

Lemma same_visible_lookup h h' a r :
  same_visible h h' -> h !! a = Some r ->
  exists r', h' !! a = Some r' /\ erase_final r = erase_final r'.
Proof.
  intros H Ha. specialize (H a). rewrite Ha in H.
  destruct (h' !! a) as [r'|]; [|done].
  exists r'. split; [done|]. simpl in H. congruence.
Qed.

Lemma update_final_input_visible h p :
  same_visible h (update_final_input h p).
Proof.
  destruct p as [a|]; [|apply same_visible_refl].
  unfold update_final_input.
  destruct (h !! a) as [r|] eqn:Ha; [|apply same_visible_refl].
  intros b. destruct (decide (a = b)) as [<-|Hne].
  - by rewrite lookup_insert_eq, Ha.
  - by rewrite lookup_insert_ne.
Qed.

Lemma same_visible_sources h h' : same_visible h h' -> sources_agree h h'.
Proof.
  intros H a. specialize (H a).
  destruct (h !! a) as [r|], (h' !! a) as [r'|]; try done.
  assert (erase_final r = erase_final r') as E by (simpl in H; congruence).
  simpl. f_equal.
  by rewrite (f_equal magic E : magic r = magic r'),
             (f_equal m E : m r = m r'),
             (f_equal output E : output r = output r').
Qed.

Lemma input_value_sources h h' mi ic i :
  sources_agree h h' -> input_value h mi ic i = input_value h' mi ic i.
Proof.
  intros H. unfold input_value.
  destruct (ic !! Z.to_nat i) as [c|]; [|done].
  destruct (source_automaton c) as [src|]; [|done].
  specialize (H src).
  destruct (h !! src) as [rs|], (h' !! src) as [rs'|]; try done.
  simpl in H. injection H as Hmagic Hm Hout.
  by rewrite Hmagic, Hm, Hout.
Qed.

Lemma merge_rounds_sources h h' mi ic (l : list nat) fi :
  sources_agree h h' ->
  foldl (merge_round h mi ic) fi l = foldl (merge_round h' mi ic) fi l.
Proof.
  intros H. revert fi. induction l as [|i l IH]; intros fi; [done|].
  simpl. rewrite IH. f_equal. unfold merge_round.
  by rewrite (input_value_sources h h').
Qed.

(** Resolution reads sources through their visible fields only, and a
    buffer of the declared size is cleared whole before it is written:
    recomputing it from an equivalent heap gives the same contents. *)
Lemma final_input_of_stable h hk r rk :
  sized_heap h -> sized r = true ->
  same_visible h hk -> erase_final rk = erase_final r ->
  final_input rk = final_input r \/ final_input rk = final_input_of h r ->
  final_input_of hk rk = final_input_of h r.
Proof.
  intros Hh Hr Hvis Her Hfin.
  apply (f_equal n) in Her as Hn.
  apply (f_equal manual_input) in Her as Hmi.
  apply (f_equal incoming_connections) in Her as Hic.
  simpl in Hn, Hmi, Hic.
  destruct (Z.eqb_spec (n r) 0) as [Hz|Hnz].
  - unfold final_input_of in *. rewrite Hn, Hz in *. simpl in *.
    by destruct Hfin.
  - destruct (sized_spec r Hr) as (Hrange & _ & Hbufs & _).
    destruct (final_input_of_spec h r Hh Hr ltac:(lia)) as (fi' & Hfi' & Hlen' & _).
    destruct (Hbufs Hnz) as (fi & mi & ic & Hfi & Hmi' & Hic' & Hlen).
    assert (exists fk, final_input rk = Some fk
                       /\ Z.of_nat (length fk) = (n r + 63) / 64)
      as (fk & Hfk & Hlenk).
    { destruct Hfin as [->| ->]; eauto. }
    unfold final_input_of. rewrite Hn, Hmi, Hic, Hfk, Hfi, Hmi', Hic'.
    destruct (Z.eqb_spec (n r) 0); [done|].
    rewrite wrap64_small by (unfold SIZE_MAX, INT_BITS in *; lia).
    rewrite (clear_words_all fk), (clear_words_all fi) by done.
    f_equal. unfold merge_inputs.
    replace (length fk) with (length fi) by lia.
    symmetry. by apply merge_rounds_sources, same_visible_sources.
Qed.

End Visible.

(** ** The first phase of [ma_step] *)

Section Phase1.

Lemma step_inputs_all (h : heap) (la : list addr) :
  step_inputs h (Some <$> la) = (resolve_all h la, true).
Proof.
  revert h. induction la as [|a la IH]; intros h; [done|].
  simpl. apply IH.
Qed.

Lemma step_inputs_null (h : heap) (la : list addr) (l2 : list ptr) :
  step_inputs h ((Some <$> la) ++ None :: l2) = (resolve_all h la, false).
Proof.
  revert h. induction la as [|a la IH]; intros h; [done|].
  simpl. apply IH.
Qed.

Lemma list_ptr_split (l : list ptr) :
  (exists la, l = Some <$> la) \/
  (exists la l2, l = (Some <$> la) ++ None :: l2).
Proof.
  induction l as [|[a|] l IH].
  - left. by exists [].
  - destruct IH as [(la & ->)|(la & l2 & ->)].
    + left. by exists (a :: la).
    + right. by exists (a :: la), l2.
  - right. by exists [], l.
Qed.

Lemma resolve_all_cons h a la :
  resolve_all h (a :: la) = resolve_all (update_final_input h (Some a)) la.
Proof. done. Qed.

Lemma resolve_all_visible h la : same_visible h (resolve_all h la).
Proof.
  revert h. induction la as [|a la IH]; intros h; [apply same_visible_refl|].
  rewrite resolve_all_cons. eapply same_visible_trans; [|apply IH].
  apply update_final_input_visible.
Qed.

Lemma set_final_input_resolved h dn a r v :
  set_final_input v (resolved_if h dn a r) = set_final_input v r.
Proof. unfold resolved_if. by case_bool_decide. Qed.

Lemma resolve_all_lookup_gen h :
  sized_heap h ->
  forall la dn hk,
    (forall a, hk !! a = resolved_if h dn a <$> h !! a) ->
    forall a, resolve_all hk la !! a = resolved_if h (dn ++ la) a <$> h !! a.
Proof.
  intros Hh. induction la as [|b la IH]; intros dn hk Hk a.
  - by rewrite app_nil_r.
  - rewrite resolve_all_cons, cons_middle, app_assoc. apply IH. clear a. intros a.
    assert (same_visible h hk) as Hvis.
    { intros c. rewrite Hk. destruct (h !! c); [|done]. simpl.
      unfold resolved_if. by case_bool_decide. }
    unfold update_final_input. rewrite (Hk b).
    destruct (h !! b) as [r|] eqn:Hb; simpl.
    + rewrite (final_input_of_stable h hk r).
      * rewrite set_final_input_resolved.
        destruct (decide (a = b)) as [->|Hne].
        -- rewrite lookup_insert_eq, Hb. simpl. unfold resolved_if.
           rewrite bool_decide_true; [done | set_solver].
        -- rewrite lookup_insert_ne, Hk by done.
           destruct (h !! a); [|done]. simpl. unfold resolved_if.
           rewrite (bool_decide_ext (a ∈ dn ++ [b]) (a ∈ dn)); [done|].
           rewrite elem_of_app, list_elem_of_singleton. tauto.
      * done.
      * by eapply sized_heap_lookup.
      * done.
      * unfold resolved_if. by case_bool_decide.
      * unfold resolved_if. case_bool_decide; simpl; auto.
    + rewrite Hk. destruct (decide (a = b)) as [->|Hne].
      * by rewrite Hb.
      * destruct (h !! a); [|done]. simpl. unfold resolved_if.
        rewrite (bool_decide_ext (a ∈ dn ++ [b]) (a ∈ dn)); [done|].
           rewrite elem_of_app, list_elem_of_singleton. tauto.
Qed.

(** After the first phase every listed automaton holds the final input
    computed from the heap as it was before the phase began. *)
Lemma resolve_all_lookup h la a :
  sized_heap h ->
  resolve_all h la !! a = resolved_if h la a <$> h !! a.
Proof.
  intros Hh. apply (resolve_all_lookup_gen h Hh la [] h).
  intros c. destruct (h !! c); [|done]. simpl. unfold resolved_if.
  rewrite bool_decide_false; [done | set_solver].
Qed.

End Phase1.

(** ** The second and third phases of [ma_step] *)

Section Phases.

Lemma alter_lookup_insert (f : moore -> moore) (h : heap) a r :
  h !! a = Some r -> <[a := f r]> h = alter f a h.
Proof.
  intros Ha. apply map_eq. intros b.
  rewrite lookup_alter, lookup_insert.
  case_decide; [subst; by rewrite Ha | done].
Qed.

Lemma step_transition_fst st p :
  (step_transition st p).1 = apply_at transition_of st.1 p.
Proof.
  destruct p as [a|]; [|done]. simpl.
  destruct (st.1 !! a) as [r|] eqn:Ha; simpl.
  - by apply alter_lookup_insert.
  - by rewrite alter_id'.
Qed.

Lemma step_commit_fst st p :
  (step_commit st p).1 = apply_at commit_of st.1 p.
Proof.
  destruct p as [a|]; [|done]. simpl.
  destruct (st.1 !! a) as [r|] eqn:Ha; simpl.
  - by apply alter_lookup_insert.
  - by rewrite alter_id'.
Qed.

Lemma foldl_step_transition_fst l st :
  (foldl step_transition st l).1 = foldl (apply_at transition_of) st.1 l.
Proof.
  revert st. induction l as [|p l IH]; intros st; [done|].
  simpl. by rewrite IH, step_transition_fst.
Qed.

Lemma foldl_step_commit_fst l st :
  (foldl step_commit st l).1 = foldl (apply_at commit_of) st.1 l.
Proof.
  revert st. induction l as [|p l IH]; intros st; [done|].
  simpl. by rewrite IH, step_commit_fst.
Qed.

Lemma occurrences_cons a p l :
  occurrences a (p :: l)
  = ((if bool_decide (p = Some a) then 1 else 0) + occurrences a l)%nat.
Proof.
  unfold occurrences. rewrite filter_cons.
  case_decide; by case_bool_decide.
Qed.

Lemma occurrences_fmap_Some a la :
  (0 < occurrences a (Some <$> la))%nat <-> a ∈ la.
Proof.
  induction la as [|b la IH].
  - split; [by inversion 1 | by intros ?%elem_of_nil].
  - rewrite fmap_cons, occurrences_cons, elem_of_cons.
    case_bool_decide as Hb.
    + split; [|lia]. intros _. left. congruence.
    + rewrite Nat.add_0_l, IH. split; [by right|].
      intros [->|]; [done|done].
Qed.

Lemma occurrences_perm a l l' : l ≡ₚ l' -> occurrences a l = occurrences a l'.
Proof. intros Hp. unfold occurrences. by rewrite Hp. Qed.

(** A loop that applies [f] to each named block leaves every block with
    [f] iterated as often as the array names it. *)
Lemma foldl_apply_at_lookup f l h a :
  foldl (apply_at f) h l !! a = Nat.iter (occurrences a l) f <$> h !! a.
Proof.
  revert h. induction l as [|p l IH]; intros h.
  - simpl. by destruct (h !! a).
  - simpl. rewrite IH, occurrences_cons.
    destruct p as [b|]; simpl.
    + rewrite lookup_alter. case_decide as Hab.
      * subst b. rewrite bool_decide_true by done.
        destruct (h !! a) as [r|]; [|done]. simpl.
        f_equal. symmetry. apply Nat.iter_succ_r.
      * rewrite bool_decide_false by congruence. done.
    + done.
Qed.

Lemma iter_preserves {A B} (f : A -> A) (g : A -> B) k x :
  (forall z, g (f z) = g z) -> g (Nat.iter k f x) = g x.
Proof. intros Hf. induction k as [|k IH]; [done|]. simpl. by rewrite Hf. Qed.

(** Calls recorded by the second loop: those already there, and one call of
    the transition function per array element, handed the final input and
    state the block held when the loop began. *)
Lemma transition_calls_sound l st c :
  c ∈ (foldl step_transition st l).2 ->
  c ∈ st.2 \/
  exists a r, Some a ∈ l /\ st.1 !! a = Some r
              /\ c = CallT a (final_input r) (state r).
Proof.
  revert st. induction l as [|p l IH]; intros st Hc; [by left|].
  simpl in Hc. apply IH in Hc as [Hc|(a & r' & Hin & Ha & ->)].
  - destruct p as [b|]; [|by left]. simpl in Hc.
    destruct (st.1 !! b) as [rb|] eqn:Hb; [|by left]. simpl in Hc.
    apply elem_of_app in Hc as [Hc|Hc]; [by left|].
    apply list_elem_of_singleton in Hc as ->.
    right. exists b, rb. split; [left|]. done.
  - rewrite step_transition_fst in Ha.
    destruct p as [b|]; simpl in Ha.
    + apply lookup_alter_Some in Ha as [(-> & r & Hr & ->)|(Hne & Ha)].
      * right. exists a, r. split; [by right|]. done.
      * right. exists a, r'. split; [by right|]. done.
    + right. exists a, r'. split; [by right|]. done.
Qed.

Lemma transition_calls_mono l st c :
  c ∈ st.2 -> c ∈ (foldl step_transition st l).2.
Proof.
  revert st. induction l as [|p l IH]; intros st Hc; [done|].
  simpl. apply IH. destruct p as [b|]; [|done]. simpl.
  destruct (st.1 !! b); [|done]. simpl. apply elem_of_app. by left.
Qed.

Lemma transition_calls_complete l st a r :
  Some a ∈ l -> st.1 !! a = Some r ->
  CallT a (final_input r) (state r) ∈ (foldl step_transition st l).2.
Proof.
  revert st r. induction l as [|p l IH]; intros st r Hin Ha;
    [by apply elem_of_nil in Hin|].
  apply elem_of_cons in Hin as [<-|Hin].
  - simpl. apply transition_calls_mono. rewrite Ha. simpl.
    apply elem_of_app. right. by apply list_elem_of_singleton.
  - simpl.
    assert (exists r', (step_transition st p).1 !! a = Some r'
                       /\ final_input r' = final_input r
                       /\ state r' = state r) as (r' & Hr' & <- & <-).
    { rewrite step_transition_fst. destruct p as [b|]; simpl; [|eauto].
      rewrite lookup_alter. case_decide; [subst; rewrite Ha|]; eauto. }
    by apply IH.
Qed.

Lemma commit_calls_sound l st c :
  c ∈ (foldl step_commit st l).2 ->
  c ∈ st.2 \/ exists a st_, c = CallY a st_.
Proof.
  revert st. induction l as [|p l IH]; intros st Hc; [by left|].
  simpl in Hc. apply IH in Hc as [Hc|Hc]; [|by right].
  destruct p as [b|]; [|by left]. simpl in Hc.
  destruct (st.1 !! b) as [rb|]; [|by left]. simpl in Hc.
  apply elem_of_app in Hc as [Hc|Hc]; [by left|].
  apply list_elem_of_singleton in Hc as ->. right. eauto.
Qed.

Lemma commit_calls_mono l st c :
  c ∈ st.2 -> c ∈ (foldl step_commit st l).2.
Proof.
  revert st. induction l as [|p l IH]; intros st Hc; [done|].
  simpl. apply IH. destruct p as [b|]; [|done]. simpl.
  destruct (st.1 !! b); [|done]. simpl. apply elem_of_app. by left.
Qed.

End Phases.

(** ** The step engine (section 4.6) *)

Section Step.

Lemma ma_step_all h la :
  la <> [] ->
  ma_step h (Some (Some <$> la))
  = let st2 := foldl step_transition (resolve_all h la, []) (Some <$> la) in
    let st3 := foldl step_commit st2 (Some <$> la) in
    {| heap_after := st3.1; calls := st3.2; result := Ok tt |}.
Proof.
  intros Hne. unfold ma_step.
  destruct la as [|a la]; [done|].
  rewrite length_fmap. simpl length.
  destruct (Z.eqb_spec (Z.of_nat (S (length la))) 0); [lia|].
  by rewrite step_inputs_all.
Qed.

Lemma spec_input_bit_connected h rT rS ic c i S_ :
  incoming_connections rT = Some ic ->
  ic !! Z.to_nat i = Some c ->
  source_automaton c = Some S_ ->
  h !! S_ = Some rS -> is_live h S_ = true ->
  source_output_index c < m rS ->
  spec_input_bit h rT i = get_bit (output rS) (source_output_index c).
Proof.
  intros Hic Hc Hsrc HS Hlive Hidx. unfold spec_input_bit.
  rewrite Hic. simpl. rewrite Hc, Hsrc, HS, Hlive.
  by destruct (Z.ltb_spec (source_output_index c) (m rS)); [|lia].
Qed.

End Step.

(** C1. In a step over a non-empty list of live automata, every call of
    the transition function of a listed automaton [T] is handed a final
    input whose bit [i], for a connected slot [i] with live source [S] and
    recorded index below the output width of [S], is the bit at that index
    of the output of [S] as it was before the step began; [S] may be [T]
    itself or any other automaton of the list. *)
Theorem ma_step_reads_pre_step_outputs
    (h : heap) (la : list addr) (T S_ : addr) (rT rS : moore)
    (ic : list input_connection_info) (c : input_connection_info) (i : Z) :
  sized_heap h ->
  la <> [] ->
  (forall a, a ∈ la -> is_live h a = true) ->
  T ∈ la ->
  h !! T = Some rT ->
  0 <= i < n rT ->
  incoming_connections rT = Some ic ->
  ic !! Z.to_nat i = Some c ->
  source_automaton c = Some S_ ->
  h !! S_ = Some rS ->
  is_live h S_ = true ->
  source_output_index c < m rS ->
  result (ma_step h (Some (Some <$> la))) = Ok tt /\
  (exists input_ state_,
     CallT T input_ state_ ∈ calls (ma_step h (Some (Some <$> la)))) /\
  (forall input_ state_,
     CallT T input_ state_ ∈ calls (ma_step h (Some (Some <$> la))) ->
     exists fi, input_ = Some fi /\
       get_bit fi i = get_bit (output rS) (source_output_index c)).
Proof.
  intros Hh Hne _ HT HrT Hi Hic Hc Hsrc HS Hlive Hidx.
  rewrite ma_step_all by done. simpl.
  assert (resolve_all h la !! T
          = Some (set_final_input (final_input_of h rT) rT)) as Hres.
  { rewrite resolve_all_lookup, HrT by done. simpl. unfold resolved_if.
    by rewrite bool_decide_true. }
  destruct (final_input_of_spec h rT Hh (sized_heap_lookup _ _ _ Hh HrT)
              ltac:(lia)) as (fi' & Hfi' & _ & Hbits).
  split; [done|]. split.
  - assert (Some T ∈ Some <$> la) as Hin by (apply list_elem_of_fmap; eauto).
    pose proof (transition_calls_complete
                  (Some <$> la) (resolve_all h la, []) T _ Hin Hres) as Hcall.
    eexists _, _. apply commit_calls_mono, Hcall.
  - intros input_ state_ Hcall.
    apply commit_calls_sound in Hcall as [Hcall|(? & ? & ?)]; [|done].
    apply transition_calls_sound in Hcall as [Hcall|(a & r & _ & Ha & Heq)];
      [by apply elem_of_nil in Hcall|].
    simpl in Ha. injection Heq as -> -> ->.
    rewrite Hres in Ha. injection Ha as <-. simpl.
    exists fi'. split; [done|].
    rewrite Hbits by lia.
    destruct (Z.ltb_spec i (n rT)); [|lia]. simpl.
    by eapply spec_input_bit_connected.
Qed.

Section StepFailure.

Lemma resolve_all_lookup_notin h la a :
  a ∉ la -> resolve_all h la !! a = h !! a.
Proof.
  revert h. induction la as [|b la IH]; intros h Ha; [done|].
  apply not_elem_of_cons in Ha as [Hne Ha].
  rewrite resolve_all_cons, IH by done.
  unfold update_final_input. destruct (h !! b); [|done].
  by rewrite lookup_insert_ne.
Qed.

Lemma ma_step_null h la l2 :
  ma_step h (Some ((Some <$> la) ++ None :: l2))
  = {| heap_after := resolve_all h la; calls := []; result := Err EINVAL |}.
Proof.
  unfold ma_step. rewrite length_app, length_cons.
  destruct (Z.eqb_spec (Z.of_nat (length (Some <$> la) + S (length l2))) 0);
    [lia|].
  by rewrite step_inputs_null.
Qed.

End StepFailure.

(** C10. When a step meets a [NULL] element it fails with [EINVAL]; no
    transition (or output) function has been called; every block keeps all
    its fields but the final-input buffer, blocks not named before the
    first [NULL] are untouched, and the blocks named before it hold the
    final input recomputed from the heap as it was. *)
Theorem ma_step_null_element (h : heap) (la : list addr) (l2 : list ptr) :
  let res := ma_step h (Some ((Some <$> la) ++ None :: l2)) in
  result res = Err EINVAL /\
  calls res = [] /\
  same_visible h (heap_after res) /\
  (forall a r, heap_after res !! a = Some r ->
     exists r0, h !! a = Some r0 /\ state r = state r0 /\ output r = output r0) /\
  (forall a, a ∉ la -> heap_after res !! a = h !! a) /\
  (sized_heap h ->
   forall a, a ∈ la ->
     heap_after res !! a
     = (fun r => set_final_input (final_input_of h r) r) <$> h !! a).
Proof.
  intros res. unfold res. rewrite ma_step_null. simpl.
  repeat split.
  - apply resolve_all_visible.
  - intros a r Ha.
    destruct (same_visible_lookup _ _ a r
                (same_visible_sym _ _ (resolve_all_visible h la)) Ha)
      as (r0 & Hr0 & Her).
    exists r0. split; [done|].
    split; [exact (f_equal state Her) | exact (f_equal output Her)].
  - intros a Ha. by apply resolve_all_lookup_notin.
  - intros Hh a Ha. rewrite resolve_all_lookup by done.
    destruct (h !! a); [|done]. simpl. unfold resolved_if.
    by rewrite bool_decide_true.
Qed.

(** C9. For a live automaton with [n > 0] and a non-null argument
    [ma_set_input] succeeds and overwrites the first [ceil(n/64)] words of
    the manual-input buffer; every other field of the automaton and every
    other block of the heap, dependents lists included, stay as they
    were. *)
Theorem ma_set_input_frame (h : heap) (a : addr) (r : moore) (input : list Z) :
  h !! a = Some r -> is_live h a = true -> sized r = true -> 0 < n r ->
  exists mi,
    manual_input r = Some mi /\
    ma_set_input h (Some a) (Some input)
    = (<[a := set_manual_input
                (Some (take (Z.to_nat ((n r + 63) / 64)) input
                       ++ drop (Z.to_nat ((n r + 63) / 64)) mi)) r]> h,
       Ok tt) /\
    (forall b, b <> a ->
       (ma_set_input h (Some a) (Some input)).1 !! b = h !! b) /\
    (exists r', (ma_set_input h (Some a) (Some input)).1 !! a = Some r' /\
       state r' = state r /\ next_state r' = next_state r /\
       output r' = output r /\ final_input r' = final_input r /\
       incoming_connections r' = incoming_connections r /\
       connected_to_me r' = connected_to_me r /\
       magic r' = magic r).
Proof.
  intros Ha _ Hr Hn.
  destruct (sized_spec r Hr) as (Hrange & _ & Hbufs & _).
  destruct (Hbufs ltac:(lia)) as (fi & mi & ic & _ & Hmi & _).
  exists mi. split; [done|].
  assert (ma_set_input h (Some a) (Some input)
          = (<[a := set_manual_input
                      (Some (take (Z.to_nat ((n r + 63) / 64)) input
                             ++ drop (Z.to_nat ((n r + 63) / 64)) mi)) r]> h,
             Ok tt)) as Heq.
  { unfold ma_set_input. rewrite Ha, Hmi.
    destruct (Z.eqb_spec (n r) 0); [lia|].
    by rewrite wrap64_small by (unfold SIZE_MAX, INT_BITS in *; lia). }
  rewrite Heq. simpl. repeat split.
  - intros b Hb. by rewrite lookup_insert_ne.
  - eexists. split; [apply lookup_insert_eq|]. done.
Qed.

Section Construction.

(** The block a successful [ma_create_full] leaves behind. *)
Lemma ma_create_full_block (h : heap) (new : option addr) (bufs : bool)
    (n_ m_ s_ : Z) (tf : transition_function_t) (yf : output_function_t)
    (q : list Z) (h' : heap) (a : addr) :
  1 <= m_ -> 1 <= s_ ->
  ma_create_full h new bufs n_ m_ s_ (Some tf) (Some yf) (Some q) = (h', Ok a) ->
  exists r,
    h' !! a = Some r /\
    magic r = MOORE_MAGIC /\
    state r = take (Z.to_nat ((s_ + 63) / 64)) q /\
    output r = yf (zeros ((m_ + 63) / 64)) (state r) m_ s_.
Proof.
  intros Hm Hs. unfold ma_create_full.
  destruct (Z.eqb_spec m_ 0); [lia|].
  destruct (Z.eqb_spec s_ 0); [lia|]. simpl.
  destruct (_ || _ || _) eqn:Hov; [done|].
  apply orb_false_elim in Hov as [Hov Hs64].
  apply orb_false_elim in Hov as [Hn64 Hm64].
  destruct (_ || _ || _ || _); [done|].
  destruct new as [a'|]; [|done].
  destruct bufs; [|done].
  intros [= <- <-].
  change (SIZE_MAX / 64) with 288230376151711743 in *.
  rewrite !wrap64_small by (unfold SIZE_MAX; lia).
  eexists. split; [apply lookup_insert_eq|]. simpl.
  assert (memcpy (zeros ((s_ + 63) / 64)) q ((s_ + 63) / 64)
          = take (Z.to_nat ((s_ + 63) / 64)) q) as Hst.
  { unfold memcpy, zeros. rewrite drop_replicate, Nat.sub_diag. simpl.
    by rewrite app_nil_r. }
  by rewrite Hst.
Qed.

(** With widths that pass the overflow checks and allocations that
    succeed, construction succeeds. *)
Lemma ma_create_full_succeeds (h : heap) (a : addr) (n_ m_ s_ : Z)
    (tf : transition_function_t) (yf : output_function_t) (q : list Z) :
  0 <= n_ <= SIZE_MAX / 64 -> 1 <= m_ <= SIZE_MAX / 64 ->
  1 <= s_ <= SIZE_MAX / 64 ->
  exists h',
    ma_create_full h (Some a) true n_ m_ s_ (Some tf) (Some yf) (Some q)
    = (h', Ok a).
Proof.
  change (SIZE_MAX / 64) with 288230376151711743.
  intros Hn Hm Hs. unfold ma_create_full.
  destruct (Z.eqb_spec m_ 0); [lia|].
  destruct (Z.eqb_spec s_ 0); [lia|]. simpl.
  change (SIZE_MAX / 64) with 288230376151711743.
  change (SIZE_MAX / sizeof_uint64_t) with 2305843009213693951.
  change (SIZE_MAX / sizeof_input_connection_info) with 1152921504606846975.
  rewrite !wrap64_small by (unfold SIZE_MAX; lia).
  assert (0 <= (n_ + 63) / 64 <= n_ + 63)
    by (split; [apply Z.div_pos | apply Z.div_le_upper_bound]; lia).
  assert (0 <= (m_ + 63) / 64 <= m_ + 63)
    by (split; [apply Z.div_pos | apply Z.div_le_upper_bound]; lia).
  assert (0 <= (s_ + 63) / 64 <= s_ + 63)
    by (split; [apply Z.div_pos | apply Z.div_le_upper_bound]; lia).
  destruct (Z.gtb_spec n_ 288230376151711743); [lia|].
  destruct (Z.gtb_spec m_ 288230376151711743); [lia|].
  destruct (Z.gtb_spec s_ 288230376151711743); [lia|]. simpl.
  destruct (Z.gtb_spec (if 0 <? n_ then (n_ + 63) / 64 else 0)
                       2305843009213693951);
    [destruct (0 <? n_); lia|].
  destruct (Z.gtb_spec ((m_ + 63) / 64) 2305843009213693951); [lia|].
  destruct (Z.gtb_spec ((s_ + 63) / 64) 2305843009213693951); [lia|].
  destruct (Z.gtb_spec n_ 1152921504606846975); [lia|]. simpl.
  eauto.
Qed.

(** The block [ma_create_full] builds has buffers of the declared size:
    it satisfies [sized] as soon as its widths are within [INT_BITS] and the
    output function fills the output buffer it is given. *)
Lemma ma_create_full_sized (h : heap) (new : option addr) (bufs : bool)
    (n_ m_ s_ : Z) (tf : transition_function_t) (yf : output_function_t)
    (q : list Z) (h' : heap) (a : addr) :
  0 <= n_ <= INT_BITS -> 1 <= m_ <= INT_BITS -> 1 <= s_ ->
  (forall o st, length (yf o st m_ s_) = length o) ->
  ma_create_full h new bufs n_ m_ s_ (Some tf) (Some yf) (Some q) = (h', Ok a) ->
  exists r, h' !! a = Some r /\ sized r = true.
Proof.
  intros Hn Hm Hs Hy. unfold ma_create_full.
  destruct (Z.eqb_spec m_ 0); [lia|].
  destruct (Z.eqb_spec s_ 0); [lia|]. simpl.
  destruct (_ || _ || _) eqn:Hov; [done|].
  apply orb_false_elim in Hov as [Hov Hs64].
  apply orb_false_elim in Hov as [Hn64 Hm64].
  destruct (_ || _ || _ || _); [done|].
  destruct new as [a'|]; [|done].
  destruct bufs; [|done].
  intros [= <- <-].
  change (SIZE_MAX / 64) with 288230376151711743 in *.
  unfold INT_BITS in *.
  rewrite !wrap64_small by (unfold SIZE_MAX; lia).
  eexists. split; [apply lookup_insert_eq|].
  assert (0 <= (n_ + 63) / 64) by (apply Z.div_pos; lia).
  assert (0 <= (m_ + 63) / 64) by (apply Z.div_pos; lia).
  assert (0 <= (s_ + 63) / 64) by (apply Z.div_pos; lia).
  unfold sized. cbn [n m s next_state output final_input manual_input
                     incoming_connections].
  unfold INT_BITS, zeros.
  repeat (apply andb_true_intro; split).
  - apply Z.leb_le. lia.
  - apply Z.leb_le. lia.
  - apply Z.leb_le. lia.
  - apply Z.eqb_eq. rewrite length_replicate, Z2Nat.id; lia.
  - apply Z.eqb_eq. rewrite Hy, length_replicate, Z2Nat.id; lia.
  - destruct (Z.ltb_spec 0 n_), (Z.eqb_spec n_ 0); try lia; [|done].
    apply Z.eqb_eq. rewrite length_replicate, Z2Nat.id; lia.
  - destruct (Z.ltb_spec 0 n_); [|done].
    apply forallb_forall. intros c Hc.
    apply list_elem_of_In, elem_of_replicate in Hc as [-> _]. done.
Qed.

End Construction.

(** C6. A successful [ma_create_full] leaves the first [ceil(s/64)] words
    of the initial state in the state buffer and computes the output by a
    call of the output function on that state, so that [ma_get_output]
    called next returns exactly that output. *)
Theorem ma_create_full_output (h : heap) (new : option addr) (bufs : bool)
    (n_ m_ s_ : Z) (tf : transition_function_t) (yf : output_function_t)
    (q : list Z) (h' : heap) (a : addr) :
  1 <= m_ -> 1 <= s_ ->
  ma_create_full h new bufs n_ m_ s_ (Some tf) (Some yf) (Some q) = (h', Ok a) ->
  exists r,
    h' !! a = Some r /\
    magic r = MOORE_MAGIC /\
    state r = take (Z.to_nat ((s_ + 63) / 64)) q /\
    ma_get_output h' (Some a)
    = Ok (yf (zeros ((m_ + 63) / 64)) (state r) m_ s_).
Proof.
  intros Hm Hs Hc.
  destruct (ma_create_full_block _ _ _ _ _ _ _ _ _ _ _ Hm Hs Hc)
    as (r & Hr & Hmagic & Hst & Hout).
  exists r. repeat split; try done.
  unfold ma_get_output. by rewrite Hr, Hout.
Qed.

(** ** Deletion (section 4.3) *)

Section Deletion.

Lemma remove_connected_magic h p q b :
  magic <$> remove_connected h p q !! b = magic <$> h !! b.
Proof.
  destruct p as [ai|], q as [ao|]; try done. simpl.
  rewrite lookup_alter. case_decide; [subst|done].
  by destruct (h !! b).
Qed.

Lemma delete_unlink_source_magic a h j b :
  magic <$> delete_unlink_source a h j !! b = magic <$> h !! b.
Proof.
  unfold delete_unlink_source.
  destruct (h !! a) as [r|]; [|done].
  destruct (slot_source r j) as [src|]; [|done].
  destruct (is_live h src); [|done].
  apply remove_connected_magic.
Qed.

Lemma delete_unlink_dependent_magic a h i b :
  magic <$> delete_unlink_dependent a h i !! b = magic <$> h !! b.
Proof.
  unfold delete_unlink_dependent.
  destruct (h !! a) as [r|]; [|done].
  destruct (connected_to_me r !! i) as [in_|]; [|done].
  destruct (is_live h in_); [|done].
  rewrite lookup_alter. case_decide; [subst|done].
  by destruct (h !! b).
Qed.

Lemma foldl_magic (f : heap -> nat -> heap) (l : list nat) h b :
  (forall h j, magic <$> f h j !! b = magic <$> h !! b) ->
  magic <$> foldl f h l !! b = magic <$> h !! b.
Proof.
  intros Hf. revert h. induction l as [|j l IH]; intros h; [done|].
  simpl. by rewrite IH, Hf.
Qed.



End Deletion.



(** ** Determinism and order of the list (section 4.6) *)

Section Determinism.

Lemma same_inputs_lookup h1 h2 a r1 :
  same_inputs h1 h2 -> h1 !! a = Some r1 ->
  exists r2, h2 !! a = Some r2 /\ config r1 = config r2.
Proof.
  intros H Ha. specialize (H a). rewrite Ha in H.
  destruct (h2 !! a) as [r2|]; [|done].
  exists r2. split; [done|]. simpl in H. congruence.
Qed.

Lemma same_inputs_none h1 h2 a :
  same_inputs h1 h2 -> h1 !! a = None -> h2 !! a = None.
Proof.
  intros H Ha. specialize (H a). rewrite Ha in H.
  by destruct (h2 !! a).
Qed.

Lemma config_output r1 r2 :
  config r1 = config r2 -> pure_record r1 ->
  sized r1 = true -> sized r2 = true ->
  output r1 = y r1 (output r1) (state r1) (m r1) (s r1) ->
  output r2 = y r2 (output r2) (state r2) (m r2) (s r2) ->
  output r1 = output r2.
Proof.
  unfold config.
  intros [= Hn Hm Hs Ht Hy Hmagic Hst Hmi Hic] [_ Hpure] Hs1 Hs2 H1 H2.
  destruct (sized_lengths r1 Hs1) as [_ Hl1].
  destruct (sized_lengths r2 Hs2) as [_ Hl2].
  rewrite H1, H2, <- Hy, <- Hst, <- Hm, <- Hs.
  apply Hpure; congruence.
Qed.

Lemma same_inputs_sources h1 h2 :
  same_inputs h1 h2 -> pure_functions h1 ->
  sized_heap h1 -> sized_heap h2 ->
  outputs_current h1 -> outputs_current h2 ->
  sources_agree h1 h2.
Proof.
  intros Hin Hpure Hz1 Hz2 Ho1 Ho2 a.
  destruct (h1 !! a) as [r1|] eqn:H1.
  - destruct (same_inputs_lookup _ _ _ _ Hin H1) as (r2 & H2 & Hc).
    rewrite H2. simpl. f_equal.
    rewrite (config_output r1 r2 Hc (Hpure _ _ H1)
               (sized_heap_lookup _ _ _ Hz1 H1)
               (sized_heap_lookup _ _ _ Hz2 H2)
               (Ho1 _ _ H1) (Ho2 _ _ H2)).
    unfold config in Hc. injection Hc as Hn Hm Hs Ht Hy Hmagic Hst Hmi Hic.
    by rewrite Hmagic, Hm.
  - by rewrite (same_inputs_none _ _ _ Hin H1).
Qed.

(** The final input computed for two blocks of equal configuration, from
    heaps whose sources agree, is the same. *)
Lemma final_input_of_twin h1 h2 r1 r2 :
  sources_agree h1 h2 -> sized r1 = true -> sized r2 = true ->
  config r1 = config r2 ->
  final_input_of h1 r1 = final_input_of h2 r2.
Proof.
  intros Hsrc Hs1 Hs2 Hc.
  unfold config in Hc. injection Hc as Hn Hm Hs Ht Hy Hmagic Hst Hmi Hic.
  destruct (Z.eqb_spec (n r1) 0) as [Hz|Hnz].
  - unfold final_input_of. rewrite <- Hn, Hz. simpl.
    rewrite (sized_inputless r1), (sized_inputless r2) by (done || congruence).
    done.
  - destruct (sized_spec r1 Hs1) as (Hrange & _ & Hbufs1 & _).
    destruct (sized_spec r2 Hs2) as (_ & _ & Hbufs2 & _).
    destruct (Hbufs1 Hnz) as (fi1 & mi1 & ic1 & Hfi1 & Hmi1 & Hic1 & Hlen1).
    destruct (Hbufs2 ltac:(congruence))
      as (fi2 & mi2 & ic2 & Hfi2 & Hmi2 & Hic2 & Hlen2).
    unfold final_input_of.
    rewrite <- Hn, Hfi1, Hfi2, Hmi1, Hic1, <- Hmi, <- Hic, Hmi1, Hic1.
    destruct (Z.eqb_spec (n r1) 0); [done|].
    rewrite wrap64_small by (unfold SIZE_MAX, INT_BITS in *; lia).
    rewrite (clear_words_all fi1), (clear_words_all fi2) by congruence.
    f_equal. unfold merge_inputs.
    rewrite <- Hn, <- Hlen1 in Hlen2.
    apply Nat2Z.inj in Hlen2 as ->.
    by apply merge_rounds_sources.
Qed.

Lemma core_state_transition_first r1 r2 :
  config r1 = config r2 -> final_input r1 = final_input r2 ->
  pure_record r1 ->
  Z.of_nat (length (next_state r1)) = (s r1 + 63) / 64 ->
  Z.of_nat (length (next_state r2)) = (s r1 + 63) / 64 ->
  core_state (transition_of r1) = core_state (transition_of r2).
Proof.
  unfold config.
  intros [= Hn Hm Hs Ht Hy Hmagic Hst Hmi Hic] Hfi [Hpure _] Hl1 Hl2.
  unfold core_state, config, transition_of. simpl.
  rewrite <- Hn, <- Hm, <- Hs, <- Ht, <- Hy, <- Hmagic, <- Hst, <- Hmi,
          <- Hic, <- Hfi.
  by rewrite (Hpure (next_state r1) (next_state r2)).
Qed.

Lemma core_state_transition r1 r2 :
  core_state r1 = core_state r2 ->
  core_state (transition_of r1) = core_state (transition_of r2).
Proof.
  unfold core_state, config.
  intros [= Hn Hm Hs Ht Hy Hmagic Hst Hmi Hic Hns Hfi].
  unfold transition_of. simpl.
  by rewrite Hn, Hm, Hs, Ht, Hy, Hmagic, Hst, Hmi, Hic, Hns, Hfi.
Qed.

Lemma core_state_transitions k r1 r2 :
  config r1 = config r2 -> final_input r1 = final_input r2 ->
  pure_record r1 ->
  Z.of_nat (length (next_state r1)) = (s r1 + 63) / 64 ->
  Z.of_nat (length (next_state r2)) = (s r1 + 63) / 64 ->
  core_state (Nat.iter (S k) transition_of r1)
  = core_state (Nat.iter (S k) transition_of r2).
Proof.
  intros Hc Hfi Hp Hl1 Hl2. induction k as [|k IH].
  - by apply core_state_transition_first.
  - change (Nat.iter (S (S k)) transition_of ?r)
      with (transition_of (Nat.iter (S k) transition_of r)).
    by apply core_state_transition.
Qed.

Lemma core_state_commit_first r1 r2 :
  core_state r1 = core_state r2 -> pure_record r1 ->
  Z.of_nat (length (output r1)) = (m r1 + 63) / 64 ->
  Z.of_nat (length (output r2)) = (m r1 + 63) / 64 ->
  core_state (commit_of r1) = core_state (commit_of r2)
  /\ output (commit_of r1) = output (commit_of r2).
Proof.
  unfold core_state, config.
  intros [= Hn Hm Hs Ht Hy Hmagic Hst Hmi Hic Hns Hfi] [_ Hpure] Hl1 Hl2.
  unfold commit_of. simpl.
  rewrite <- Hn, <- Hm, <- Hs, <- Ht, <- Hy, <- Hmagic, <- Hst, <- Hmi,
          <- Hic, <- Hns, <- Hfi.
  split; [done|]. by apply Hpure.
Qed.

Lemma core_state_commit r1 r2 :
  core_state r1 = core_state r2 -> output r1 = output r2 ->
  core_state (commit_of r1) = core_state (commit_of r2)
  /\ output (commit_of r1) = output (commit_of r2).
Proof.
  unfold core_state, config.
  intros [= Hn Hm Hs Ht Hy Hmagic Hst Hmi Hic Hns Hfi] Hout.
  unfold commit_of. simpl.
  by rewrite <- Hn, <- Hm, <- Hs, <- Ht, <- Hy, <- Hmagic, <- Hst, <- Hmi,
             <- Hic, <- Hns, <- Hfi, <- Hout.
Qed.

Lemma pure_record_commit r : pure_record r -> pure_record (commit_of r).
Proof. done. Qed.

Lemma pure_record_transition r : pure_record r -> pure_record (transition_of r).
Proof. done. Qed.

Lemma core_state_commits k r1 r2 :
  core_state r1 = core_state r2 -> pure_record r1 ->
  Z.of_nat (length (output r1)) = (m r1 + 63) / 64 ->
  Z.of_nat (length (output r2)) = (m r1 + 63) / 64 ->
  core_state (Nat.iter (S k) commit_of r1)
  = core_state (Nat.iter (S k) commit_of r2)
  /\ output (Nat.iter (S k) commit_of r1)
     = output (Nat.iter (S k) commit_of r2).
Proof.
  intros Hc Hp Hl1 Hl2. induction k as [|k [IH1 IH2]].
  - by apply core_state_commit_first.
  - change (Nat.iter (S (S k)) commit_of ?r)
      with (commit_of (Nat.iter (S k) commit_of r)).
    by apply core_state_commit.
Qed.

Lemma pure_record_transitions k r :
  pure_record r -> pure_record (Nat.iter k transition_of r).
Proof. intros Hp. induction k; [done|]. by apply pure_record_transition. Qed.

End Determinism.

Section Order.

Lemma same_visible_config h h' a :
  same_visible h h' ->
  config <$> h !! a = config <$> h' !! a
  /\ output <$> h !! a = output <$> h' !! a.
Proof.
  intros H. specialize (H a).
  destruct (h !! a) as [r|], (h' !! a) as [r'|]; try done.
  assert (erase_final r = erase_final r') as E by (simpl in H; congruence).
  split; simpl; f_equal.
  - exact (f_equal config E).
  - exact (f_equal output E).
Qed.

Lemma sources_agree_output h h' a :
  sources_agree h h' -> output <$> h !! a = output <$> h' !! a.
Proof.
  intros H. specialize (H a).
  destruct (h !! a) as [r|], (h' !! a) as [r'|]; try done.
  simpl in *. congruence.
Qed.

Lemma perm_all_some (la : list addr) (l : list ptr) :
  Some <$> la ≡ₚ l -> exists la', l = Some <$> la'.
Proof.
  intros Hp. destruct (list_ptr_split l) as [?|(la' & l2 & ->)]; [done|].
  assert (None ∈ Some <$> la) as Hin
    by (rewrite Hp; apply elem_of_app; right; left).
  apply list_elem_of_fmap in Hin as (? & ? & ?). done.
Qed.

Lemma perm_some_null (la la' : list addr) (l2 : list ptr) :
  (Some <$> la) ++ None :: l2 ≡ₚ Some <$> la' -> False.
Proof.
  intros Hp.
  assert (None ∈ Some <$> la') as Hin
    by (rewrite <- Hp; apply elem_of_app; right; left).
  apply list_elem_of_fmap in Hin as (? & ? & ?). done.
Qed.

(** The block a successful step leaves at [a]: resolved, then transition
    and commit applied as often as the array names [a]. *)
Lemma ma_step_all_lookup h la a :
  sized_heap h -> la <> [] ->
  heap_after (ma_step h (Some (Some <$> la))) !! a
  = (fun r =>
       Nat.iter (occurrences a (Some <$> la)) commit_of
         (Nat.iter (occurrences a (Some <$> la)) transition_of
            (resolved_if h la a r))) <$> h !! a.
Proof.
  intros Hh Hne. rewrite ma_step_all by done. simpl.
  rewrite foldl_step_commit_fst, foldl_apply_at_lookup.
  rewrite foldl_step_transition_fst, foldl_apply_at_lookup. simpl.
  rewrite resolve_all_lookup by done.
  by destruct (h !! a).
Qed.

End Order.

(** C8. [ma_step] is deterministic and insensitive to the order of the
    list: on two heaps holding the same automata with identical current
    states, manual inputs and connections, and on two lists that are
    permutations of each other, the calls return the same result and leave
    every automaton with the same configuration, the same state and the
    same output. *)
Theorem ma_step_deterministic (h1 h2 : heap) (l1 l2 : list ptr) :
  l1 ≡ₚ l2 ->
  same_inputs h1 h2 ->
  sized_heap h1 -> sized_heap h2 ->
  pure_functions h1 ->
  outputs_current h1 -> outputs_current h2 ->
  result (ma_step h1 (Some l1)) = result (ma_step h2 (Some l2)) /\
  same_inputs (heap_after (ma_step h1 (Some l1)))
              (heap_after (ma_step h2 (Some l2))) /\
  (forall a,
     state <$> heap_after (ma_step h1 (Some l1)) !! a
     = state <$> heap_after (ma_step h2 (Some l2)) !! a) /\
  (forall a,
     output <$> heap_after (ma_step h1 (Some l1)) !! a
     = output <$> heap_after (ma_step h2 (Some l2)) !! a).
Proof.
  intros Hp Hin Hs1 Hs2 Hpure Ho1 Ho2.
  pose proof (same_inputs_sources _ _ Hin Hpure Hs1 Hs2 Ho1 Ho2) as Hsrc.
  assert (result (ma_step h1 (Some l1)) = result (ma_step h2 (Some l2)) /\
          forall a,
            config <$> heap_after (ma_step h1 (Some l1)) !! a
            = config <$> heap_after (ma_step h2 (Some l2)) !! a
            /\ output <$> heap_after (ma_step h1 (Some l1)) !! a
               = output <$> heap_after (ma_step h2 (Some l2)) !! a)
    as [Hres Hall].
  { destruct (list_ptr_split l1) as [(la1 & ->)|(la1 & l1' & ->)].
    - destruct (perm_all_some _ _ Hp) as (la2 & ->).
      destruct (decide (la1 = [])) as [->|Hne1].
      + apply Permutation_nil_l in Hp. symmetry in Hp.
        apply fmap_nil_inv in Hp as ->.
        split; [done|]. intros a. split; [apply Hin|].
        by apply sources_agree_output.
      + assert (la2 <> []) as Hne2.
        { intros ->. apply Permutation_nil_r in Hp.
          by apply fmap_nil_inv in Hp. }
        split; [by rewrite !ma_step_all|].
        intros a. rewrite !ma_step_all_lookup by done.
        rewrite <- (occurrences_perm a _ _ Hp).
        destruct (h1 !! a) as [r1|] eqn:H1;
          [|by rewrite (same_inputs_none _ _ _ Hin H1)].
        destruct (same_inputs_lookup _ _ _ _ Hin H1) as (r2 & H2 & Hc).
        rewrite H2. simpl.
        destruct (occurrences a (Some <$> la1)) as [|k] eqn:Hk.
        * assert (a ∉ la1)
            by (rewrite <- occurrences_fmap_Some; lia).
          assert (a ∉ la2).
          { rewrite <- occurrences_fmap_Some,
                    <- (occurrences_perm a _ _ Hp). lia. }
          simpl. unfold resolved_if. rewrite !bool_decide_false by done.
          split; f_equal; [done|].
          exact (config_output r1 r2 Hc (Hpure _ _ H1)
                               (sized_heap_lookup _ _ _ Hs1 H1)
                               (sized_heap_lookup _ _ _ Hs2 H2)
                               (Ho1 _ _ H1) (Ho2 _ _ H2)).
        * assert (a ∈ la1)
            by (rewrite <- occurrences_fmap_Some; lia).
          assert (a ∈ la2).
          { rewrite <- occurrences_fmap_Some,
                    <- (occurrences_perm a _ _ Hp). lia. }
          unfold resolved_if. rewrite !bool_decide_true by done.
          rewrite (final_input_of_twin h1 h2 r1 r2 Hsrc
                     (sized_heap_lookup _ _ _ Hs1 H1)
                     (sized_heap_lookup _ _ _ Hs2 H2) Hc).
          set (x1 := set_final_input (final_input_of h2 r2) r1).
          set (x2 := set_final_input (final_input_of h2 r2) r2).
          destruct (sized_lengths r1 (sized_heap_lookup _ _ _ Hs1 H1))
            as [Hn1 Hl1].
          destruct (sized_lengths r2 (sized_heap_lookup _ _ _ Hs2 H2))
            as [Hn2 Hl2].
          assert (m r1 = m r2 /\ s r1 = s r2) as [Hm Hs]
            by (unfold config in Hc; split; congruence).
          assert (core_state (Nat.iter (S k) transition_of x1)
                  = core_state (Nat.iter (S k) transition_of x2)) as Ht.
          { apply core_state_transitions;
              [exact Hc | done | exact (Hpure _ _ H1) | done |].
            simpl. congruence. }
          destruct (core_state_commits k _ _ Ht) as [Hcs Hout].
          { apply pure_record_transitions. exact (Hpure _ _ H1). }
          { by rewrite (iter_preserves _ output), (iter_preserves _ m). }
          { rewrite (iter_preserves _ output), (iter_preserves _ m) by done.
            simpl. congruence. }
          split; f_equal; [|done].
          unfold core_state in Hcs. congruence.
    - destruct (list_ptr_split l2) as [(la2 & ->)|(la2 & l2' & ->)];
        [by apply perm_some_null in Hp|].
      rewrite !ma_step_null. simpl. split; [done|]. intros a.
      destruct (same_visible_config _ _ a (resolve_all_visible h1 la1))
        as [<- <-].
      destruct (same_visible_config _ _ a (resolve_all_visible h2 la2))
        as [<- <-].
      split; [apply Hin | by apply sources_agree_output]. }
  split; [done|]. split; [intros a; apply Hall|].
  split; intros a; destruct (Hall a) as [Hc Ho]; [|done].
  destruct (heap_after (ma_step h1 (Some l1)) !! a) as [r1|],
           (heap_after (ma_step h2 (Some l2)) !! a) as [r2|]; try done.
  simpl in *. unfold config in Hc. congruence.
Qed.

(** ** Unused high bits (section 3) *)

Section HighBits.

Lemma identity_func_masks (o st : list Z) (w : Z) :
  0 < w <= SIZE_MAX - 63 ->
  Z.of_nat (length o) = (w + 63) / 64 ->
  (w + 63) / 64 <= Z.of_nat (length st) ->
  unused_high_bits_zero w (identity_func o st w w) = true.
Proof.
  intros Hw Ho Hst. unfold unused_high_bits_zero, identity_func.
  destruct (Z.eqb_spec (w mod 64) 0) as [|Hu]; [done|].
  rewrite Z.eqb_refl. destruct (Z.ltb_spec 0 w); [|lia]. simpl.
  rewrite wrap64_small by lia.
  pose proof (Z.mod_pos_bound w 64 ltac:(lia)) as Hmod.
  assert ((w + 63) / 64 - 1 = w / 64) as Hk.
  { pose proof (Z.div_mod w 64 ltac:(lia)).
    assert (w + 63 = (w / 64 + 1) * 64 + (w mod 64 - 1)) as -> by lia.
    rewrite Z.div_add_l, (Z.div_small (w mod 64 - 1)) by lia. lia. }
  assert (0 <= w / 64) by (apply Z.div_pos; lia).
  rewrite Hk.
  rewrite mask_pow2 by lia.
  assert (0 < 2 ^ (w mod 64)) by (apply Z.pow_pos_nonneg; lia).
  assert (2 ^ (w mod 64) <= 2 ^ 63) by (apply Z.pow_le_mono_r; lia).
  rewrite wrap64_small
    by (unfold SIZE_MAX; change (2 ^ 63) with 9223372036854775808 in *; lia).
  rewrite load_store_eq; [|done|].
  - change (2 ^ (w mod 64) - 1) with (Z.pred (2 ^ (w mod 64))).
    rewrite <- Z.ones_equiv, Z.land_ones by lia.
    rewrite Z.shiftr_div_pow2 by lia.
    rewrite Z.div_small; [done|]. apply Z.mod_pos_bound. lia.
  - unfold memcpy.
    rewrite length_app, length_take, length_drop. lia.
Qed.

(** What [ma_set_state] leaves in the block. *)
Lemma ma_set_state_block (h : heap) (a : addr) (r : moore) (bits : list Z) :
  h !! a = Some r -> s r <= SIZE_MAX - 63 ->
  0 <= s r ->
  Z.of_nat (length (state r)) = (s r + 63) / 64 ->
  exists r',
    ma_set_state h (Some a) (Some bits) = (<[a := r']> h, Ok tt) /\
    state r' = take (Z.to_nat ((s r + 63) / 64)) bits /\
    output r' = y r (output r) (state r') (m r) (s r).
Proof.
  intros Ha Hs Hs0 Hlen. unfold ma_set_state. rewrite Ha.
  rewrite wrap64_small by lia.
  eexists. split; [done|]. simpl.
  assert (memcpy (state r) bits ((s r + 63) / 64)
          = take (Z.to_nat ((s r + 63) / 64)) bits) as ->; [|done].
  unfold memcpy. rewrite drop_ge by lia. apply app_nil_r.
Qed.

End HighBits.

(** C5, as the code has it.  A write to a state buffer stores the caller's
    [ceil(s/64)] words verbatim and a write to an output buffer stores what
    the output function returns; nothing is masked on the way.  The
    identity output function does clear the unused high bits of the last
    output word. *)
Theorem state_writes_are_verbatim :
  (forall h new bufs n_ m_ s_ tf yf q h' a,
     1 <= m_ -> 1 <= s_ ->
     ma_create_full h new bufs n_ m_ s_ (Some tf) (Some yf) (Some q)
     = (h', Ok a) ->
     exists r, h' !! a = Some r /\
       state r = take (Z.to_nat ((s_ + 63) / 64)) q /\
       output r = yf (zeros ((m_ + 63) / 64)) (state r) m_ s_) /\
  (forall h a r bits,
     h !! a = Some r -> 0 <= s r <= SIZE_MAX - 63 ->
     Z.of_nat (length (state r)) = (s r + 63) / 64 ->
     exists r',
       ma_set_state h (Some a) (Some bits) = (<[a := r']> h, Ok tt) /\
       state r' = take (Z.to_nat ((s r + 63) / 64)) bits /\
       output r' = y r (output r) (state r') (m r) (s r)) /\
  (forall o st w,
     0 < w <= SIZE_MAX - 63 ->
     Z.of_nat (length o) = (w + 63) / 64 ->
     (w + 63) / 64 <= Z.of_nat (length st) ->
     unused_high_bits_zero w (identity_func o st w w) = true).
Proof.
  split; [|split].
  - intros h new bufs n_ m_ s_ tf yf q h' a Hm Hs Hc.
    destruct (ma_create_full_block _ _ _ _ _ _ _ _ _ _ _ Hm Hs Hc)
      as (r & Hr & _ & Hst & Hout).
    by exists r.
  - intros h a r bits Ha [Hs0 Hs] Hlen. by apply ma_set_state_block.
  - apply identity_func_masks.
Qed.

(** C5 as stated fails: a state of width 2 constructed from the word 255
    keeps the six bits above its width. *)
Lemma state_high_bits_not_cleared :
  exists h r,
    ma_create_full ∅ (Some 1%positive) true 0 1 2
      (Some pulse_generator) (Some pulse_output) (Some [255])
    = (h, Ok 1%positive) /\
    h !! 1%positive = Some r /\
    state r = [255] /\
    unused_high_bits_zero (s r) (state r) = false.
Proof.
  eexists _, _. split; [reflexivity|].
  split; [apply lookup_insert_eq|]. split; reflexivity.
Qed.

(** ** Connections (section 4.2) *)

Section Connect.

Lemma append_to_connected_list_status ok h ao ai :
  (append_to_connected_list ok h ao ai).2 = Ok tt \/
  append_to_connected_list ok h ao ai = (h, Err ENOMEM).
Proof.
  unfold append_to_connected_list.
  destruct (h !! ao) as [r|]; [|by left].
  case_bool_decide; [by left|].
  destruct (_ =? _); [|by left].
  destruct ok; [by left | by right].
Qed.

(** A call rejected for its arguments changes nothing. *)
Lemma ma_connect_einval_unchanged ok h a_in in_ a_out out num :
  (ma_connect ok h a_in in_ a_out out num).2 = Err EINVAL ->
  (ma_connect ok h a_in in_ a_out out num).1 = h.
Proof.
  unfold ma_connect.
  destruct a_in as [ai|], a_out as [ao|]; try done.
  destruct (num =? 0); [done|].
  destruct (h !! ai) as [ri|], (h !! ao) as [ro|]; try done.
  destruct (_ || _ || _ || _); [done|].
  intros Hst.
  destruct (append_to_connected_list_status ok
              (<[ai:=set_incoming_connections
                       ((fun ic => connect_slots ic in_ ao out num)
                          <$> incoming_connections ri) ri]> h) ao ai)
    as [H|H]; rewrite H in Hst; done.
Qed.

(** The example network is what the calls build. *)
Lemma net_by_calls_is_net : net_by_calls = net.
Proof. reflexivity. Qed.

Lemma net_lookup a r :
  net !! a = Some r ->
  (a = 1%positive /\ r = pulse) \/ (a = 2%positive /\ r = counter).
Proof.
  unfold net. intros H.
  apply lookup_insert_Some in H as [[<- <-]|[_ H]]; [by right|].
  apply lookup_insert_Some in H as [[<- <-]|[_ H]]; [by left|].
  by rewrite lookup_empty in H.
Qed.

(** Before any rewiring the invariant holds in the example network. *)
Lemma net_dependents_exact : dependents_exact net 1%positive.
Proof.
  intros r Hr d.
  apply net_lookup in Hr as [[_ ->]|[? _]]; [|done].
  change (connected_to_me pulse) with [2%positive].
  rewrite list_elem_of_singleton. split.
  - intros ->. split; [reflexivity|]. by exists counter.
  - intros (_ & rd & Hrd & Hstill).
    apply net_lookup in Hrd as [[_ ->]|[-> _]]; [|done].
    by vm_compute in Hstill.
Qed.

End Connect.

(** C3 at a reachable state.  In the example network, built by the
    library's calls and satisfying the invariant, the counter's only input
    is rewired from the first generator to a second one.  The call
    succeeds, the counter no longer has any slot fed by the first
    generator, and yet it is still in that generator's dependents: the
    list is not the set of automata connected to it.  [ma_disconnect] on
    the same slot does remove the entry, and once the counter is deleted
    the stale entry names a destroyed automaton. *)
Theorem ma_connect_overwrite_keeps_dependent :
  net_by_calls = net /\
  dependents_exact net 1%positive /\
  net_rewired.2 = Ok tt /\
  (connected_to_me <$> net_rewired.1 !! 1%positive) = Some [2%positive] /\
  ((fun r => still_connected r 1%positive) <$> net_rewired.1 !! 2%positive)
  = Some false /\
  ~ dependents_exact net_rewired.1 1%positive /\
  (connected_to_me <$> (ma_disconnect net (Some 2%positive) 0 1).1 !! 1%positive)
  = Some [] /\
  (connected_to_me
     <$> ma_delete net_rewired.1 (Some 2%positive) !! 1%positive)
  = Some [2%positive] /\
  is_live (ma_delete net_rewired.1 (Some 2%positive)) 2%positive = false.
Proof.
  split; [apply net_by_calls_is_net|].
  split; [apply net_dependents_exact|].
  split; [reflexivity|]. split; [reflexivity|].
  assert (((fun r => still_connected r 1%positive)
             <$> net_rewired.1 !! 2%positive) = Some false) as Hstill
    by (vm_compute; reflexivity).
  split; [exact Hstill|]. split.
  - intros Hex.
    assert (connected_to_me <$> net_rewired.1 !! 1%positive
            = Some [2%positive]) as Hc by reflexivity.
    destruct (net_rewired.1 !! 1%positive) as [r1|] eqn:H1; [|done].
    simpl in Hc. injection Hc as Hdeps.
    assert (2%positive ∈ connected_to_me r1) as Hin
      by (rewrite Hdeps; by left).
    destruct (proj1 (Hex r1 H1 2%positive) Hin) as (_ & rd & Hrd & Hd).
    rewrite Hrd in Hstill. simpl in Hstill. congruence.
  - split; [vm_compute; reflexivity|].
    split; vm_compute; reflexivity.
Qed.

(** C4 at a reachable state.  The generator of [crowded] has eight
    dependents, as many as its array holds.  Connecting a ninth automaton
    when [realloc] fails returns -1 with [ENOMEM]; the dependents list is
    as before, but the target's slot, empty before the call, now names the
    generator. *)
Theorem ma_connect_enomem_keeps_written_slots :
  (ma_connect false crowded (Some 10%positive) 0 (Some 1%positive) 0 1).2
  = Err ENOMEM /\
  (connected_to_me <$> crowded !! 1%positive)
  = Some [2; 3; 4; 5; 6; 7; 8; 9]%positive /\
  (connected_to_me
     <$> (ma_connect false crowded (Some 10%positive) 0 (Some 1%positive) 0 1).1
         !! 1%positive)
  = Some [2; 3; 4; 5; 6; 7; 8; 9]%positive /\
  ((fun r => slot_source r 0) <$> crowded !! 10%positive) = Some None /\
  ((fun r => slot_source r 0)
     <$> (ma_connect false crowded (Some 10%positive) 0 (Some 1%positive) 0 1).1
         !! 10%positive)
  = Some (Some 1%positive).
Proof. repeat split; vm_compute; reflexivity. Qed.

(** ** The example network satisfies the standing assumptions *)

Section Network.

Lemma identity_func_pure (w : Z) (o o' st : list Z) :
  0 < w <= SIZE_MAX - 63 ->
  Z.of_nat (length o) = (w + 63) / 64 ->
  Z.of_nat (length o') = (w + 63) / 64 ->
  identity_func o st w w = identity_func o' st w w.
Proof.
  intros Hw Ho Ho'. unfold identity_func.
  rewrite wrap64_small by lia.
  assert (memcpy o st ((w + 63) / 64) = memcpy o' st ((w + 63) / 64)) as Hcp.
  { unfold memcpy. by rewrite !drop_ge by lia. }
  rewrite Z.eqb_refl. destruct (Z.ltb_spec 0 w); [|lia]. simpl.
  by rewrite Hcp.
Qed.

Lemma net_sized : sized_heap net.
Proof.
  unfold sized_heap, net.
  apply map_Forall_insert_2; [reflexivity|].
  apply map_Forall_insert_2; [reflexivity|].
  apply map_Forall_empty.
Qed.

Lemma net_scratch_sized : sized_heap net_scratch.
Proof.
  unfold sized_heap, net_scratch.
  apply map_Forall_insert_2; [reflexivity|].
  apply map_Forall_insert_2; [reflexivity|].
  apply map_Forall_empty.
Qed.

Lemma pulse_pure : pure_record pulse.
Proof. split; intros; reflexivity. Qed.

Lemma counter_pure : pure_record counter.
Proof.
  split; [intros; reflexivity|].
  intros o o' st Ho Ho'. apply identity_func_pure; [done|done|done].
Qed.

Lemma net_pure : pure_functions net.
Proof.
  change (map_Forall (fun _ r => pure_record r) net). unfold net.
  apply map_Forall_insert_2; [apply counter_pure|].
  apply map_Forall_insert_2; [apply pulse_pure|].
  apply map_Forall_empty.
Qed.

Lemma net_outputs_current : outputs_current net.
Proof.
  change (map_Forall
            (fun _ r => output r = y r (output r) (state r) (m r) (s r)) net).
  unfold net.
  apply map_Forall_insert_2; [reflexivity|].
  apply map_Forall_insert_2; [reflexivity|].
  apply map_Forall_empty.
Qed.

Lemma net_scratch_outputs_current : outputs_current net_scratch.
Proof.
  change (map_Forall
            (fun _ r => output r = y r (output r) (state r) (m r) (s r))
            net_scratch).
  unfold net_scratch.
  apply map_Forall_insert_2; [reflexivity|].
  apply map_Forall_insert_2; [reflexivity|].
  apply map_Forall_empty.
Qed.

Lemma net_same_inputs : same_inputs net net_scratch.
Proof.
  intros a. unfold net, net_scratch.
  destruct (decide (a = 2%positive)) as [->|];
    [by rewrite !lookup_insert_eq|].
  rewrite !(lookup_insert_ne _ 2%positive) by done.
  destruct (decide (a = 1%positive)) as [->|];
    [by rewrite !lookup_insert_eq|].
  by rewrite !(lookup_insert_ne _ 1%positive) by done.
Qed.

End Network.

(** ** The statements at the example network *)

(** An automaton named twice in the array has its state buffers swapped
    twice, and ends the step in the state it began with; named once, it
    advances.  Lists are compared with multiplicity for that reason. *)
Lemma ma_step_element_named_twice :
  state <$> heap_after (ma_step net (Some [Some 1; Some 1]%positive))
            !! 1%positive = Some [3] /\
  state <$> heap_after (ma_step net (Some [Some 1%positive]))
            !! 1%positive = Some [0].
Proof. split; vm_compute; reflexivity. Qed.

(** C1 at the example: the generator's output is 1 before the step and 0
    after it; the counter's transition function is handed input bit 1. *)
Lemma ma_step_reads_pre_step_outputs_witness :
  result (ma_step net (Some (Some <$> [1; 2]%positive))) = Ok tt /\
  (exists input_ state_,
     CallT 2%positive input_ state_
     ∈ calls (ma_step net (Some (Some <$> [1; 2]%positive)))) /\
  (forall input_ state_,
     CallT 2%positive input_ state_
     ∈ calls (ma_step net (Some (Some <$> [1; 2]%positive))) ->
     exists fi, input_ = Some fi /\
       get_bit fi 0 = get_bit (output pulse) (source_output_index counter_slot)).
Proof.
  apply (ma_step_reads_pre_step_outputs net [1; 2]%positive 2%positive
           1%positive counter pulse [counter_slot] counter_slot 0).
  - exact net_sized.
  - discriminate.
  - intros a Ha. apply elem_of_cons in Ha as [->|Ha]; [reflexivity|].
    apply list_elem_of_singleton in Ha as ->. reflexivity.
  - right. left.
  - reflexivity.
  - simpl. lia.
  - reflexivity.
  - reflexivity.
  - reflexivity.
  - reflexivity.
  - reflexivity.
  - simpl. lia.
Defined.

(** C2 at the example: resolving the counter's input. *)
Lemma update_final_input_resolves_witness :
  exists fi',
    update_final_input net (Some 2%positive)
    = <[2%positive := set_final_input (Some fi') counter]> net /\
    Z.of_nat (length fi') = (n counter + 63) / 64 /\
    (forall i, 0 <= i < n counter ->
       get_bit fi' i = spec_input_bit net counter i) /\
    (forall j, n counter <= j -> get_bit fi' j = false).
Proof.
  apply (update_final_input_resolves net 2%positive counter).
  - exact net_sized.
  - reflexivity.
  - simpl. lia.
Defined.

(** C5 at examples: words above the width are stored as given by
    construction and by [ma_set_state]; the identity output clears them. *)
Lemma state_writes_are_verbatim_witness :
  (exists r,
     (ma_create_full ∅ (Some 1%positive) true 0 1 2
        (Some pulse_generator) (Some pulse_output) (Some [255])).1
       !! 1%positive = Some r /\
     state r = take (Z.to_nat ((2 + 63) / 64)) [255] /\
     output r = pulse_output (zeros ((1 + 63) / 64)) (state r) 1 2) /\
  (exists r',
     ma_set_state net (Some 2%positive) (Some [31])
     = (<[2%positive := r']> net, Ok tt) /\
     state r' = take (Z.to_nat ((s counter + 63) / 64)) [31] /\
     output r' = y counter (output counter) (state r') (m counter) (s counter)) /\
  unused_high_bits_zero 4 (identity_func [0] [31] 4 4) = true.
Proof.
  destruct state_writes_are_verbatim as (Hcreate & Hset & Hid).
  split; [|split].
  - apply (Hcreate ∅ (Some 1%positive) true 0 1 2
             pulse_generator pulse_output [255] _ 1%positive).
    + lia.
    + lia.
    + reflexivity.
  - apply (Hset net 2%positive counter [31]).
    + reflexivity.
    + simpl. unfold SIZE_MAX. lia.
    + reflexivity.
  - apply (Hid [0] [31] 4).
    + unfold SIZE_MAX. lia.
    + reflexivity.
    + vm_compute. discriminate.
Defined.

(** C6 at the example: the generator, constructed in state 3. *)
Lemma ma_create_full_output_witness :
  exists r,
    (ma_create_full ∅ (Some 1%positive) true 0 1 2
       (Some pulse_generator) (Some pulse_output) (Some [3])).1
      !! 1%positive = Some r /\
    magic r = MOORE_MAGIC /\
    state r = take (Z.to_nat ((2 + 63) / 64)) [3] /\
    ma_get_output
      (ma_create_full ∅ (Some 1%positive) true 0 1 2
         (Some pulse_generator) (Some pulse_output) (Some [3])).1
      (Some 1%positive)
    = Ok (pulse_output (zeros ((1 + 63) / 64)) (state r) 1 2).
Proof.
  apply (ma_create_full_output ∅ (Some 1%positive) true 0 1 2
           pulse_generator pulse_output [3] _ 1%positive).
  - lia.
  - lia.
  - reflexivity.
Defined.


(** C8 at the example: the two orders of the list, on heaps that differ in
    their scratch buffers. *)
Lemma ma_step_deterministic_witness :
  result (ma_step net (Some [Some 1; Some 2]%positive))
  = result (ma_step net_scratch (Some [Some 2; Some 1]%positive)) /\
  same_inputs (heap_after (ma_step net (Some [Some 1; Some 2]%positive)))
              (heap_after (ma_step net_scratch (Some [Some 2; Some 1]%positive))) /\
  (forall a,
     state <$> heap_after (ma_step net (Some [Some 1; Some 2]%positive)) !! a
     = state
         <$> heap_after (ma_step net_scratch (Some [Some 2; Some 1]%positive))
             !! a) /\
  (forall a,
     output <$> heap_after (ma_step net (Some [Some 1; Some 2]%positive)) !! a
     = output
         <$> heap_after (ma_step net_scratch (Some [Some 2; Some 1]%positive))
             !! a).
Proof.
  apply (ma_step_deterministic net net_scratch
           [Some 1; Some 2]%positive [Some 2; Some 1]%positive).
  - apply perm_swap.
  - exact net_same_inputs.
  - exact net_sized.
  - exact net_scratch_sized.
  - exact net_pure.
  - exact net_outputs_current.
  - exact net_scratch_outputs_current.
Defined.

(** C9 at the example: a manual input for the counter. *)
Lemma ma_set_input_frame_witness :
  exists mi,
    manual_input counter = Some mi /\
    ma_set_input net (Some 2%positive) (Some [1])
    = (<[2%positive := set_manual_input
                (Some (take (Z.to_nat ((n counter + 63) / 64)) [1]
                       ++ drop (Z.to_nat ((n counter + 63) / 64)) mi))
                counter]> net,
       Ok tt) /\
    (forall b, b <> 2%positive ->
       (ma_set_input net (Some 2%positive) (Some [1])).1 !! b = net !! b) /\
    (exists r',
       (ma_set_input net (Some 2%positive) (Some [1])).1 !! 2%positive
       = Some r' /\
       state r' = state counter /\ next_state r' = next_state counter /\
       output r' = output counter /\ final_input r' = final_input counter /\
       incoming_connections r' = incoming_connections counter /\
       connected_to_me r' = connected_to_me counter /\
       magic r' = magic counter).
Proof.
  apply (ma_set_input_frame net 2%positive counter [1]).
  - reflexivity.
  - reflexivity.
  - reflexivity.
  - simpl. lia.
Defined.

(** C10 at the example: the counter, then [NULL], then the generator. *)
Lemma ma_step_null_element_witness :
  heap_after
    (ma_step net (Some ((Some <$> [2%positive]) ++ None :: [Some 1%positive])))
    !! 2%positive
  = (fun r => set_final_input (final_input_of net r) r) <$> net !! 2%positive.
Proof.
  destruct (ma_step_null_element net [2%positive] [Some 1%positive])
    as (_ & _ & _ & _ & _ & Hrecomputed).
  apply Hrecomputed.
  - exact net_sized.
  - left.
Defined.

(** ** What a step computes, and what it leaves alone *)

Section StepEffect.

Lemma occurrences_NoDup a la :
  NoDup la -> a ∈ la -> occurrences a (Some <$> la) = 1%nat.
Proof.
  induction 1 as [|b la Hb Hnd IH]; intros Ha; [by apply elem_of_nil in Ha|].
  rewrite fmap_cons, occurrences_cons.
  apply elem_of_cons in Ha as [->|Ha].
  - rewrite bool_decide_true by done.
    destruct (occurrences b (Some <$> la)) eqn:Hk; [done|].
    exfalso. apply Hb, occurrences_fmap_Some. lia.
  - rewrite bool_decide_false, IH by (done || congruence). done.
Qed.

Lemma occurrences_notin a la :
  a ∉ la -> occurrences a (Some <$> la) = 0%nat.
Proof.
  intros Ha. destruct (occurrences a (Some <$> la)) eqn:Hk; [done|].
  exfalso. apply Ha, occurrences_fmap_Some. lia.
Qed.

Lemma ma_step_all_lookup_raw h la a :
  la <> [] ->
  heap_after (ma_step h (Some (Some <$> la))) !! a
  = (fun r =>
       Nat.iter (occurrences a (Some <$> la)) commit_of
         (Nat.iter (occurrences a (Some <$> la)) transition_of r))
      <$> resolve_all h la !! a.
Proof.
  intros Hne. rewrite ma_step_all by done. simpl.
  rewrite foldl_step_commit_fst, foldl_apply_at_lookup.
  rewrite foldl_step_transition_fst, foldl_apply_at_lookup. simpl.
  by destruct (resolve_all h la !! a).
Qed.

Lemma same_visible_topology h h' a :
  same_visible h h' -> topology <$> h !! a = topology <$> h' !! a.
Proof.
  intros H. specialize (H a).
  destruct (h !! a) as [r|], (h' !! a) as [r'|]; try done.
  assert (erase_final r = erase_final r') as E by (simpl in H; congruence).
  simpl. f_equal. exact (f_equal topology E).
Qed.

End StepEffect.

(** X1. A step never touches what the caller wired: whatever the array
    holds ([NULL] elements, repeated elements, nothing at all), every block
    keeps its widths, its two functions, its liveness tag, its manual
    input, its incoming connections and its dependents. *)
Theorem ma_step_keeps_topology (h : heap) (at_ : option (list ptr)) (a : addr) :
  topology <$> heap_after (ma_step h at_) !! a = topology <$> h !! a.
Proof.
  destruct at_ as [l|]; [|done].
  destruct (list_ptr_split l) as [(la & ->)|(la & l2 & ->)].
  - destruct (decide (la = [])) as [->|Hne]; [done|].
    rewrite ma_step_all_lookup_raw by done.
    rewrite (same_visible_topology h (resolve_all h la))
      by apply resolve_all_visible.
    destruct (resolve_all h la !! a) as [r|]; [|done]. simpl. f_equal.
    rewrite (iter_preserves commit_of topology) by done.
    by rewrite (iter_preserves transition_of topology).
  - rewrite ma_step_null. simpl. symmetry.
    apply same_visible_topology, resolve_all_visible.
Qed.

(** X2. One step of an automaton named once in the array: its new state
    is what the transition function writes when handed the final input
    resolved from the heap before the step and the old state; the old
    state moves to the spare buffer; the new output is the output function
    on the new state.  Blocks not named in the array are not touched at
    all. *)
Theorem ma_step_advances (h : heap) (la : list addr) (a : addr) (r : moore) :
  sized_heap h -> NoDup la -> a ∈ la -> h !! a = Some r ->
  (exists r',
     heap_after (ma_step h (Some (Some <$> la))) !! a = Some r' /\
     final_input r' = final_input_of h r /\
     state r'
     = t r (next_state r) (final_input_of h r) (state r) (n r) (s r) /\
     next_state r' = state r /\
     output r' = y r (output r) (state r') (m r) (s r)) /\
  (forall b, b ∉ la ->
     heap_after (ma_step h (Some (Some <$> la))) !! b = h !! b).
Proof.
  intros Hh Hnd Ha Hr.
  assert (la <> []) as Hne by (intros ->; by apply elem_of_nil in Ha).
  split.
  - rewrite ma_step_all_lookup, Hr, (occurrences_NoDup a la) by done.
    unfold resolved_if. rewrite bool_decide_true by done.
    eexists. split; [done|]. repeat split.
  - intros b Hb.
    rewrite ma_step_all_lookup, (occurrences_notin b la) by done.
    unfold resolved_if. rewrite bool_decide_false by done.
    by destruct (h !! b).
Qed.

(** ** Connecting (section 4.2), beyond the failure paths *)

Section ConnectEffect.

Lemma connect_slots_length ic in_ ao out num :
  length (connect_slots ic in_ ao out num) = length ic.
Proof.
  unfold connect_slots. generalize (seq 0 (Z.to_nat num)). intros l.
  revert ic. induction l as [|i l IH]; intros ic; [done|].
  simpl. by rewrite IH, length_insert.
Qed.

Lemma connect_slots_lookup_nat ic in_ ao out (k j : nat) :
  0 <= in_ -> 0 <= out ->
  in_ + Z.of_nat k <= SIZE_MAX -> out + Z.of_nat k <= SIZE_MAX ->
  foldl (fun ic i =>
           <[Z.to_nat (wrap64 (in_ + Z.of_nat i)) :=
               {| source_automaton := Some ao;
                  source_output_index := wrap64 (out + Z.of_nat i) |}]> ic)
        ic (seq 0 k) !! j
  = if bool_decide (in_ <= Z.of_nat j < in_ + Z.of_nat k
                    /\ (j < length ic)%nat)
    then Some {| source_automaton := Some ao;
                 source_output_index := out + (Z.of_nat j - in_) |}
    else ic !! j.
Proof.
  intros Hin Hout. induction k as [|k IH]; intros Hi Ho.
  - simpl. rewrite bool_decide_false; [done | lia].
  - rewrite seq_S, foldl_snoc, Nat.add_0_l.
    rewrite !wrap64_small by lia.
    specialize (IH ltac:(lia) ltac:(lia)).
    set (cur := foldl _ ic (seq 0 k)) in *.
    assert (length cur = length ic) as Hlen.
    { unfold cur. generalize (seq 0 k). intros l. clear.
      revert ic. induction l as [|i l IHl]; intros ic; [done|].
      simpl. by rewrite IHl, length_insert. }
    destruct (decide (j = Z.to_nat (in_ + Z.of_nat k))) as [->|Hne].
    + destruct (decide (Z.to_nat (in_ + Z.of_nat k) < length ic)%nat).
      * rewrite list_lookup_insert_eq by lia.
        rewrite bool_decide_true by lia. do 2 f_equal. lia.
      * rewrite list_insert_ge by lia. rewrite IH.
        rewrite !bool_decide_false by lia. done.
    + rewrite list_lookup_insert_ne by done. rewrite IH.
      apply (f_equal (fun b : bool => if b then _ else _)).
      apply bool_decide_ext. lia.
Qed.

(** The loop writes slot [in + i] for every [i < num] and no other. *)
Lemma connect_slots_lookup ic in_ ao out num (j : nat) :
  0 <= in_ -> 0 <= out -> 0 <= num ->
  in_ + num <= SIZE_MAX -> out + num <= SIZE_MAX ->
  connect_slots ic in_ ao out num !! j
  = if bool_decide (in_ <= Z.of_nat j < in_ + num /\ (j < length ic)%nat)
    then Some {| source_automaton := Some ao;
                 source_output_index := out + (Z.of_nat j - in_) |}
    else ic !! j.
Proof.
  intros Hin Hout Hnum Hi Ho. unfold connect_slots.
  rewrite connect_slots_lookup_nat by lia.
  apply (f_equal (fun b : bool => if b then _ else _)).
  apply bool_decide_ext. lia.
Qed.

Lemma connect_slots_idem ic in_ ao out num :
  0 <= in_ -> 0 <= out -> 0 <= num ->
  in_ + num <= SIZE_MAX -> out + num <= SIZE_MAX ->
  connect_slots (connect_slots ic in_ ao out num) in_ ao out num
  = connect_slots ic in_ ao out num.
Proof.
  intros. apply list_eq. intros j.
  rewrite !connect_slots_lookup, connect_slots_length by done.
  by case_bool_decide.
Qed.

Lemma set_incoming_connections_id r :
  set_incoming_connections (incoming_connections r) r = r.
Proof. by destruct r. Qed.

Lemma set_connected_to_me_id r :
  set_connected_to_me (connected_to_me r) (connected_to_me_capacity r) r = r.
Proof. by destruct r. Qed.

(** With arguments in range the call writes the slots and goes on to
    register the target. *)
Lemma ma_connect_accepted ok h ai ao ri ro in_ out num :
  h !! ai = Some ri -> h !! ao = Some ro ->
  0 <= in_ -> 0 <= out -> 1 <= num ->
  in_ + num <= n ri -> out + num <= m ro ->
  n ri <= SIZE_MAX -> m ro <= SIZE_MAX ->
  ma_connect ok h (Some ai) in_ (Some ao) out num
  = append_to_connected_list ok
      (<[ai := set_incoming_connections
                 ((fun ic => connect_slots ic in_ ao out num)
                    <$> incoming_connections ri) ri]> h) ao ai.
Proof.
  intros Hi Ho Hin Hout Hnum Hn Hm Hnmax Hmmax. unfold ma_connect.
  rewrite Hi, Ho.
  destruct (Z.eqb_spec num 0); [lia|].
  rewrite !wrap64_small by lia.
  destruct (Z.geb_spec in_ (n ri)); [lia|].
  destruct (Z.geb_spec out (m ro)); [lia|].
  destruct (Z.gtb_spec num (n ri - in_)); [lia|].
  destruct (Z.gtb_spec num (m ro - out)); [lia|]. done.
Qed.

(** A successful registration: the list keeps its entries, holds the
    target, and gains no duplicate. *)
Lemma append_to_connected_list_ok ok h ao ai rx h' :
  h !! ao = Some rx ->
  append_to_connected_list ok h ao ai = (h', Ok tt) ->
  exists l cap,
    h' = <[ao := set_connected_to_me l cap rx]> h /\
    ai ∈ l /\
    (forall d, d ∈ connected_to_me rx -> d ∈ l) /\
    (forall d, d ∈ l -> d = ai \/ d ∈ connected_to_me rx) /\
    (NoDup (connected_to_me rx) -> NoDup l).
Proof.
  intros Hx. unfold append_to_connected_list. rewrite Hx.
  case_bool_decide as Hin.
  - intros [= <-]. exists (connected_to_me rx), (connected_to_me_capacity rx).
    rewrite set_connected_to_me_id, insert_id by done. naive_solver.
  - assert (forall cap,
              <[ao:=set_connected_to_me (connected_to_me rx ++ [ai]) cap rx]> h
              = h' ->
              exists l cap,
                h' = <[ao := set_connected_to_me l cap rx]> h /\
                ai ∈ l /\
                (forall d, d ∈ connected_to_me rx -> d ∈ l) /\
                (forall d, d ∈ l -> d = ai \/ d ∈ connected_to_me rx) /\
                (NoDup (connected_to_me rx) -> NoDup l)) as Hgrow.
    { intros cap <-. exists (connected_to_me rx ++ [ai]), cap.
      split; [done|]. split; [apply elem_of_app; right; by left|].
      split; [intros d Hd; apply elem_of_app; by left|].
      split.
      - intros d Hd. apply elem_of_app in Hd as [Hd|Hd]; [by right|].
        apply list_elem_of_singleton in Hd. by left.
      - intros Hnd. apply NoDup_app. split; [done|].
        split; [|apply NoDup_singleton].
        intros d Hd Hd'. apply list_elem_of_singleton in Hd' as ->. done. }
    destruct (_ =? _).
    + destruct ok; [|done]. intros [= Hh]. by eapply Hgrow.
    + intros [= Hh]. by eapply Hgrow.
Qed.

End ConnectEffect.

(** X3. The range check of [ma_connect] cannot be fooled by overflow: for
    two automata and [size_t] arguments the call is rejected with [EINVAL]
    exactly when [num = 0], or the input range [in .. in+num) does not fit
    the target's [n] inputs, or the output range [out .. out+num) does not
    fit the source's [m] outputs, the sums taken in the integers. *)
Theorem ma_connect_range_check ok (h : heap) (ai ao : addr) (ri ro : moore)
    (in_ out num : Z) :
  h !! ai = Some ri -> h !! ao = Some ro ->
  0 <= n ri <= SIZE_MAX -> 0 <= m ro <= SIZE_MAX ->
  0 <= in_ <= SIZE_MAX -> 0 <= out <= SIZE_MAX -> 0 <= num <= SIZE_MAX ->
  (ma_connect ok h (Some ai) in_ (Some ao) out num).2 = Err EINVAL
  <-> num = 0 \/ n ri < in_ + num \/ m ro < out + num.
Proof.
  intros Hi Ho Hn Hm Hin Hout Hnum. split.
  - intros Hst.
    destruct (decide (num = 0)) as [|Hn0]; [by left|]. right.
    destruct (decide (n ri < in_ + num)) as [|Hin']; [by left|]. right.
    destruct (decide (m ro < out + num)) as [|Hout']; [done|]. exfalso.
    rewrite (ma_connect_accepted ok h ai ao ri ro) in Hst by (done || lia).
    destruct (append_to_connected_list_status ok
                (<[ai:=set_incoming_connections
                         ((fun ic => connect_slots ic in_ ao out num)
                            <$> incoming_connections ri) ri]> h) ao ai)
      as [H|H]; rewrite H in Hst; done.
  - intros Hbad. unfold ma_connect. rewrite Hi, Ho.
    destruct (Z.eqb_spec num 0); [done|].
    destruct (Z.geb_spec in_ (n ri)); [done|].
    destruct (Z.geb_spec out (m ro)); [done|].
    rewrite !wrap64_small by lia.
    destruct (Z.gtb_spec num (n ri - in_)); [done|].
    destruct (Z.gtb_spec num (m ro - out)); [done|]. lia.
Qed.

(** X4. What a successful [ma_connect] leaves behind: slot [in + i] of the
    target names the source and output [out + i] for every [i < num], every
    other slot is as before; the target is in the source's dependents,
    which keep all their entries and gain no duplicate; no state, output
    or input buffer of any block changes, and blocks other than the two
    are untouched. *)
Theorem ma_connect_wires ok (h h' : heap) (ai ao : addr) (ri ro : moore)
    (ic : list input_connection_info) (in_ out num : Z) :
  h !! ai = Some ri -> h !! ao = Some ro ->
  incoming_connections ri = Some ic -> Z.of_nat (length ic) = n ri ->
  0 <= in_ -> 0 <= out -> 1 <= num ->
  in_ + num <= n ri -> out + num <= m ro ->
  n ri <= SIZE_MAX -> m ro <= SIZE_MAX ->
  ma_connect ok h (Some ai) in_ (Some ao) out num = (h', Ok tt) ->
  (exists ri' ic',
     h' !! ai = Some ri' /\ incoming_connections ri' = Some ic' /\
     length ic' = length ic /\
     (forall i, 0 <= i < num ->
        ic' !! Z.to_nat (in_ + i)
        = Some {| source_automaton := Some ao;
                  source_output_index := out + i |}) /\
     (forall j : nat, ~ (in_ <= Z.of_nat j < in_ + num) -> ic' !! j = ic !! j)) /\
  (exists ro',
     h' !! ao = Some ro' /\ ai ∈ connected_to_me ro' /\
     (forall d, d ∈ connected_to_me ro -> d ∈ connected_to_me ro') /\
     (forall d, d ∈ connected_to_me ro' -> d = ai \/ d ∈ connected_to_me ro) /\
     (NoDup (connected_to_me ro) -> NoDup (connected_to_me ro'))) /\
  (forall b, signals <$> h' !! b = signals <$> h !! b) /\
  (forall b, b <> ai -> b <> ao -> h' !! b = h !! b).
Proof.
  intros Hi Ho Hic Hlen Hin Hout Hnum Hn Hm Hnmax Hmmax.
  rewrite (ma_connect_accepted ok h ai ao ri ro) by done.
  rewrite Hic. simpl.
  set (ic' := connect_slots ic in_ ao out num).
  set (ri1 := set_incoming_connections (Some ic') ri).
  set (h1 := <[ai := ri1]> h).
  assert (exists rx, h1 !! ao = Some rx /\
            connected_to_me rx = connected_to_me ro /\
            signals rx = signals ro /\
            (ai = ao -> incoming_connections rx = Some ic')) as
    (rx & Hrx & Hlist & Hsig & Hself).
  { unfold h1. destruct (decide (ai = ao)) as [->|Hne].
    - rewrite lookup_insert_eq. exists ri1.
      assert (ri = ro) as -> by congruence. done.
    - rewrite lookup_insert_ne by done. exists ro. done. }
  intros Happ.
  destruct (append_to_connected_list_ok ok h1 ao ai rx h' Hrx Happ)
    as (l & cap & -> & Hai & Hkeep & Honly & Hnd).
  assert (forall j : nat,
            ic' !! j
            = if bool_decide (in_ <= Z.of_nat j < in_ + num
                              /\ (j < length ic)%nat)
              then Some {| source_automaton := Some ao;
                           source_output_index := out + (Z.of_nat j - in_) |}
              else ic !! j) as Hlook
    by (intros j; apply connect_slots_lookup; lia).
  split; [|split; [|split]].
  - assert (exists ri',
              <[ao:=set_connected_to_me l cap rx]> h1 !! ai = Some ri'
              /\ incoming_connections ri' = Some ic') as (ri' & Hri' & Hic').
    { destruct (decide (ai = ao)) as [->|Hne].
      - rewrite lookup_insert_eq. eexists. split; [done|]. simpl. auto.
      - rewrite lookup_insert_ne by done. unfold h1.
        rewrite lookup_insert_eq. by exists ri1. }
    exists ri', ic'. split; [done|]. split; [done|].
    split; [apply connect_slots_length|]. split.
    + intros i Hi'. rewrite Hlook, bool_decide_true by lia.
      do 2 f_equal. lia.
    + intros j Hj. rewrite Hlook, bool_decide_false; [done | lia].
  - exists (set_connected_to_me l cap rx).
    rewrite lookup_insert_eq. simpl. rewrite <- Hlist. done.
  - intros b. destruct (decide (b = ao)) as [->|Hbo].
    + rewrite lookup_insert_eq, Ho. simpl. f_equal.
      transitivity (signals rx); [done | exact Hsig].
    + rewrite lookup_insert_ne by done. unfold h1.
      destruct (decide (b = ai)) as [->|Hbi].
      * by rewrite lookup_insert_eq, Hi.
      * by rewrite lookup_insert_ne.
  - intros b Hbi Hbo. rewrite lookup_insert_ne by done.
    unfold h1. by rewrite lookup_insert_ne.
Qed.

(** X5. Connecting the same range to the same outputs a second time is a
    no-op: the call succeeds, whether or not memory could be had, and the
    heap, dependents lists included, is exactly what the first call left. *)
Theorem ma_connect_idempotent ok ok' (h h' : heap) (ai ao : addr)
    (ri ro : moore) (ic : list input_connection_info) (in_ out num : Z) :
  h !! ai = Some ri -> h !! ao = Some ro ->
  incoming_connections ri = Some ic ->
  0 <= in_ -> 0 <= out -> 1 <= num ->
  in_ + num <= n ri -> out + num <= m ro ->
  n ri <= SIZE_MAX -> m ro <= SIZE_MAX ->
  ma_connect ok h (Some ai) in_ (Some ao) out num = (h', Ok tt) ->
  ma_connect ok' h' (Some ai) in_ (Some ao) out num = (h', Ok tt).
Proof.
  intros Hi Ho Hic Hin Hout Hnum Hn Hm Hnmax Hmmax Happ.
  rewrite (ma_connect_accepted ok h ai ao ri ro) in Happ by done.
  rewrite Hic in Happ. simpl in Happ.
  set (ic' := connect_slots ic in_ ao out num) in *.
  set (ri1 := set_incoming_connections (Some ic') ri) in *.
  set (h1 := <[ai := ri1]> h) in *.
  assert (exists rx, h1 !! ao = Some rx /\ m rx = m ro /\
            (ai = ao -> incoming_connections rx = Some ic' /\ n rx = n ri))
    as (rx & Hrx & Hmx & Hself).
  { unfold h1. destruct (decide (ai = ao)) as [->|Hne].
    - rewrite lookup_insert_eq. exists ri1.
      assert (ri = ro) as -> by congruence. done.
    - rewrite lookup_insert_ne by done. by exists ro. }
  destruct (append_to_connected_list_ok ok h1 ao ai rx h' Hrx Happ)
    as (l & cap & -> & Hai & _).
  set (rx' := set_connected_to_me l cap rx).
  set (h2 := <[ao := rx']> h1).
  assert (h2 !! ao = Some rx') as Ho2 by apply lookup_insert_eq.
  assert (exists ri2, h2 !! ai = Some ri2 /\
            incoming_connections ri2 = Some ic' /\ n ri2 = n ri)
    as (ri2 & Hi2 & Hic2 & Hn2).
  { unfold h2. destruct (decide (ai = ao)) as [->|Hne].
    - rewrite lookup_insert_eq. exists rx'. split; [done|]. by apply Hself.
    - rewrite lookup_insert_ne by done. unfold h1.
      rewrite lookup_insert_eq. by exists ri1. }
  rewrite (ma_connect_accepted ok' h2 ai ao ri2 rx')
    by (done || simpl; lia).
  rewrite Hic2. simpl. unfold ic'.
  rewrite connect_slots_idem by lia. fold ic'.
  rewrite <- Hic2, set_incoming_connections_id, insert_id by done.
  unfold append_to_connected_list. rewrite Ho2.
  by rewrite bool_decide_true.
Qed.

(** ** Disconnecting (section 4.2) *)

Section DisconnectEffect.

(** The first loop of [ma_disconnect] after [k] rounds: the slots
    [in .. in+k) are empty, the others are as before, and the sources
    collected are those the cleared slots named, each once. *)
Lemma disconnect_rounds_spec ic in_ (k : nat) :
  0 <= in_ -> in_ + Z.of_nat k <= SIZE_MAX ->
  forall ic' srcs,
    foldl (fun '(ic, sources) i =>
             let k := Z.to_nat (wrap64 (in_ + Z.of_nat i)) in
             let sources' :=
               match default None (source_automaton <$> ic !! k) with
               | Some src => if bool_decide (src ∈ sources) then sources
                             else sources ++ [src]
               | None => sources
               end in
             (<[k := {| source_automaton := None;
                        source_output_index := 0 |}]> ic,
              sources'))
          (ic, []) (seq 0 k) = (ic', srcs) ->
    length ic' = length ic /\
    (forall j : nat,
       ic' !! j
       = if bool_decide (in_ <= Z.of_nat j < in_ + Z.of_nat k
                         /\ (j < length ic)%nat)
         then Some empty_slot else ic !! j) /\
    (forall x, x ∈ srcs <->
       exists (j : nat) c,
         in_ <= Z.of_nat j < in_ + Z.of_nat k /\
         ic !! j = Some c /\ source_automaton c = Some x) /\
    NoDup srcs.
Proof.
  intros Hin. induction k as [|k IH]; intros Hk ic' srcs.
  - simpl. intros [= <- <-]. split; [done|]. split.
    + intros j. rewrite bool_decide_false; [done | lia].
    + split; [|apply NoDup_nil_2]. intros x. split.
      * by intros ?%elem_of_nil.
      * intros (j & c & ? & _). lia.
  - rewrite seq_S, foldl_snoc, Nat.add_0_l.
    destruct (foldl _ (ic, []) (seq 0 k)) as [ic1 srcs1] eqn:Hfold.
    destruct (IH ltac:(lia) ic1 srcs1 eq_refl) as (Hlen & Hlook & Hsrc & Hnd).
    rewrite wrap64_small by lia.
    intros [= <- <-].
    set (p := Z.to_nat (in_ + Z.of_nat k)).
    assert (ic1 !! p = ic !! p) as Hp.
    { rewrite Hlook, bool_decide_false; [done | lia]. }
    split; [by rewrite length_insert|]. split; [|split].
    + intros j. destruct (decide (j = p)) as [->|Hne].
      * destruct (decide (p < length ic)%nat).
        -- rewrite list_lookup_insert_eq by lia.
           rewrite bool_decide_true; [done | lia].
        -- rewrite list_insert_ge by lia. rewrite Hlook.
           rewrite !bool_decide_false by lia. done.
      * rewrite list_lookup_insert_ne by done. rewrite Hlook.
        apply (f_equal (fun b : bool => if b then _ else _)).
        apply bool_decide_ext. lia.
    + intros x. rewrite Hp.
      assert (x ∈ srcs1 \/
              (exists c, ic !! p = Some c /\ source_automaton c = Some x)
              <-> exists (j : nat) c,
                    in_ <= Z.of_nat j < in_ + Z.of_nat (S k) /\
                    ic !! j = Some c /\ source_automaton c = Some x) as <-.
      { rewrite Hsrc. split.
        - intros [(j & c & Hj & Hc)|(c & Hc)].
          + exists j, c. split; [lia | done].
          + exists p, c. split; [lia | done].
        - intros (j & c & Hj & Hc).
          destruct (decide (j = p)) as [->|Hne].
          + right. by exists c.
          + left. exists j, c. split; [lia | done]. }
      destruct (ic !! p) as [c|] eqn:Hc; simpl.
      * destruct (source_automaton c) as [src|] eqn:Hs.
        -- case_bool_decide as Hmem.
           ++ split; [by left|]. intros [?|(c' & [= <-] & Hx)]; [done|].
              congruence.
           ++ rewrite elem_of_app, list_elem_of_singleton. split.
              ** intros [?| ->]; [by left|]. right. by exists c.
              ** intros [?|(c' & [= <-] & Hx)]; [by left|]. right. congruence.
        -- split; [by left|]. intros [?|(c' & [= <-] & Hx)]; [done|].
           congruence.
      * split; [by left|]. intros [?|(c' & ? & _)]; done.
    + rewrite Hp. destruct (ic !! p) as [c|]; simpl; [|done].
      destruct (source_automaton c) as [src|]; [|done].
      case_bool_decide; [done|].
      apply NoDup_app. split; [done|]. split; [|apply NoDup_singleton].
      intros y Hy Hy'. apply list_elem_of_singleton in Hy' as ->. done.
Qed.

Lemma disconnect_slots_spec ic in_ num ic' srcs :
  0 <= in_ -> 0 <= num -> in_ + num <= SIZE_MAX ->
  disconnect_slots ic in_ num = (ic', srcs) ->
  length ic' = length ic /\
  (forall j : nat,
     ic' !! j
     = if bool_decide (in_ <= Z.of_nat j < in_ + num /\ (j < length ic)%nat)
       then Some empty_slot else ic !! j) /\
  (forall x, x ∈ srcs <->
     exists (j : nat) c,
       in_ <= Z.of_nat j < in_ + num /\
       ic !! j = Some c /\ source_automaton c = Some x) /\
  NoDup srcs.
Proof.
  intros Hin Hnum Hmax Hd. unfold disconnect_slots in Hd.
  destruct (disconnect_rounds_spec ic in_ (Z.to_nat num) Hin ltac:(lia)
              ic' srcs Hd) as (Hlen & Hlook & Hsrc & Hnd).
  rewrite Z2Nat.id in Hlook, Hsrc by done. done.
Qed.

Lemma ma_disconnect_accepted h ai ri ic in_ num :
  h !! ai = Some ri -> incoming_connections ri = Some ic ->
  0 <= in_ -> 1 <= num -> in_ + num <= n ri -> n ri <= SIZE_MAX ->
  ma_disconnect h (Some ai) in_ num
  = (foldl (disconnect_unlink ai)
           (<[ai := set_incoming_connections
                      (Some (disconnect_slots ic in_ num).1) ri]> h)
           (disconnect_slots ic in_ num).2,
     Ok tt).
Proof.
  intros Hi Hic Hin Hnum Hn Hnmax. unfold ma_disconnect. rewrite Hi.
  destruct (Z.eqb_spec num 0); [lia|].
  rewrite wrap64_small by lia.
  destruct (Z.geb_spec in_ (n ri)); [lia|].
  destruct (Z.gtb_spec num (n ri - in_)); [lia|]. simpl.
  rewrite Hic. by destruct (disconnect_slots ic in_ num).
Qed.

(** The rescan loop drops the target from the list of every collected
    source that no slot of the target names any more, and does nothing
    else. *)
Lemma disconnect_unlink_lookup ai ri' (l : list addr) h1 b :
  NoDup l -> h1 !! ai = Some ri' ->
  foldl (disconnect_unlink ai) h1 l !! b
  = (fun rb => if bool_decide (b ∈ l /\ still_connected ri' b = false)
               then drop_dependent ai rb else rb) <$> h1 !! b.
Proof.
  intros Hnd Hi. revert b. induction l as [|x l IH] using rev_ind; intros b.
  - simpl. by destruct (h1 !! b).
  - apply NoDup_app in Hnd as (Hnd & Hx & _).
    rewrite foldl_snoc. set (hk := foldl _ h1 l) in *.
    specialize (IH Hnd).
    assert (exists rk, hk !! ai = Some rk
             /\ incoming_connections rk = incoming_connections ri')
      as (rk & Hrk & Hick).
    { rewrite IH, Hi. simpl. eexists. split; [done|]. by case_bool_decide. }
    unfold disconnect_unlink. rewrite Hrk.
    assert (still_connected rk x = still_connected ri' x) as ->
      by (unfold still_connected; by rewrite Hick).
    destruct (still_connected ri' x) eqn:Hsc.
    + rewrite IH. destruct (h1 !! b); [|done]. simpl. f_equal.
      apply (f_equal (fun c : bool => if c then _ else _)).
      apply bool_decide_ext. rewrite elem_of_app, list_elem_of_singleton.
      split; [tauto|]. intros [[?| ->] ?]; [done | congruence].
    + unfold remove_connected. rewrite lookup_alter. case_decide as Hxb.
      * subst b. rewrite IH. destruct (h1 !! x); [|done]. simpl. f_equal.
        rewrite bool_decide_false
          by (intros [Hin _]; eapply Hx; [exact Hin | by left]).
        rewrite bool_decide_true; [done|]. split; [|done].
        apply elem_of_app. right. by left.
      * rewrite IH. destruct (h1 !! b); [|done]. simpl. f_equal.
        apply (f_equal (fun c : bool => if c then _ else _)).
        apply bool_decide_ext. rewrite elem_of_app, list_elem_of_singleton.
        split; [tauto|]. intros [[?| ->] ?]; [done | congruence].
Qed.

Lemma filter_snoc_self (ai : addr) (l : list addr) :
  ai ∉ l -> filter (fun x => x ≠ ai) (l ++ [ai]) = l.
Proof.
  induction l as [|x l IH]; intros Hai.
  - simpl. rewrite filter_cons. by case_decide.
  - apply not_elem_of_cons in Hai as [Hne Hai]. simpl.
    rewrite filter_cons_True by done. by rewrite IH.
Qed.

Lemma singleton_of_members (a : addr) (l : list addr) :
  NoDup l -> (forall x, x ∈ l <-> x = a) -> l = [a].
Proof.
  intros Hnd Hl. destruct l as [|x l].
  - exfalso. eapply elem_of_nil, Hl. done.
  - assert (x = a) as -> by (apply Hl; by left).
    destruct l as [|y l]; [done|]. exfalso.
    assert (y = a) as -> by (apply Hl; right; by left).
    apply NoDup_cons in Hnd as [Hnd _]. apply Hnd. by left.
Qed.

End DisconnectEffect.

(** X6. A [ma_disconnect] with a range inside the target's inputs
    succeeds.  Afterwards the slots of the range are empty and the other
    slots are as before; a block that one of the cleared slots named and
    that no slot of the target names any more has lost the target from its
    dependents; every other block has its dependents as before; and no
    state, output or input buffer has changed. *)
Theorem ma_disconnect_clears (h : heap) (ai : addr) (ri : moore)
    (ic : list input_connection_info) (in_ num : Z) :
  h !! ai = Some ri -> incoming_connections ri = Some ic ->
  0 <= in_ -> 1 <= num -> in_ + num <= n ri -> n ri <= SIZE_MAX ->
  exists h' ri' ic',
    ma_disconnect h (Some ai) in_ num = (h', Ok tt) /\
    h' !! ai = Some ri' /\ incoming_connections ri' = Some ic' /\
    length ic' = length ic /\
    (forall j : nat,
       ic' !! j
       = if bool_decide (in_ <= Z.of_nat j < in_ + num /\ (j < length ic)%nat)
         then Some empty_slot else ic !! j) /\
    (forall x rx (j : nat) c, h !! x = Some rx ->
       in_ <= Z.of_nat j < in_ + num ->
       ic !! j = Some c -> source_automaton c = Some x ->
       still_connected ri' x = false ->
       connected_to_me <$> h' !! x
       = Some (filter (fun d => d ≠ ai) (connected_to_me rx))) /\
    (forall x rx, h !! x = Some rx ->
       ~ ((exists (j : nat) c,
             in_ <= Z.of_nat j < in_ + num /\
             ic !! j = Some c /\ source_automaton c = Some x)
          /\ still_connected ri' x = false) ->
       connected_to_me <$> h' !! x = Some (connected_to_me rx)) /\
    (forall b, signals <$> h' !! b = signals <$> h !! b).
Proof.
  intros Hi Hic Hin Hnum Hn Hnmax.
  rewrite (ma_disconnect_accepted h ai ri ic) by done.
  destruct (disconnect_slots ic in_ num) as [ic' srcs] eqn:Hd.
  destruct (disconnect_slots_spec ic in_ num ic' srcs Hin ltac:(lia)
              ltac:(lia) Hd) as (Hlen & Hlook & Hsrc & Hnd).
  simpl.
  set (ri1 := set_incoming_connections (Some ic') ri).
  set (h1 := <[ai := ri1]> h).
  assert (h1 !! ai = Some ri1) as Hi1 by apply lookup_insert_eq.
  pose proof (disconnect_unlink_lookup ai ri1 srcs h1) as Hfold.
  eexists _, _, ic'. split; [done|].
  split; [rewrite (Hfold ai Hnd Hi1), Hi1; done|].
  split; [by case_bool_decide|]. split; [done|]. split; [done|].
  assert (forall x, still_connected
              (if bool_decide (ai ∈ srcs /\ still_connected ri1 ai = false)
               then drop_dependent ai ri1 else ri1) x
            = still_connected ri1 x) as Hsc
    by (intros x; by case_bool_decide).
  assert (forall x rx, h !! x = Some rx ->
            exists rx1, h1 !! x = Some rx1
                        /\ connected_to_me rx1 = connected_to_me rx)
    as Hlists.
  { intros x rx Hx. unfold h1. destruct (decide (x = ai)) as [->|Hne].
    - rewrite lookup_insert_eq. exists ri1. split; [done|].
      assert (ri = rx) as -> by congruence. done.
    - rewrite lookup_insert_ne by done. by exists rx. }
  split; [|split].
  - intros x rx j c Hx Hj Hc Hs Hgone. rewrite (Hfold x Hnd Hi1).
    destruct (Hlists x rx Hx) as (rx1 & -> & <-). simpl. f_equal.
    rewrite Hsc in Hgone.
    rewrite bool_decide_true; [done|]. split; [|done].
    apply Hsrc. by exists j, c.
  - intros x rx Hx Hkeep. rewrite (Hfold x Hnd Hi1).
    destruct (Hlists x rx Hx) as (rx1 & -> & <-). simpl. f_equal.
    rewrite bool_decide_false; [done|]. intros [Hin' Hgone].
    apply Hkeep. split; [by apply Hsrc|]. by rewrite Hsc.
  - intros b. rewrite (Hfold b Hnd Hi1). unfold h1.
    destruct (decide (ai = b)) as [<-|Hne].
    + rewrite lookup_insert_eq, Hi. simpl. f_equal. by case_bool_decide.
    + rewrite lookup_insert_ne by done.
      destruct (h !! b); [|done]. simpl. f_equal.
      by destruct (bool_decide (b ∈ srcs /\ still_connected ri1 b = false)).
Qed.

(** X7. Disconnecting inputs that have no source is not an error and
    changes nothing: the call succeeds and the heap is the same. *)
Theorem ma_disconnect_unconnected (h : heap) (ai : addr) (ri : moore)
    (ic : list input_connection_info) (in_ num : Z) :
  h !! ai = Some ri -> incoming_connections ri = Some ic ->
  0 <= in_ -> 1 <= num -> in_ + num <= n ri -> n ri <= SIZE_MAX ->
  (forall j : nat, in_ <= Z.of_nat j < in_ + num ->
     ic !! j = Some empty_slot) ->
  ma_disconnect h (Some ai) in_ num = (h, Ok tt).
Proof.
  intros Hi Hic Hin Hnum Hn Hnmax Hempty.
  rewrite (ma_disconnect_accepted h ai ri ic) by done.
  destruct (disconnect_slots ic in_ num) as [ic' srcs] eqn:Hd.
  destruct (disconnect_slots_spec ic in_ num ic' srcs Hin ltac:(lia)
              ltac:(lia) Hd) as (Hlen & Hlook & Hsrc & Hnd).
  simpl.
  assert (ic' = ic) as ->.
  { apply list_eq. intros j. rewrite Hlook.
    case_bool_decide as Hj; [|done]. symmetry. apply Hempty. tauto. }
  assert (srcs = []) as ->.
  { destruct srcs as [|x srcs]; [done|]. exfalso.
    destruct (proj1 (Hsrc x) ltac:(by left)) as (j & c & Hj & Hc & Hx).
    rewrite (Hempty j Hj) in Hc. injection Hc as <-. done. }
  simpl. by rewrite <- Hic, set_incoming_connections_id, insert_id.
Qed.

(** X8. Connect, then disconnect the same range: when the slots of the
    range were empty, no other slot of the target named the source and the
    target was not among the source's dependents, the heap is back where it
    started, slots and dependents alike; only the capacity of the source's
    dependents array may have grown, and it has not if the array had room. *)
Theorem ma_connect_disconnect ok (h h1 : heap) (ai ao : addr)
    (ri ro : moore) (ic : list input_connection_info) (in_ out num : Z) :
  h !! ai = Some ri -> h !! ao = Some ro ->
  incoming_connections ri = Some ic -> Z.of_nat (length ic) = n ri ->
  0 <= in_ -> 0 <= out -> 1 <= num ->
  in_ + num <= n ri -> out + num <= m ro ->
  n ri <= SIZE_MAX -> m ro <= SIZE_MAX ->
  (forall j : nat, in_ <= Z.of_nat j < in_ + num ->
     ic !! j = Some empty_slot) ->
  still_connected ri ao = false ->
  ai ∉ connected_to_me ro ->
  ma_connect ok h (Some ai) in_ (Some ao) out num = (h1, Ok tt) ->
  exists cap,
    ma_disconnect h1 (Some ai) in_ num
    = (<[ao := set_connected_to_me (connected_to_me ro) cap ro]> h, Ok tt) /\
    (connected_to_me_count ro <> connected_to_me_capacity ro ->
     <[ao := set_connected_to_me (connected_to_me ro) cap ro]> h = h).
Proof.
  intros Hi Ho Hic Hlen Hin Hout Hnum Hn Hm Hnmax Hmmax Hempty Hnot Hfresh Hcall.
  rewrite (ma_connect_accepted ok h ai ao ri ro) in Hcall by done.
  rewrite Hic in Hcall. simpl in Hcall.
  set (ic' := connect_slots ic in_ ao out num) in *.
  set (ri1 := set_incoming_connections (Some ic') ri) in *.
  set (h0 := <[ai := ri1]> h) in *.
  assert (exists rx, h0 !! ao = Some rx /\
            connected_to_me rx = connected_to_me ro /\
            connected_to_me_capacity rx = connected_to_me_capacity ro /\
            ((ai = ao /\ rx = ri1 /\ ri = ro) \/ (ai <> ao /\ rx = ro)))
    as (rx & Hrx & Hlist & Hcap & Hwhich).
  { unfold h0. destruct (decide (ai = ao)) as [->|Hne].
    - rewrite lookup_insert_eq. exists ri1.
      assert (ri = ro) as -> by congruence.
      repeat split. by left.
    - rewrite lookup_insert_ne by done. exists ro.
      repeat split; try done. by right. }
  assert (exists cap,
            h1 = <[ao := set_connected_to_me (connected_to_me ro ++ [ai])
                           cap rx]> h0 /\
            (connected_to_me_count ro <> connected_to_me_capacity ro ->
             cap = connected_to_me_capacity ro)) as (cap & -> & Hsame).
  { unfold append_to_connected_list in Hcall. rewrite Hrx in Hcall.
    rewrite Hlist, bool_decide_false in Hcall by done.
    unfold connected_to_me_count in *. rewrite Hlist, Hcap in Hcall.
    destruct (Z.eqb_spec (Z.of_nat (length (connected_to_me ro)))
                         (connected_to_me_capacity ro)).
    - destruct ok; [|done]. injection Hcall as <-.
      eexists. split; [done|]. done.
    - injection Hcall as <-. eexists. split; [done|]. done. }
  exists cap.
  set (rx' := set_connected_to_me (connected_to_me ro ++ [ai]) cap rx).
  set (h2 := <[ao := rx']> h0).
  assert (exists ri2, h2 !! ai = Some ri2 /\
            incoming_connections ri2 = Some ic' /\ n ri2 = n ri /\
            set_incoming_connections (Some ic) ri2
            = (if decide (ai = ao)
               then set_connected_to_me (connected_to_me ro ++ [ai]) cap ro
               else ri))
    as (ri2 & Hi2 & Hic2 & Hn2 & Hback).
  { unfold h2. destruct Hwhich as [(-> & -> & ->)|(Hne & ->)].
    - rewrite lookup_insert_eq. exists rx'. repeat split.
      rewrite decide_True by done. unfold rx', ri1.
      destruct ro. simpl in *. by subst.
    - rewrite lookup_insert_ne by done. unfold h0.
      rewrite lookup_insert_eq. exists ri1. repeat split.
      rewrite decide_False by done. unfold ri1.
      destruct ri. simpl in *. by subst. }
  rewrite (ma_disconnect_accepted h2 ai ri2 ic') by (done || lia).
  destruct (disconnect_slots ic' in_ num) as [ic2 srcs] eqn:Hd.
  destruct (disconnect_slots_spec ic' in_ num ic2 srcs Hin ltac:(lia)
              ltac:(lia) Hd) as (Hlen2 & Hlook2 & Hsrc & Hnd).
  assert (forall j : nat,
            ic' !! j
            = if bool_decide (in_ <= Z.of_nat j < in_ + num
                              /\ (j < length ic)%nat)
              then Some {| source_automaton := Some ao;
                           source_output_index := out + (Z.of_nat j - in_) |}
              else ic !! j) as Hlook
    by (intros j; apply connect_slots_lookup; lia).
  assert (ic2 = ic) as ->.
  { assert (length ic' = length ic) as Hlen' by apply connect_slots_length.
    apply list_eq. intros j. rewrite Hlook2, Hlen'.
    case_bool_decide as Hj.
    - symmetry. apply Hempty. tauto.
    - rewrite Hlook, bool_decide_false by done. done. }
  assert (srcs = [ao]) as ->.
  { apply singleton_of_members; [done|]. intros x. rewrite Hsrc. split.
    - intros (j & c & Hj & Hc & Hx).
      rewrite Hlook in Hc. case_bool_decide as Hjj.
      + injection Hc as <-. simpl in Hx. congruence.
      + rewrite (Hempty j Hj) in Hc. injection Hc as <-. done.
    - intros ->. exists (Z.to_nat in_). eexists.
      split; [lia|]. rewrite Hlook, bool_decide_true by lia. done. }
  simpl. unfold disconnect_unlink.
  rewrite lookup_insert_eq.
  assert (still_connected (set_incoming_connections (Some ic) ri2) ao = false)
    as -> by (unfold still_connected in *; simpl; by rewrite Hic in Hnot).
  unfold remove_connected. rewrite Hback.
  assert (alter
            (fun r =>
               set_connected_to_me
                 (filter (fun x => x ≠ ai) (connected_to_me r))
                 (connected_to_me_capacity r) r) ao
            (<[ai:=if decide (ai = ao)
                   then set_connected_to_me (connected_to_me ro ++ [ai]) cap ro
                   else ri]> h2)
          = <[ao:=set_connected_to_me (connected_to_me ro) cap ro]> h) as ->.
  { apply map_eq. intros b. rewrite lookup_alter. unfold h2, h0.
    destruct (decide (ao = b)) as [<-|Hob].
    - rewrite lookup_insert_eq.
      destruct (decide (ai = ao)) as [->|Hne].
      + rewrite lookup_insert_eq. simpl.
        by rewrite filter_snoc_self.
      + rewrite lookup_insert_ne, lookup_insert_eq by done. simpl.
        rewrite filter_snoc_self by done.
        destruct Hwhich as [(? & _)|(_ & ->)]; done.
    - rewrite (lookup_insert_ne _ ao b) by done.
      destruct (decide (ai = b)) as [<-|Hib].
      + rewrite lookup_insert_eq, decide_False by done. done.
      + by rewrite !lookup_insert_ne. }
  split; [done|]. intros Hroom. rewrite (Hsame Hroom).
  by rewrite set_connected_to_me_id, insert_id.
Qed.

(** ** Deleting a live automaton (section 4.3) *)

Section DeleteEffect.

Lemma drop_dependent_idem a r :
  drop_dependent a (drop_dependent a r) = drop_dependent a r.
Proof.
  unfold drop_dependent, set_connected_to_me. simpl. f_equal.
  induction (connected_to_me r) as [|x l IH]; [done|].
  rewrite !filter_cons. case_decide.
  - rewrite filter_cons_True by done. by rewrite IH.
  - done.
Qed.

Lemma clear_slots_of_idem a ic :
  clear_slots_of a (clear_slots_of a ic) = clear_slots_of a ic.
Proof.
  unfold clear_slots_of. rewrite <- list_fmap_compose.
  apply list_fmap_ext. intros _ c _. simpl.
  destruct (decide (source_automaton c = Some a)) as [Hc|Hc].
  - rewrite (bool_decide_true (source_automaton c = Some a)) by done.
    done.
  - by rewrite !(bool_decide_false (source_automaton c = Some a)).
Qed.

Lemma clear_dependent_idem a r :
  clear_dependent a (clear_dependent a r) = clear_dependent a r.
Proof.
  unfold clear_dependent, set_incoming_connections. simpl. f_equal.
  destruct (incoming_connections r); [|done]. simpl. f_equal.
  by rewrite clear_slots_of_idem.
Qed.

(** The first loop of [ma_delete], over any list of slot numbers: the
    live sources those slots name lose [a] from their dependents. *)
Lemma delete_sources_lookup a ra (js : list nat) h1 b :
  h1 !! a = Some ra -> magic ra <> MOORE_MAGIC ->
  foldl (delete_unlink_source a) h1 js !! b
  = (fun rb =>
       if is_live h1 b && bool_decide (Some b ∈ slot_source ra <$> js)
       then drop_dependent a rb else rb) <$> h1 !! b.
Proof.
  intros Ha Hdead. revert b.
  induction js as [|j js IH] using rev_ind; intros b.
  - simpl. destruct (h1 !! b); [|done]. simpl. by rewrite andb_false_r.
  - rewrite foldl_snoc. set (hk := foldl _ h1 js) in *.
    assert (forall c, is_live hk c = is_live h1 c) as Hlive.
    { intros c. unfold is_live.
      pose proof (foldl_magic (delete_unlink_source a) js h1 c
                    (fun h j => delete_unlink_source_magic a h j c)) as Hm.
      fold hk in Hm.
      destruct (hk !! c), (h1 !! c); simpl in Hm; try done.
      by injection Hm as ->. }
    assert (hk !! a = Some ra) as Hka.
    { rewrite IH, Ha. simpl.
      assert (is_live h1 a = false) as ->; [|done].
      unfold is_live. rewrite Ha. by apply Z.eqb_neq. }
    unfold delete_unlink_source. rewrite Hka.
    assert (forall rb : moore,
              (if is_live h1 b
                  && bool_decide (Some b ∈ slot_source ra <$> js ++ [j])
               then drop_dependent a rb else rb)
              = (if is_live h1 b && bool_decide (slot_source ra j = Some b)
                 then drop_dependent a
                 else id)
                  (if is_live h1 b
                      && bool_decide (Some b ∈ slot_source ra <$> js)
                   then drop_dependent a rb else rb)) as Hstep.
    { intros rb. rewrite fmap_app. simpl.
      destruct (is_live h1 b); [|done]. simpl.
      destruct (decide (slot_source ra j = Some b)) as [Hj|Hj].
      - rewrite (bool_decide_true (slot_source ra j = Some b)) by done.
        rewrite bool_decide_true
          by (apply elem_of_app; right; rewrite Hj; by left).
        case_bool_decide; [by rewrite drop_dependent_idem | done].
      - rewrite (bool_decide_false (slot_source ra j = Some b)) by done.
        simpl. apply (f_equal (fun c : bool => if c then _ else _)).
        apply bool_decide_ext. rewrite elem_of_app, list_elem_of_singleton.
        split; [|tauto]. intros [?|?]; [done | congruence]. }
    destruct (slot_source ra j) as [src|] eqn:Hsrc.
    + rewrite Hlive. destruct (is_live h1 src) eqn:Hls.
      * unfold remove_connected. rewrite lookup_alter.
        destruct (decide (src = b)) as [<-|Hb].
        -- rewrite IH. destruct (h1 !! src); [|done]. simpl.
           f_equal.
           rewrite Hstep, Hls, (bool_decide_true (Some src = Some src))
             by done.
           reflexivity.
        -- rewrite IH. destruct (h1 !! b); [|done]. simpl. f_equal.
           rewrite Hstep, (bool_decide_false (Some src = Some b))
             by congruence.
           by rewrite andb_false_r.
      * rewrite IH. destruct (h1 !! b); [|done]. simpl. f_equal.
        rewrite Hstep.
        destruct (decide (src = b)) as [->|Hne].
        -- by rewrite Hls.
        -- rewrite (bool_decide_false (Some src = Some b)) by congruence.
           by rewrite andb_false_r.
    + rewrite IH. destruct (h1 !! b); [|done]. simpl. f_equal.
      rewrite Hstep, (bool_decide_false (None = Some b)) by done.
      by rewrite andb_false_r.
Qed.

(** The second loop of [ma_delete], over any list of positions in the
    dependents array: the live dependents at those positions have their
    slots naming [a] cleared. *)
Lemma delete_dependents_lookup a ra (js : list nat) h1 b :
  h1 !! a = Some ra -> magic ra <> MOORE_MAGIC ->
  foldl (delete_unlink_dependent a) h1 js !! b
  = (fun rb =>
       if is_live h1 b && bool_decide (Some b ∈ (fun i => connected_to_me ra !! i) <$> js)
       then clear_dependent a rb else rb) <$> h1 !! b.
Proof.
  intros Ha Hdead. revert b.
  induction js as [|j js IH] using rev_ind; intros b.
  - simpl. destruct (h1 !! b); [|done]. simpl. by rewrite andb_false_r.
  - rewrite foldl_snoc. set (hk := foldl _ h1 js) in *.
    assert (forall c, is_live hk c = is_live h1 c) as Hlive.
    { intros c. unfold is_live.
      pose proof (foldl_magic (delete_unlink_dependent a) js h1 c
                    (fun h j => delete_unlink_dependent_magic a h j c)) as Hm.
      fold hk in Hm.
      destruct (hk !! c), (h1 !! c); simpl in Hm; try done.
      by injection Hm as ->. }
    assert (hk !! a = Some ra) as Hka.
    { rewrite IH, Ha. simpl.
      assert (is_live h1 a = false) as ->; [|done].
      unfold is_live. rewrite Ha. by apply Z.eqb_neq. }
    unfold delete_unlink_dependent. rewrite Hka.
    assert (forall rb : moore,
              (if is_live h1 b
                  && bool_decide (Some b ∈ (fun i => connected_to_me ra !! i) <$> js ++ [j])
               then clear_dependent a rb else rb)
              = (if is_live h1 b && bool_decide (connected_to_me ra !! j = Some b)
                 then clear_dependent a
                 else id)
                  (if is_live h1 b
                      && bool_decide (Some b ∈ (fun i => connected_to_me ra !! i) <$> js)
                   then clear_dependent a rb else rb)) as Hstep.
    { intros rb. rewrite fmap_app. simpl.
      destruct (is_live h1 b); [|done]. simpl.
      destruct (decide (connected_to_me ra !! j = Some b)) as [Hj|Hj].
      - rewrite (bool_decide_true (connected_to_me ra !! j = Some b)) by done.
        rewrite bool_decide_true
          by (apply elem_of_app; right; rewrite Hj; by left).
        case_bool_decide; [by rewrite clear_dependent_idem | done].
      - rewrite (bool_decide_false (connected_to_me ra !! j = Some b)) by done.
        simpl. apply (f_equal (fun c : bool => if c then _ else _)).
        apply bool_decide_ext. rewrite elem_of_app, list_elem_of_singleton.
        split; [|tauto]. intros [?|?]; [done | congruence]. }
    destruct (connected_to_me ra !! j) as [src|] eqn:Hsrc.
    + rewrite Hlive. destruct (is_live h1 src) eqn:Hls.
      * rewrite lookup_alter.
        destruct (decide (src = b)) as [<-|Hb].
        -- rewrite IH. destruct (h1 !! src); [|done]. simpl.
           f_equal.
           rewrite Hstep, Hls, (bool_decide_true (Some src = Some src))
             by done.
           reflexivity.
        -- rewrite IH. destruct (h1 !! b); [|done]. simpl. f_equal.
           rewrite Hstep, (bool_decide_false (Some src = Some b))
             by congruence.
           by rewrite andb_false_r.
      * rewrite IH. destruct (h1 !! b); [|done]. simpl. f_equal.
        rewrite Hstep.
        destruct (decide (src = b)) as [->|Hne].
        -- by rewrite Hls.
        -- rewrite (bool_decide_false (Some src = Some b)) by congruence.
           by rewrite andb_false_r.
    + rewrite IH. destruct (h1 !! b); [|done]. simpl. f_equal.
      rewrite Hstep, (bool_decide_false (None = Some b)) by done.
      by rewrite andb_false_r.
Qed.

Lemma elem_of_lookups (l : list addr) (b : addr) :
  Some b ∈ (fun i => l !! i) <$> seq 0 (length l) <-> b ∈ l.
Proof.
  rewrite list_elem_of_fmap. split.
  - intros (i & Hi & _). symmetry in Hi. by eapply list_elem_of_lookup_2.
  - intros Hb. apply list_elem_of_lookup_1 in Hb as (i & Hi).
    exists i. split; [done|]. apply elem_of_seq.
    apply lookup_lt_Some in Hi. lia.
Qed.

(** The whole of [ma_delete] on a live automaton, block by block. *)
Lemma ma_delete_lookup h a r b :
  h !! a = Some r -> magic r = MOORE_MAGIC ->
  ma_delete h (Some a) !! b = after_delete a r h b <$> h !! b.
Proof.
  intros Ha Hlive. unfold ma_delete. rewrite Ha, Hlive. simpl.
  set (ra := set_magic MOORE_DELETED r).
  set (h1 := <[a := ra]> h).
  assert (h1 !! a = Some ra) as H1 by apply lookup_insert_eq.
  assert (magic ra <> MOORE_MAGIC) as Hdead by done.
  set (h2 := foldl (delete_unlink_source a) h1 (seq 0 (Z.to_nat (n r)))).
  assert (forall c, h2 !! c
            = (fun rb => if is_live h1 c && names r c
                         then drop_dependent a rb else rb) <$> h1 !! c)
    as H2.
  { intros c. unfold h2.
    by rewrite (delete_sources_lookup a ra _ h1 c H1 Hdead). }
  assert (h2 !! a = Some ra) as H2a.
  { rewrite H2, H1. simpl.
    assert (is_live h1 a = false) as ->; [|done].
    unfold is_live. by rewrite H1. }
  assert (forall c, is_live h2 c = is_live h1 c) as Hl2.
  { intros c. unfold is_live. rewrite H2.
    destruct (h1 !! c) as [rc|]; [|done]. simpl.
    by destruct (_ && _). }
  rewrite (delete_dependents_lookup a ra _ h2 b H2a Hdead).
  rewrite Hl2, H2.
  rewrite (bool_decide_ext _ (b ∈ connected_to_me r))
    by apply elem_of_lookups.
  unfold after_delete, h1, is_live.
  destruct (decide (a = b)) as [<-|Hne].
  - rewrite lookup_insert_eq, Ha. simpl.
    by rewrite bool_decide_true.
  - rewrite lookup_insert_ne by done.
    destruct (h !! b) as [rb|]; [|done]. simpl.
    by rewrite !(bool_decide_false (b = a)) by congruence.
Qed.

Lemma still_connected_clear a r :
  still_connected (clear_dependent a r) a = false.
Proof.
  unfold still_connected, clear_dependent. simpl.
  destruct (incoming_connections r) as [ic|]; [|done]. simpl.
  apply not_true_is_false. intros Hex.
  apply existsb_exists in Hex as (c & Hc & Hs).
  apply bool_decide_eq_true_1 in Hs.
  apply list_elem_of_In, list_elem_of_fmap in Hc as (c0 & -> & _).
  destruct (decide (source_automaton c0 = Some a)) as [H0|H0].
  - rewrite (bool_decide_true (source_automaton c0 = Some a)) in Hs by done.
    done.
  - rewrite (bool_decide_false (source_automaton c0 = Some a)) in Hs by done.
    done.
Qed.

Lemma clear_slots_of_lookup a ic (j : nat) :
  clear_slots_of a ic !! j
  = (fun c => if bool_decide (source_automaton c = Some a)
              then empty_slot else c) <$> ic !! j.
Proof. unfold clear_slots_of. by rewrite list_lookup_fmap. Qed.

End DeleteEffect.

(** X9. Deleting a live automaton repairs both sides of its connections:
    the automaton is destroyed and every other block keeps its liveness;
    every live automaton named by one of its [n] slots no longer has it
    among its dependents; and no slot of any live automaton in its own
    dependents list names it any more. *)
Theorem ma_delete_unlinks (h : heap) (a : addr) (r : moore) :
  h !! a = Some r -> magic r = MOORE_MAGIC ->
  is_live (ma_delete h (Some a)) a = false /\
  (forall b, b <> a -> is_live (ma_delete h (Some a)) b = is_live h b) /\
  (forall b rb', b <> a -> is_live h b = true -> names r b = true ->
     ma_delete h (Some a) !! b = Some rb' -> a ∉ connected_to_me rb') /\
  (forall d rd', d <> a -> is_live h d = true -> d ∈ connected_to_me r ->
     ma_delete h (Some a) !! d = Some rd' -> still_connected rd' a = false).
Proof.
  intros Ha Hlive.
  pose proof (fun b => ma_delete_lookup h a r b Ha Hlive) as Hlook.
  split; [|split; [|split]].
  - unfold is_live. rewrite Hlook, Ha. simpl. unfold after_delete.
    rewrite !bool_decide_true by done. done.
  - intros b Hb. unfold is_live. rewrite Hlook.
    destruct (h !! b) as [rb|]; [|done]. simpl. unfold after_delete.
    rewrite !(bool_decide_false (b = a)) by done. simpl.
    by destruct (_ && names r b), (_ && bool_decide _).
  - intros b rb' Hb Hlb Hnames. rewrite Hlook. unfold is_live in Hlb.
    destruct (h !! b) as [rb|]; [|done]. simpl. intros [= <-].
    unfold after_delete.
    rewrite !(bool_decide_false (b = a)) by done. simpl.
    rewrite Hlb, Hnames. simpl.
    assert (a ∉ connected_to_me (drop_dependent a rb)) as Hgone.
    { simpl. intros Hin. apply list_elem_of_filter in Hin as [Hin _]. done. }
    by destruct (bool_decide (b ∈ connected_to_me r)).
  - intros d rd' Hd Hld Hin. rewrite Hlook. unfold is_live in Hld.
    destruct (h !! d) as [rd|]; [|done]. simpl. intros [= <-].
    unfold after_delete.
    rewrite !(bool_decide_false (d = a)) by done. simpl.
    rewrite Hld, (bool_decide_true (d ∈ connected_to_me r)) by done. simpl.
    apply still_connected_clear.
Qed.

(** X10. What [ma_delete] leaves alone: no state, output or input buffer
    of any block changes; a dependents list loses at most the deleted
    automaton and keeps its capacity; and a slot changes only if it named
    the deleted automaton, in which case it is emptied. *)
Theorem ma_delete_frame (h : heap) (a : addr) (r : moore) :
  h !! a = Some r -> magic r = MOORE_MAGIC ->
  (forall b, signals <$> ma_delete h (Some a) !! b = signals <$> h !! b) /\
  (forall b rb, h !! b = Some rb ->
     exists rb',
       ma_delete h (Some a) !! b = Some rb' /\
       connected_to_me_capacity rb' = connected_to_me_capacity rb /\
       (forall d, d <> a ->
          (d ∈ connected_to_me rb' <-> d ∈ connected_to_me rb)) /\
       (forall d, d ∈ connected_to_me rb' -> d ∈ connected_to_me rb) /\
       (forall j : nat,
          slot_source rb' j = slot_source rb j \/
          (slot_source rb j = Some a /\ slot_source rb' j = None))).
Proof.
  intros Ha Hlive.
  pose proof (fun b => ma_delete_lookup h a r b Ha Hlive) as Hlook.
  assert (forall rb (c : bool),
            signals (if c then drop_dependent a rb else rb) = signals rb)
    as Hs1 by (by intros rb []).
  assert (forall rb (c : bool),
            signals (if c then clear_dependent a rb else rb) = signals rb)
    as Hs2 by (by intros rb []).
  assert (forall rb (c : bool),
            signals (if c then set_magic MOORE_DELETED rb else rb)
            = signals rb)
    as Hs3 by (by intros rb []).
  split.
  - intros b. rewrite Hlook. destruct (h !! b) as [rb|]; [|done]. simpl.
    f_equal. unfold after_delete. by rewrite Hs2, Hs1, Hs3.
  - intros b rb Hb. rewrite Hlook, Hb. simpl. eexists. split; [done|].
    unfold after_delete.
    set (rb1 := if bool_decide (b = a) then set_magic MOORE_DELETED rb else rb).
    assert (connected_to_me rb1 = connected_to_me rb
            /\ connected_to_me_capacity rb1 = connected_to_me_capacity rb
            /\ incoming_connections rb1 = incoming_connections rb)
      as (Hl1 & Hc1 & Hi1) by (unfold rb1; by case_bool_decide).
    set (c1 := negb (bool_decide (b = a)) && (magic rb =? MOORE_MAGIC)
               && names r b).
    set (c2 := negb (bool_decide (b = a)) && (magic rb =? MOORE_MAGIC)
               && bool_decide (b ∈ connected_to_me r)).
    set (rb2 := if c1 then drop_dependent a rb1 else rb1).
    assert (connected_to_me_capacity rb2 = connected_to_me_capacity rb
            /\ incoming_connections rb2 = incoming_connections rb
            /\ (connected_to_me rb2 = connected_to_me rb \/
                connected_to_me rb2
                = filter (fun x => x ≠ a) (connected_to_me rb)))
      as (Hc2 & Hi2 & Hl2).
    { unfold rb2. destruct c1; simpl; rewrite ?Hl1; auto. }
    assert (forall d, d ∈ connected_to_me rb2 -> d ∈ connected_to_me rb)
      as Hsub.
    { intros d. destruct Hl2 as [-> | ->]; [done|].
      intros Hd. by apply list_elem_of_filter in Hd as [_ Hd]. }
    assert (forall d, d <> a -> d ∈ connected_to_me rb ->
                      d ∈ connected_to_me rb2) as Hsup.
    { intros d Hd. destruct Hl2 as [-> | ->]; [done|].
      intros Hin. by apply list_elem_of_filter. }
    destruct c2; simpl.
    + split; [done|]. split; [|split].
      * intros d Hd. split; [apply Hsub | by apply Hsup].
      * apply Hsub.
      * intros j. unfold slot_source. simpl. rewrite Hi2.
        destruct (incoming_connections rb) as [ic|]; [|by left]. simpl.
        rewrite clear_slots_of_lookup.
        destruct (ic !! j) as [c|]; [|by left]. simpl.
        case_bool_decide as Hc; [by right | by left].
    + split; [done|]. split; [|split].
      * intros d Hd. split; [apply Hsub | by apply Hsup].
      * apply Hsub.
      * intros j. left. unfold slot_source. by rewrite Hi2.
Qed.

Section DeleteFallback.

Lemma sized_clear_dependent a rb :
  sized rb = true -> sized (clear_dependent a rb) = true.
Proof.
  unfold sized, clear_dependent. simpl.
  destruct (incoming_connections rb) as [ic|]; simpl; [|done].
  intros H. repeat (apply andb_prop in H as [H ?]).
  repeat (apply andb_true_intro; split); try done.
  apply forallb_forall. intros c Hc.
  apply list_elem_of_In, list_elem_of_fmap in Hc as (c0 & -> & Hc0).
  destruct (bool_decide (source_automaton c0 = Some a)); [done|].
  rewrite forallb_forall in H0. by apply H0, list_elem_of_In.
Qed.

Lemma sized_after_delete a r h b rb :
  sized rb = true -> sized (after_delete a r h b rb) = true.
Proof.
  intros Hs. unfold after_delete.
  set (rb1 := if bool_decide (b = a) then set_magic MOORE_DELETED rb else rb).
  assert (sized rb1 = true) as H1 by (unfold rb1; by case_bool_decide).
  set (rb2 := if _ && names r b then drop_dependent a rb1 else rb1).
  assert (sized rb2 = true) as H2 by (unfold rb2; by destruct (_ && _)).
  destruct (_ && bool_decide _); [by apply sized_clear_dependent | done].
Qed.

(** Deleting a live automaton keeps the heap well sized. *)
Lemma sized_heap_delete h a r :
  sized_heap h -> h !! a = Some r -> magic r = MOORE_MAGIC ->
  sized_heap (ma_delete h (Some a)).
Proof.
  intros Hh Ha Hlive b rb' Hb.
  rewrite (ma_delete_lookup h a r b Ha Hlive) in Hb.
  destruct (h !! b) as [rb|] eqn:Hrb; [|done].
  simpl in Hb. injection Hb as <-.
  apply sized_after_delete. by eapply sized_heap_lookup.
Qed.

Lemma after_delete_signals a r h b rb :
  signals (after_delete a r h b rb) = signals rb.
Proof.
  unfold after_delete.
  by destruct (bool_decide (b = a)), (_ && names r b), (_ && bool_decide _).
Qed.

Lemma after_delete_source a r h b rb :
  b <> a ->
  magic (after_delete a r h b rb) = magic rb /\
  m (after_delete a r h b rb) = m rb /\
  output (after_delete a r h b rb) = output rb.
Proof.
  intros Hb. unfold after_delete.
  rewrite !(bool_decide_false (b = a)) by done.
  by destruct (_ && names r b), (_ && bool_decide _).
Qed.

Lemma after_delete_slot a r h b rb (j : nat) :
  incoming_connections (after_delete a r h b rb) ≫= (fun ic => ic !! j)
  = incoming_connections rb ≫= (fun ic => ic !! j)
  \/ (exists c, incoming_connections rb ≫= (fun ic => ic !! j) = Some c
                /\ source_automaton c = Some a
                /\ incoming_connections (after_delete a r h b rb)
                   ≫= (fun ic => ic !! j) = Some empty_slot).
Proof.
  unfold after_delete.
  set (rb1 := if bool_decide (b = a) then set_magic MOORE_DELETED rb else rb).
  assert (incoming_connections rb1 = incoming_connections rb) as H1
    by (unfold rb1; by case_bool_decide).
  set (rb2 := if _ && names r b then drop_dependent a rb1 else rb1).
  assert (incoming_connections rb2 = incoming_connections rb) as H2
    by (unfold rb2; by destruct (_ && _)).
  destruct (_ && bool_decide _); [|left; by rewrite H2].
  unfold clear_dependent. simpl. rewrite H2.
  destruct (incoming_connections rb) as [ic|]; [|by left]. simpl.
  rewrite clear_slots_of_lookup.
  destruct (ic !! j) as [c|]; [|by left]. simpl.
  case_bool_decide as Hc; [|by left]. right. by exists c.
Qed.

End DeleteFallback.

(** X11. After an automaton is deleted, the inputs it fed fall back to the
    manual input and the other inputs read what they read before: for
    every other automaton with [n > 0], the final input resolved on the
    heap after the deletion has, at each input whose slot named the deleted
    automaton, the manual bit, and at every other input the bit it would
    have had before the deletion. *)
Theorem ma_delete_falls_back (h : heap) (S_ T : addr) (rS rT : moore) :
  sized_heap h ->
  h !! S_ = Some rS -> magic rS = MOORE_MAGIC ->
  T <> S_ -> h !! T = Some rT -> 0 < n rT ->
  exists rT' fi',
    ma_delete h (Some S_) !! T = Some rT' /\
    update_final_input (ma_delete h (Some S_)) (Some T)
    = <[T := set_final_input (Some fi') rT']> (ma_delete h (Some S_)) /\
    forall i, 0 <= i < n rT ->
      get_bit fi' i
      = if bool_decide (slot_source rT (Z.to_nat i) = Some S_)
        then get_bit (default [] (manual_input rT)) i
        else spec_input_bit h rT i.
Proof.
  intros Hh HS Hlive HTS HT Hn.
  set (h' := ma_delete h (Some S_)).
  pose proof (fun b => ma_delete_lookup h S_ rS b HS Hlive) as Hlook.
  fold h' in Hlook.
  set (rT' := after_delete S_ rS h T rT).
  assert (h' !! T = Some rT') as HT' by (by rewrite Hlook, HT).
  assert (sized_heap h') as Hh' by (by eapply sized_heap_delete).
  pose proof (after_delete_signals S_ rS h T rT) as Hsig. fold rT' in Hsig.
  assert (n rT' = n rT /\ manual_input rT' = manual_input rT) as [HnT HmT].
  { unfold signals in Hsig. split; congruence. }
  destruct (final_input_of_spec h' rT' Hh' (sized_heap_lookup _ _ _ Hh' HT')
              ltac:(lia)) as (fi' & Hfi' & _ & Hbits).
  exists rT', fi'. split; [done|]. split.
  { unfold update_final_input. by rewrite HT', Hfi'. }
  intros i Hi. rewrite Hbits by lia. rewrite HnT.
  destruct (Z.ltb_spec i (n rT)); [|lia]. simpl.
  unfold spec_input_bit. rewrite HmT.
  assert (forall x, x <> S_ ->
            match h' !! x with
            | Some rs =>
              exists rs0, h !! x = Some rs0 /\ magic rs = magic rs0
                          /\ m rs = m rs0 /\ output rs = output rs0
            | None => h !! x = None
            end) as Hsrc.
  { intros x Hx. rewrite Hlook. destruct (h !! x) as [rx|]; [|done]. simpl.
    exists rx. split; [done|]. by apply after_delete_source. }
  assert (is_live h' S_ = false) as Hdead.
  { unfold is_live. rewrite Hlook, HS. simpl. unfold after_delete.
    rewrite !bool_decide_true by done. done. }
  unfold slot_source.
  pose proof (after_delete_slot S_ rS h T rT (Z.to_nat i)) as Hslot.
  change (after_delete S_ rS h T rT) with rT' in Hslot.
  destruct Hslot as [Hsame|(c & Hc & HcS & Hclr)].
  - rewrite Hsame.
    destruct (incoming_connections rT) as [ic|]; simpl; [|done].
    destruct (ic !! Z.to_nat i) as [c|]; simpl; [|done].
    destruct (source_automaton c) as [x|] eqn:Hx; [|done].
    destruct (decide (x = S_)) as [->|Hne].
    + rewrite bool_decide_true by done.
      destruct (h' !! S_); [|done]. by rewrite Hdead.
    + rewrite bool_decide_false by congruence.
      specialize (Hsrc x Hne). unfold is_live.
      destruct (h' !! x) as [rs|].
      * destruct Hsrc as (rs0 & -> & -> & -> & ->). done.
      * by rewrite Hsrc.
  - rewrite Hclr. simpl.
    destruct (incoming_connections rT) as [ic|]; [|done]. simpl in *.
    rewrite Hc. simpl. rewrite HcS. by rewrite bool_decide_true.
Qed.

(** ** The dependents invariant under connection management *)

Section Links.

Lemma still_connected_elem r x :
  still_connected r x = true <->
  exists ic c, incoming_connections r = Some ic /\ c ∈ ic
               /\ source_automaton c = Some x.
Proof.
  unfold still_connected. split.
  - destruct (incoming_connections r) as [ic|]; [|done].
    intros H. apply existsb_exists in H as (c & Hc & Hx).
    exists ic, c. split; [done|]. split; [by apply list_elem_of_In|].
    by apply bool_decide_eq_true in Hx.
  - intros (ic & c & -> & Hc & Hx). apply existsb_exists.
    exists c. split; [by apply list_elem_of_In|].
    by apply bool_decide_eq_true.
Qed.

Lemma connect_slots_elem ic in_ ao out num c :
  c ∈ connect_slots ic in_ ao out num ->
  source_automaton c = Some ao \/ c ∈ ic.
Proof.
  unfold connect_slots. generalize (Z.to_nat num). intros k.
  induction k as [|k IH]; [by right|].
  rewrite seq_S, foldl_snoc. simpl. intros Hc.
  apply list_elem_of_lookup in Hc as (j & Hj).
  set (p := Z.to_nat _) in Hj.
  destruct (decide (p = j)) as [<-|Hne].
  - destruct (decide (p < length (foldl
        (fun ic i =>
           <[Z.to_nat (wrap64 (in_ + Z.of_nat i)) :=
               {| source_automaton := Some ao;
                  source_output_index := wrap64 (out + Z.of_nat i) |}]> ic)
        ic (seq 0 k)))%nat) as [Hlt|Hge].
    + rewrite list_lookup_insert_eq in Hj by done.
      injection Hj as <-. by left.
    + rewrite lookup_ge_None_2 in Hj; [done|].
      rewrite length_insert. lia.
  - rewrite list_lookup_insert_ne in Hj by done.
    apply IH. by eapply list_elem_of_lookup_2.
Qed.

End Links.

(** X12. A successful [ma_connect] keeps the forward half of the dependents
    invariant: if, before the call, every live automaton with a slot fed by
    a live automaton was in that automaton's dependents, the same holds
    after it. *)
Theorem ma_connect_keeps_cover ok (h h' : heap) (a_in a_out : ptr)
    (in_ out num : Z) :
  dependents_cover h ->
  ma_connect ok h a_in in_ a_out out num = (h', Ok tt) ->
  dependents_cover h'.
Proof.
  intros Hcov. unfold ma_connect.
  destruct a_in as [ai|]; [|done]. destruct a_out as [ao|]; [|done].
  destruct (num =? 0); [done|].
  destruct (h !! ai) as [ri|] eqn:Hi; [|by intros [= <-]].
  destruct (h !! ao) as [ro|] eqn:Ho; [|by intros [= <-]].
  destruct (_ || _ || _ || _); [done|].
  set (ri1 := set_incoming_connections _ ri).
  set (h1 := <[ai := ri1]> h).
  assert (exists rx, h1 !! ao = Some rx /\
            connected_to_me rx = connected_to_me ro) as (rx & Hrx & Hlist).
  { unfold h1. destruct (decide (ai = ao)) as [->|Hne].
    - rewrite lookup_insert_eq. exists ri1.
      assert (ri = ro) as -> by congruence. done.
    - rewrite lookup_insert_ne by done. by exists ro. }
  intros Happ.
  destruct (append_to_connected_list_ok ok h1 ao ai rx h' Hrx Happ)
    as (l & cap & -> & Hai & Hkeep & _).
  assert (forall b rb', <[ao := set_connected_to_me l cap rx]> h1 !! b = Some rb' ->
            exists rb, h !! b = Some rb /\ magic rb' = magic rb /\
              (forall d, d ∈ connected_to_me rb -> d ∈ connected_to_me rb') /\
              (b = ao -> ai ∈ connected_to_me rb') /\
              (forall x, still_connected rb' x = true ->
                 still_connected rb x = true \/ (b = ai /\ x = ao)))
    as Hblock.
  { intros b rb' Hb.
    assert (forall rb1, h1 !! b = Some rb1 ->
              exists rb, h !! b = Some rb /\ magic rb1 = magic rb /\
                connected_to_me rb1 = connected_to_me rb /\
                (forall x, still_connected rb1 x = true ->
                   still_connected rb x = true \/ (b = ai /\ x = ao)))
      as Hone.
    { intros rb1 Hb1. unfold h1 in Hb1.
      destruct (decide (ai = b)) as [<-|Hne].
      - rewrite lookup_insert_eq in Hb1. injection Hb1 as <-.
        exists ri. split; [done|]. split; [done|]. split; [done|].
        intros x Hx. apply still_connected_elem in Hx as (ic' & c & Hic' & Hc & Hcx).
        unfold ri1 in Hic'. simpl in Hic'.
        destruct (incoming_connections ri) as [ic|] eqn:Hic; [|done].
        simpl in Hic'. injection Hic' as <-.
        apply connect_slots_elem in Hc as [Hc|Hc].
        + right. split; [done|]. congruence.
        + left. apply still_connected_elem. by exists ic, c.
      - rewrite lookup_insert_ne in Hb1 by done.
        exists rb1. split; [done|]. split; [done|]. split; [done|]. by left. }
    destruct (decide (ao = b)) as [<-|Hne].
    - rewrite lookup_insert_eq in Hb. injection Hb as <-.
      destruct (Hone rx Hrx) as (rb & Hrb & Hmag & Hl & Hsc).
      exists rb. split; [done|]. split; [done|]. simpl.
      split; [intros d Hd; apply Hkeep; by rewrite Hl|].
      split; [done|]. exact Hsc.
    - rewrite lookup_insert_ne in Hb by done.
      destruct (Hone rb' Hb) as (rb & Hrb & Hmag & Hl & Hsc).
      exists rb. split; [done|]. split; [done|].
      split; [intros d Hd; by rewrite Hl|].
      split; [done|]. exact Hsc. }
  intros d rd' x rx' Hd Hx Hdl Hxl Hsc.
  destruct (Hblock d rd' Hd) as (rd & Hrd & Hmd & _ & _ & Hscd).
  destruct (Hblock x rx' Hx) as (rx0 & Hrx0 & Hmx & Hsub & Hself & _).
  destruct (Hscd x Hsc) as [Hold|[-> ->]].
  - apply Hsub. eapply (Hcov d rd x rx0); congruence.
  - by apply Hself.
Qed.

Section DisconnectLinks.

(** The block [ma_disconnect] leaves at [b], for an accepted call. *)
Lemma ma_disconnect_lookup h ai ri ic in_ num b :
  h !! ai = Some ri -> incoming_connections ri = Some ic ->
  0 <= in_ -> 1 <= num -> in_ + num <= n ri -> n ri <= SIZE_MAX ->
  exists ic' srcs,
    disconnect_slots ic in_ num = (ic', srcs) /\
    (ma_disconnect h (Some ai) in_ num).1 !! b
    = (fun rb =>
         let rb1 := if bool_decide (b = ai)
                    then set_incoming_connections (Some ic') rb else rb in
         if bool_decide (b ∈ srcs
                         /\ existsb (fun c => bool_decide
                                      (source_automaton c = Some b)) ic'
                            = false)
         then drop_dependent ai rb1 else rb1) <$> h !! b.
Proof.
  intros Hi Hic Hin Hnum Hn Hnmax.
  rewrite (ma_disconnect_accepted h ai ri ic) by done.
  destruct (disconnect_slots ic in_ num) as [ic' srcs] eqn:Hd.
  destruct (disconnect_slots_spec ic in_ num ic' srcs Hin ltac:(lia)
              ltac:(lia) Hd) as (Hlen & Hlook & Hsrc & Hnd).
  exists ic', srcs. split; [done|]. simpl.
  set (ri1 := set_incoming_connections (Some ic') ri).
  set (h1 := <[ai := ri1]> h).
  assert (h1 !! ai = Some ri1) as Hi1 by apply lookup_insert_eq.
  rewrite (disconnect_unlink_lookup ai ri1 srcs h1 b Hnd Hi1).
  unfold h1. destruct (decide (ai = b)) as [<-|Hne].
  - rewrite lookup_insert_eq, Hi. simpl.
    by rewrite (bool_decide_true (ai = ai)) by done.
  - rewrite lookup_insert_ne by done.
    destruct (h !! b) as [rb|]; [|done]. simpl.
    by rewrite (bool_decide_false (b = ai)) by done.
Qed.

End DisconnectLinks.

(** X13. [ma_disconnect] keeps the dependents invariant in both directions:
    if before an accepted call every live automaton with a slot fed by a
    live automaton was in that automaton's dependents, it is so afterwards;
    and if before the call every entry of a live automaton's dependents was
    a live automaton with a slot fed by it, it is so afterwards. *)
Theorem ma_disconnect_keeps_links (h : heap) (ai : addr) (ri : moore)
    (ic : list input_connection_info) (in_ num : Z) :
  h !! ai = Some ri -> incoming_connections ri = Some ic ->
  0 <= in_ -> 1 <= num -> in_ + num <= n ri -> n ri <= SIZE_MAX ->
  (dependents_cover h ->
   dependents_cover (ma_disconnect h (Some ai) in_ num).1) /\
  (dependents_sound h ->
   dependents_sound (ma_disconnect h (Some ai) in_ num).1).
Proof.
  intros Hi Hic Hin Hnum Hn Hnmax.
  set (h' := (ma_disconnect h (Some ai) in_ num).1).
  destruct (disconnect_slots ic in_ num) as [ic' srcs] eqn:Hd.
  destruct (disconnect_slots_spec ic in_ num ic' srcs Hin ltac:(lia)
              ltac:(lia) Hd) as (Hlen & Hlook & Hsrc & Hnd).
  assert (forall x, existsb (fun c => bool_decide
                               (source_automaton c = Some x)) ic' = true ->
            still_connected ri x = true) as Hless.
  { intros x Hx. apply existsb_exists in Hx as (c & Hc & Hcx).
    apply bool_decide_eq_true in Hcx.
    apply list_elem_of_In, list_elem_of_lookup in Hc as (j & Hj).
    rewrite Hlook in Hj. case_bool_decide.
    - injection Hj as <-. done.
    - apply still_connected_elem. exists ic, c. split; [done|].
      split; [by eapply list_elem_of_lookup_2 | done]. }
  assert (forall x, still_connected ri x = true -> x ∉ srcs ->
            existsb (fun c => bool_decide
                       (source_automaton c = Some x)) ic' = true) as Hmore.
  { intros x Hx Hnot.
    apply still_connected_elem in Hx as (ic0 & c & Hic0 & Hc & Hcx).
    assert (ic0 = ic) as -> by congruence.
    apply list_elem_of_lookup in Hc as (j & Hj).
    apply existsb_exists. exists c.
    split; [|by apply bool_decide_eq_true].
    apply list_elem_of_In. apply (list_elem_of_lookup_2 _ j).
    rewrite Hlook, bool_decide_false; [done|].
    intros [Hr _]. apply Hnot, Hsrc. by exists j, c. }
  assert (forall b rb', h' !! b = Some rb' ->
            exists rb, h !! b = Some rb /\ magic rb' = magic rb /\
              incoming_connections rb'
              = (if bool_decide (b = ai) then Some ic'
                 else incoming_connections rb) /\
              connected_to_me rb'
              = (if bool_decide (b ∈ srcs
                     /\ existsb (fun c => bool_decide
                                   (source_automaton c = Some b)) ic' = false)
                 then filter (fun d => d ≠ ai) (connected_to_me rb)
                 else connected_to_me rb)) as Hblock.
  { intros b rb' Hb. unfold h' in Hb.
    destruct (ma_disconnect_lookup h ai ri ic in_ num b Hi Hic Hin Hnum
                Hn Hnmax) as (ic0 & srcs0 & Hd0 & Hl).
    rewrite Hd in Hd0. injection Hd0 as <- <-.
    rewrite Hl in Hb. destruct (h !! b) as [rb|]; [|done].
    simpl in Hb. injection Hb as <-. exists rb. split; [done|].
    by destruct (bool_decide (b = ai)), (bool_decide (_ /\ _)). }
  assert (forall d rd' rd x, h' !! d = Some rd' -> h !! d = Some rd ->
            still_connected rd' x = true -> still_connected rd x = true)
    as Hslots.
  { intros d rd' rd x Hd' Hd0 Hsc.
    destruct (Hblock d rd' Hd') as (rd0 & Hrd0 & _ & Hic' & _).
    assert (rd0 = rd) as -> by congruence.
    unfold still_connected in Hsc. rewrite Hic' in Hsc.
    case_bool_decide as Hda.
    - subst d. assert (rd = ri) as -> by congruence. by apply Hless.
    - done. }
  split.
  - intros Hcov d rd' x rx' Hd' Hx' Hdl Hxl Hsc.
    destruct (Hblock d rd' Hd') as (rd & Hrd & Hmd & Hicd & _).
    destruct (Hblock x rx' Hx') as (rx & Hrx & Hmx & _ & Hlx).
    assert (d ∈ connected_to_me rx) as Hin0.
    { eapply (Hcov d rd x rx); try congruence.
      by eapply (Hslots d rd' rd x). }
    rewrite Hlx. case_bool_decide as Hdrop; [|done].
    apply list_elem_of_filter. split; [|done]. intros ->.
    destruct Hdrop as [_ Hgone].
    unfold still_connected in Hsc. rewrite Hicd in Hsc.
    rewrite bool_decide_true in Hsc by done. congruence.
  - intros Hsnd x rx' d Hx' Hxl Hdin.
    destruct (Hblock x rx' Hx') as (rx & Hrx & Hmx & _ & Hlx).
    assert (d ∈ connected_to_me rx /\
            (d = ai ->
             existsb (fun c => bool_decide
                        (source_automaton c = Some x)) ic' = true))
      as [Hin0 Hkept].
    { rewrite Hlx in Hdin. case_bool_decide as Hdrop.
      - apply list_elem_of_filter in Hdin as [Hne Hdin]. done.
      - split; [done|]. intros ->.
        destruct (existsb _ ic') eqn:Hex; [done|]. exfalso.
        destruct (decide (x ∈ srcs)) as [Hs|Hs]; [by apply Hdrop|].
        destruct (Hsnd x rx ai Hrx ltac:(congruence) Hdin)
          as (rd & Hrd & _ & Hsc).
        assert (rd = ri) as -> by congruence.
        rewrite (Hmore x Hsc Hs) in Hex. done. }
    destruct (Hsnd x rx d Hrx ltac:(congruence) Hin0)
      as (rd & Hrd & Hmd & Hsc).
    assert (exists rd', h' !! d = Some rd') as (rd' & Hd').
    { unfold h'.
      destruct (ma_disconnect_lookup h ai ri ic in_ num d Hi Hic Hin Hnum
                  Hn Hnmax) as (ic0 & srcs0 & _ & ->).
      rewrite Hrd. simpl. by eexists. }
    destruct (Hblock d rd' Hd') as (rd0 & Hrd0 & Hmd' & Hicd & _).
    assert (rd0 = rd) as -> by congruence.
    exists rd'. split; [done|]. split; [congruence|].
    unfold still_connected. rewrite Hicd.
    case_bool_decide as Hda; [by apply Hkept | exact Hsc].
Qed.

Section DeleteLinks.

Lemma still_connected_clear_dependent a rb x :
  still_connected (clear_dependent a rb) x
  = if bool_decide (x = a) then false else still_connected rb x.
Proof.
  case_bool_decide as Hx; [subst x; apply still_connected_clear|].
  unfold still_connected, clear_dependent. simpl.
  destruct (incoming_connections rb) as [ic|]; [|done]. simpl.
  unfold clear_slots_of. induction ic as [|c ic IH]; [done|].
  rewrite fmap_cons. simpl. rewrite IH. f_equal.
  destruct (decide (source_automaton c = Some a)) as [Hc|Hc].
  - rewrite (bool_decide_true (source_automaton c = Some a)) by done.
    simpl. symmetry. apply bool_decide_eq_false. congruence.
  - by rewrite (bool_decide_false (source_automaton c = Some a)) by done.
Qed.

Lemma after_delete_links a r h b rb :
  b <> a ->
  magic (after_delete a r h b rb) = magic rb /\
  (forall x, still_connected (after_delete a r h b rb) x = true ->
             still_connected rb x = true) /\
  (forall x, x <> a -> still_connected rb x = true ->
             still_connected (after_delete a r h b rb) x = true) /\
  (forall d, d ∈ connected_to_me (after_delete a r h b rb) ->
             d ∈ connected_to_me rb) /\
  (forall d, d <> a -> d ∈ connected_to_me rb ->
             d ∈ connected_to_me (after_delete a r h b rb)) /\
  (magic rb = MOORE_MAGIC -> names r b = true ->
   a ∉ connected_to_me (after_delete a r h b rb)).
Proof.
  intros Hb. unfold after_delete.
  rewrite !(bool_decide_false (b = a)) by done. simpl.
  set (rb2 := if (magic rb =? MOORE_MAGIC) && names r b
              then drop_dependent a rb else rb).
  assert (magic rb2 = magic rb /\
          incoming_connections rb2 = incoming_connections rb /\
          (forall d, d ∈ connected_to_me rb2 -> d ∈ connected_to_me rb) /\
          (forall d, d <> a -> d ∈ connected_to_me rb ->
                     d ∈ connected_to_me rb2) /\
          (magic rb = MOORE_MAGIC -> names r b = true ->
           a ∉ connected_to_me rb2)) as (Hm2 & Hic2 & Hsub & Hsup & Hgone).
  { unfold rb2. destruct (Z.eqb_spec (magic rb) MOORE_MAGIC) as [Hl|Hl];
      simpl; [|by repeat split].
    destruct (names r b); [|by repeat split]. simpl.
    split; [done|]. split; [done|].
    split; [intros d Hd; by apply list_elem_of_filter in Hd as [_ Hd]|].
    split; [intros d Hne Hd; by apply list_elem_of_filter|].
    intros _ _ Hin. by apply list_elem_of_filter in Hin as [Hne _]. }
  assert (forall x, still_connected rb2 x = still_connected rb x) as Hsc2
    by (intros x; unfold still_connected; by rewrite Hic2).
  destruct (_ && bool_decide _).
  - split; [done|].
    split.
    { intros x. rewrite still_connected_clear_dependent, Hsc2.
      by case_bool_decide. }
    split.
    { intros x Hx. rewrite still_connected_clear_dependent, Hsc2.
      by rewrite bool_decide_false. }
    done.
  - split; [done|].
    split; [intros x; by rewrite Hsc2|].
    split; [intros x _; by rewrite Hsc2|]. done.
Qed.

Lemma names_still_connected r ic x :
  incoming_connections r = Some ic -> Z.of_nat (length ic) = n r ->
  still_connected r x = true -> names r x = true.
Proof.
  intros Hic Hlen Hsc.
  apply still_connected_elem in Hsc as (ic0 & c & Hic0 & Hc & Hcx).
  assert (ic0 = ic) as -> by congruence.
  apply list_elem_of_lookup in Hc as (j & Hj).
  apply bool_decide_eq_true. apply list_elem_of_fmap. exists j. split.
  - unfold slot_source. rewrite Hic, Hj. done.
  - apply elem_of_seq. apply lookup_lt_Some in Hj. lia.
Qed.

End DeleteLinks.

(** X14. [ma_delete] keeps the dependents invariant in both directions: if
    before the deletion of a live automaton every live automaton with a
    slot fed by a live automaton was in that automaton's dependents, it is
    so afterwards; and if before the deletion every entry of a live
    automaton's dependents was a live automaton with a slot fed by it, it
    is so afterwards, given that the deleted automaton has as many slots as
    inputs. *)
Theorem ma_delete_keeps_links (h : heap) (a : addr) (r : moore) :
  h !! a = Some r -> magic r = MOORE_MAGIC ->
  (dependents_cover h -> dependents_cover (ma_delete h (Some a))) /\
  ((forall ic, incoming_connections r = Some ic ->
               Z.of_nat (length ic) = n r) ->
   dependents_sound h -> dependents_sound (ma_delete h (Some a))).
Proof.
  intros Ha Hlive.
  pose proof (fun b => ma_delete_lookup h a r b Ha Hlive) as Hlook.
  set (h' := ma_delete h (Some a)) in *.
  assert (forall b rb', h' !! b = Some rb' -> magic rb' = MOORE_MAGIC ->
            b <> a /\ exists rb, h !! b = Some rb /\
                                 rb' = after_delete a r h b rb) as Hblock.
  { intros b rb' Hb Hm. rewrite Hlook in Hb.
    destruct (h !! b) as [rb|] eqn:Hrb; [|done].
    simpl in Hb. injection Hb as <-. split; [|by exists rb].
    intros ->. assert (rb = r) as -> by congruence.
    unfold after_delete in Hm. rewrite !bool_decide_true in Hm by done.
    simpl in Hm. done. }
  split.
  - intros Hcov d rd' x rx' Hd' Hx' Hdl Hxl Hsc.
    destruct (Hblock d rd' Hd' Hdl) as (Hda & rd & Hrd & ->).
    destruct (Hblock x rx' Hx' Hxl) as (Hxa & rx & Hrx & ->).
    destruct (after_delete_links a r h d rd Hda) as (Hmd & Hless & _).
    destruct (after_delete_links a r h x rx Hxa)
      as (Hmx & _ & _ & _ & Hsup & _).
    apply Hsup; [done|].
    eapply (Hcov d rd x rx); try congruence. by apply Hless.
  - intros Hslots Hsnd x rx' d Hx' Hxl Hdin.
    destruct (Hblock x rx' Hx' Hxl) as (Hxa & rx & Hrx & ->).
    destruct (after_delete_links a r h x rx Hxa)
      as (Hmx & _ & _ & Hsub & _ & Hgone).
    destruct (Hsnd x rx d Hrx ltac:(congruence) (Hsub d Hdin))
      as (rd & Hrd & Hmd & Hsc).
    assert (d <> a) as Hda.
    { intros ->. assert (rd = r) as -> by congruence.
      destruct (incoming_connections r) as [ic|] eqn:Hic;
        [|by unfold still_connected in Hsc; rewrite Hic in Hsc].
      apply (Hgone ltac:(congruence)); [|done].
      apply (names_still_connected r ic x Hic); [by apply Hslots | done]. }
    destruct (after_delete_links a r h d rd Hda) as (Hmd' & _ & Hmore & _).
    exists (after_delete a r h d rd).
    split; [by rewrite Hlook, Hrd|]. split; [congruence|].
    by apply Hmore.
Qed.

(** ** Construction, its failures and the identity output *)

Section Creation.

Lemma identity_func_zeros (w : Z) :
  0 < w <= SIZE_MAX - 63 ->
  identity_func (zeros ((w + 63) / 64)) (zeros ((w + 63) / 64)) w w
  = zeros ((w + 63) / 64).
Proof.
  intros Hw. unfold identity_func.
  rewrite Z.eqb_refl. destruct (Z.ltb_spec 0 w); [|lia]. simpl.
  rewrite wrap64_small by lia.
  assert (memcpy (zeros ((w + 63) / 64)) (zeros ((w + 63) / 64))
                 ((w + 63) / 64) = zeros ((w + 63) / 64)) as ->.
  { unfold memcpy, zeros.
    rewrite take_replicate, drop_replicate, Nat.min_id, Nat.sub_diag.
    apply app_nil_r. }
  destruct (_ =? 0); [done|].
  unfold zeros at 2. rewrite load_replicate_zero, Z.land_0_l.
  unfold store, zeros. case_decide; [|done]. apply insert_replicate.
Qed.

Lemma load_take (k : nat) buf i :
  i < Z.of_nat k -> load (take k buf) i = load buf i.
Proof.
  intros Hi. unfold load. case_decide; [|done].
  rewrite lookup_take_lt by lia. done.
Qed.

Lemma load_beyond buf i : Z.of_nat (length buf) <= i -> load buf i = 0.
Proof.
  intros Hi. unfold load. case_decide; [|done].
  rewrite lookup_ge_None_2 by lia. done.
Qed.

End Creation.

(** X15. How [ma_create_full] fails and what it may touch: it fails with
    [EINVAL] exactly when a function or the initial state is [NULL] or [m]
    or [s] is zero; whenever it fails the heap is as before; and when it
    succeeds the result is the block just allocated, which is live, has the
    widths asked for, no dependents and no connected input, and every
    other address is as before. *)
Theorem ma_create_full_outcome (h : heap) (new : option addr) (bufs : bool)
    (n_ m_ s_ : Z) (t_ : option transition_function_t)
    (y_ : option output_function_t) (q : option (list Z)) :
  ((ma_create_full h new bufs n_ m_ s_ t_ y_ q).2 = Err EINVAL
   <-> t_ = None \/ y_ = None \/ q = None \/ m_ = 0 \/ s_ = 0) /\
  (forall e, (ma_create_full h new bufs n_ m_ s_ t_ y_ q).2 = Err e ->
             (ma_create_full h new bufs n_ m_ s_ t_ y_ q).1 = h) /\
  (forall a, (ma_create_full h new bufs n_ m_ s_ t_ y_ q).2 = Ok a ->
     new = Some a /\
     (exists r, (ma_create_full h new bufs n_ m_ s_ t_ y_ q).1 !! a = Some r
                /\ magic r = MOORE_MAGIC
                /\ n r = n_ /\ m r = m_ /\ s r = s_
                /\ connected_to_me r = []
                /\ (forall x, still_connected r x = false)) /\
     (forall b, b <> a ->
        (ma_create_full h new bufs n_ m_ s_ t_ y_ q).1 !! b = h !! b)).
Proof.
  unfold ma_create_full.
  destruct t_ as [tf|]; [|by (split; [split; [tauto|done]|done])].
  destruct y_ as [yf|]; [|by (split; [split; [tauto|done]|done])].
  destruct q as [qv|]; [|by (split; [split; [tauto|done]|done])].
  destruct (Z.eqb_spec m_ 0) as [Hm|Hm];
    [by (split; [split; [tauto|done]|done])|].
  destruct (Z.eqb_spec s_ 0) as [Hs|Hs];
    [by (split; [split; [tauto|done]|done])|].
  simpl.
  assert (~ (Some tf = None \/ Some yf = None \/ Some qv = None
             \/ m_ = 0 \/ s_ = 0)) as Hgood
    by (intros [?|[?|[?|[?|?]]]]; done).
  destruct (_ || _ || _); [by (split; [split; [done|tauto]|done])|].
  destruct (_ || _ || _ || _); [by (split; [split; [done|tauto]|done])|].
  destruct new as [a|]; [|by (split; [split; [done|tauto]|done])].
  destruct bufs; [|by (split; [split; [done|tauto]|done])].
  simpl. split; [split; [done|tauto]|]. split; [done|].
  intros a' [= <-]. split; [done|]. split.
  - eexists. split; [apply lookup_insert_eq|]. simpl.
    repeat (split; [done|]). intros x. unfold still_connected. simpl.
    destruct (0 <? n_); [|done].
    apply not_true_is_false. intros Hex.
    apply existsb_exists in Hex as (c & Hc & Hx).
    apply list_elem_of_In, elem_of_replicate in Hc as [-> _]. done.
  - intros b Hb. by rewrite lookup_insert_ne.
Qed.

(** X16. A simple automaton starts from zero: when [ma_create_simple]
    succeeds, the new block has [m = s], all state words and all output
    words zero, so that [ma_get_output] returns a zero buffer of
    [ceil(s/64)] words. *)
Theorem ma_create_simple_zero (h h' : heap) (qz : bool) (new : option addr)
    (bufs : bool) (n_ s_ : Z) (t_ : option transition_function_t) (a : addr) :
  0 <= n_ -> 0 <= s_ ->
  ma_create_simple h qz new bufs n_ s_ t_ = (h', Ok a) ->
  exists r,
    h' !! a = Some r /\ n r = n_ /\ m r = s_ /\ s r = s_ /\
    state r = zeros ((s_ + 63) / 64) /\
    output r = zeros ((s_ + 63) / 64) /\
    ma_get_output h' (Some a) = Ok (zeros ((s_ + 63) / 64)).
Proof.
  intros Hn Hs0. unfold ma_create_simple.
  destruct (Z.eqb_spec s_ 0) as [|Hs]; [done|].
  destruct t_ as [tf|]; [|done]. simpl.
  destruct (_ && _); [done|].
  unfold ma_create_full.
  rewrite (proj2 (Z.eqb_neq s_ 0)) by done. simpl.
  destruct (_ || _ || _) eqn:Hov; [done|].
  apply orb_false_elim in Hov as [_ Hs64].
  destruct (_ || _ || _ || _); [done|].
  destruct new as [a'|]; [|done].
  destruct bufs; [|done].
  intros [= <- <-].
  change (SIZE_MAX / 64) with 288230376151711743 in *.
  assert (s_ <= 288230376151711743) by lia.
  rewrite !wrap64_small by (unfold SIZE_MAX; lia).
  assert (memcpy (zeros ((s_ + 63) / 64)) (zeros ((s_ + 63) / 64))
                 ((s_ + 63) / 64) = zeros ((s_ + 63) / 64)) as Hcp.
  { unfold memcpy, zeros.
    rewrite take_replicate, drop_replicate, Nat.min_id, Nat.sub_diag.
    apply app_nil_r. }
  eexists. split; [apply lookup_insert_eq|].
  unfold ma_get_output. rewrite lookup_insert_eq. simpl.
  rewrite Hcp, identity_func_zeros by (unfold SIZE_MAX; lia). done.
Qed.

(** X17. The identity output function copies the state and nothing else:
    with [m = s = w] and buffers of the declared size, bit [i] of the
    output it writes is bit [i] of the state for [i < w] and zero for
    every [i >= w]. *)
Theorem identity_func_copies (o st : list Z) (w i : Z) :
  0 < w <= SIZE_MAX - 63 ->
  Z.of_nat (length o) = (w + 63) / 64 ->
  (w + 63) / 64 <= Z.of_nat (length st) ->
  0 <= i ->
  get_bit (identity_func o st w w) i = (i <? w) && get_bit st i.
Proof.
  intros Hw Ho Hst Hi. unfold identity_func.
  rewrite Z.eqb_refl. destruct (Z.ltb_spec 0 w); [|lia]. simpl.
  rewrite wrap64_small by lia.
  set (k := (w + 63) / 64) in *.
  assert (0 <= k) by (apply Z.div_pos; lia).
  assert (memcpy o st k = take (Z.to_nat k) st) as ->.
  { unfold memcpy. rewrite drop_ge by lia. apply app_nil_r. }
  pose proof (Z.mod_pos_bound w 64 ltac:(lia)) as Hmod.
  pose proof (Z.mod_pos_bound i 64 ltac:(lia)) as Hmodi.
  pose proof (Z.div_mod w 64 ltac:(lia)) as Hdw.
  pose proof (Z.div_mod i 64 ltac:(lia)) as Hdi.
  assert (0 <= w / 64) by (apply Z.div_pos; lia).
  assert (0 <= i / 64) by (apply Z.div_pos; lia).
  assert (length (take (Z.to_nat k) st) = Z.to_nat k) as Hlen
    by (rewrite length_take; lia).
  destruct (Z.eqb_spec (w mod 64) 0) as [Hu|Hu].
  - assert (k = w / 64) as Hk.
    { unfold k. replace (w + 63) with (w / 64 * 64 + 63) by lia.
      rewrite Z.div_add_l by lia. change (63 / 64) with 0. lia. }
    unfold get_bit. destruct (Z.ltb_spec i w).
    + rewrite load_take by lia. done.
    + rewrite load_beyond by lia. apply Z.testbit_0_l.
  - assert (k - 1 = w / 64) as Hk.
    { unfold k.
      replace (w + 63) with ((w / 64 + 1) * 64 + (w mod 64 - 1)) by lia.
      rewrite Z.div_add_l, (Z.div_small (w mod 64 - 1)) by lia. lia. }
    rewrite Hk, mask_pow2 by lia.
    assert (0 < 2 ^ (w mod 64)) by (apply Z.pow_pos_nonneg; lia).
    assert (2 ^ (w mod 64) <= 2 ^ 63) by (apply Z.pow_le_mono_r; lia).
    rewrite wrap64_small
      by (unfold SIZE_MAX; change (2 ^ 63) with 9223372036854775808 in *; lia).
    unfold get_bit. destruct (decide (i / 64 = w / 64)) as [Heq|Hne].
    + rewrite Heq, load_store_eq by lia.
      rewrite load_take by lia.
      rewrite Z.land_spec.
      replace (2 ^ (w mod 64) - 1) with (Z.ones (w mod 64))
        by (rewrite Z.ones_equiv; lia).
      rewrite Z.testbit_ones_nonneg by lia.
      rewrite andb_comm. f_equal.
      destruct (Z.ltb_spec (i mod 64) (w mod 64)), (Z.ltb_spec i w);
        first [done | lia].
    + rewrite load_store_ne by congruence.
      destruct (Z.ltb_spec i w).
      * rewrite load_take; [done|].
        assert (i / 64 <= w / 64) by (apply Z.div_le_mono; lia). lia.
      * rewrite load_beyond; [apply Z.testbit_0_l|].
        assert (w / 64 <= i / 64) by (apply Z.div_le_mono; lia). lia.
Qed.

(** ** Manual input and the final input *)

Section ManualInput.

Lemma get_bit_memcpy (dst src : list Z) (k i : Z) :
  0 <= i -> i / 64 < k -> k <= Z.of_nat (length src) ->
  get_bit (memcpy dst src k) i = get_bit src i.
Proof.
  intros Hi Hk Hlen. unfold get_bit, memcpy. f_equal.
  assert (0 <= i / 64) by (apply Z.div_pos; lia).
  unfold load. rewrite !decide_True by done.
  rewrite lookup_app_l by (rewrite length_take; lia).
  by rewrite lookup_take_lt by lia.
Qed.

Lemma first_source_spec (l : list input_connection_info) :
  match first_source l with
  | None => forall (j : nat) c, l !! j = Some c -> source_automaton c = None
  | Some x =>
    exists (j : nat) c,
      l !! j = Some c /\ source_automaton c = Some x /\
      forall (j' : nat) c', (j' < j)%nat -> l !! j' = Some c' ->
                            source_automaton c' = None
  end.
Proof.
  induction l as [|c l IH]; simpl; [done|].
  destruct (source_automaton c) as [x|] eqn:Hc.
  - exists 0%nat, c. split; [done|]. split; [done|]. intros j' c' Hj. lia.
  - destruct (first_source l) as [x|].
    + destruct IH as (j & c0 & Hj & Hc0 & Hbelow).
      exists (S j), c0. split; [done|]. split; [done|].
      intros [|j'] c' Hlt Hj'; simpl in Hj'; [congruence|].
      eapply Hbelow; [|done]. lia.
    + intros [|j] c0 Hj; simpl in Hj; [congruence | by eapply IH].
Qed.

End ManualInput.

(** X18. A manual input set by [ma_set_input] reaches the final input on
    the unconnected inputs: after the call, [update_final_input] leaves a
    final input whose bit [i] is bit [i] of the words just passed, for
    every input [i < n] whose slot has no source. *)
Theorem ma_set_input_reaches_final (h : heap) (a : addr) (r : moore)
    (input : list Z) :
  sized_heap h -> h !! a = Some r -> 0 < n r ->
  (n r + 63) / 64 <= Z.of_nat (length input) ->
  exists r' fi,
    update_final_input (ma_set_input h (Some a) (Some input)).1 (Some a) !! a
    = Some r' /\
    (ma_set_input h (Some a) (Some input)).2 = Ok tt /\
    final_input r' = Some fi /\
    forall i, 0 <= i < n r -> slot_source r (Z.to_nat i) = None ->
      get_bit fi i = get_bit input i.
Proof.
  intros Hh Ha Hn Hlen.
  pose proof (sized_heap_lookup h a r Hh Ha) as Hr.
  destruct (sized_spec r Hr) as (Hrange & _ & Hbufs & _).
  destruct (Hbufs ltac:(lia)) as (fi0 & mi & ic & Hfi & Hmi & Hic & Hfl).
  unfold ma_set_input. rewrite Ha, Hmi.
  destruct (Z.eqb_spec (n r) 0); [lia|].
  rewrite wrap64_small by (unfold SIZE_MAX, INT_BITS in *; lia).
  simpl.
  set (r1 := set_manual_input _ r).
  set (h1 := <[a := r1]> h).
  assert (sized r1 = true) as Hr1.
  { unfold sized in *. simpl. rewrite Hfi, Hic in *. by rewrite Hmi in Hr. }
  assert (sized_heap h1) as Hh1 by (by apply map_Forall_insert_2).
  assert (h1 !! a = Some r1) as Ha1 by apply lookup_insert_eq.
  destruct (final_input_of_spec h1 r1 Hh1 Hr1 Hn) as (fi & Hfi' & _ & Hbits).
  unfold update_final_input. rewrite Ha1, Hfi'.
  eexists _, fi. split; [apply lookup_insert_eq|]. split; [done|].
  split; [done|].
  intros i Hi Hslot. rewrite Hbits by lia.
  destruct (Z.ltb_spec i (n r1)); [|simpl in *; lia]. simpl.
  assert (spec_input_bit h1 r1 i
          = get_bit (memcpy mi input ((n r + 63) / 64)) i) as ->.
  { unfold spec_input_bit, slot_source in *. simpl. rewrite Hic in *.
    simpl. destruct (ic !! Z.to_nat i) as [c|]; [|done].
    simpl in Hslot. by rewrite Hslot. }
  apply get_bit_memcpy; [lia| |done].
  apply Z.div_lt_upper_bound; [lia|].
  pose proof (Z.div_mod (n r + 63) 64 ltac:(lia)).
  pose proof (Z.mod_pos_bound (n r + 63) 64 ltac:(lia)). lia.
Qed.

(** X19. [is_connected_to] finds the lowest connected input: for an
    allocated automaton it returns [NULL] exactly when none of the [n]
    slots has a source, and otherwise the source of a slot below which
    every slot is empty. *)
Theorem is_connected_to_lowest (h : heap) (a : addr) (r : moore) :
  h !! a = Some r ->
  match is_connected_to h a with
  | None =>
    forall j : nat, (j < Z.to_nat (n r))%nat -> slot_source r j = None
  | Some x =>
    exists j : nat,
      (j < Z.to_nat (n r))%nat /\ slot_source r j = Some x /\
      forall j' : nat, (j' < j)%nat -> slot_source r j' = None
  end.
Proof.
  intros Ha. unfold is_connected_to. rewrite Ha.
  pose proof (first_source_spec
                (take (Z.to_nat (n r))
                      (default [] (incoming_connections r)))) as Hspec.
  assert (forall j : nat, (j < Z.to_nat (n r))%nat ->
            slot_source r j
            = default None
                (source_automaton <$>
                 take (Z.to_nat (n r))
                      (default [] (incoming_connections r)) !! j)) as Hslot.
  { intros j Hj. unfold slot_source. rewrite lookup_take_lt by done.
    by destruct (incoming_connections r). }
  destruct (first_source _) as [x|].
  - destruct Hspec as (j & c & Hj & Hc & Hbelow).
    assert (j < Z.to_nat (n r))%nat as Hlt.
    { apply lookup_lt_Some in Hj. rewrite length_take in Hj. lia. }
    exists j. split; [done|]. split.
    + rewrite Hslot, Hj by done. done.
    + intros j' Hj'. rewrite Hslot by lia.
      destruct (take _ _ !! j') as [c'|] eqn:Hc'; [|done].
      simpl. by eapply Hbelow.
  - intros j Hj. rewrite Hslot by done.
    destruct (take _ _ !! j) as [c|] eqn:Hc; [|done].
    simpl. by eapply Hspec.
Qed.

(** ** The properties above at the example network *)

Section Examples.

(** The unconnected pair is what the two creation calls leave. *)
Lemma unwired_by_calls :
  (ma_create_simple
     (ma_create_full ∅ (Some 1%positive) true 0 1 2
        (Some pulse_generator) (Some pulse_output) (Some [3])).1
     true (Some 2%positive) true 1 4 (Some enabled_counter)).1 = unwired.
Proof. reflexivity. Qed.

Lemma unwired_lookup a r :
  unwired !! a = Some r ->
  (a = 1%positive /\ r = lone_pulse) \/ (a = 2%positive /\ r = idle_counter).
Proof.
  unfold unwired. intros H.
  apply lookup_insert_Some in H as [[<- <-]|[_ H]]; [by right|].
  apply lookup_insert_Some in H as [[<- <-]|[_ H]]; [by left|].
  by rewrite lookup_empty in H.
Qed.

Lemma unwired_sized : sized_heap unwired.
Proof.
  unfold sized_heap, unwired.
  apply map_Forall_insert_2; [reflexivity|].
  apply map_Forall_insert_2; [reflexivity|].
  apply map_Forall_empty.
Qed.

Lemma unwired_cover : dependents_cover unwired.
Proof.
  intros d rd x rx Hd Hx _ _ Hsc.
  apply unwired_lookup in Hd as [[-> ->]|[-> ->]];
    apply unwired_lookup in Hx as [[-> ->]|[-> ->]];
    by vm_compute in Hsc.
Qed.

Lemma net_cover : dependents_cover net.
Proof.
  intros d rd x rx Hd Hx _ _ Hsc.
  apply net_lookup in Hd as [[-> ->]|[-> ->]];
    apply net_lookup in Hx as [[-> ->]|[-> ->]];
    try (by vm_compute in Hsc).
  by left.
Qed.

Lemma net_sound : dependents_sound net.
Proof.
  intros x rx d Hx _ Hd.
  apply net_lookup in Hx as [[-> ->]|[-> ->]].
  - apply list_elem_of_singleton in Hd as ->.
    exists counter. split; [reflexivity|]. split; reflexivity.
  - by apply elem_of_nil in Hd.
Qed.

End Examples.

(** X2 at the example: one step of the generator and the counter. *)
Lemma ma_step_advances_witness :
  (exists r',
     heap_after (ma_step net (Some (Some <$> [1; 2]%positive))) !! 2%positive
     = Some r' /\
     final_input r' = final_input_of net counter /\
     state r' = t counter (next_state counter) (final_input_of net counter)
                  (state counter) (n counter) (s counter) /\
     next_state r' = state counter /\
     output r' = y counter (output counter) (state r') (m counter)
                   (s counter)) /\
  (forall b, b ∉ [1; 2]%positive ->
     heap_after (ma_step net (Some (Some <$> [1; 2]%positive))) !! b
     = net !! b).
Proof.
  apply (ma_step_advances net [1; 2]%positive 2%positive counter).
  - exact net_sized.
  - apply NoDup_cons. split.
    + intros H. apply list_elem_of_singleton in H. discriminate.
    + apply NoDup_singleton.
  - right. left.
  - reflexivity.
Defined.

(** X3 at the example: two inputs asked of a counter that has one. *)
Lemma ma_connect_range_check_witness :
  (ma_connect true unwired (Some 2%positive) 0 (Some 1%positive) 0 2).2
  = Err EINVAL
  <-> 2 = 0 \/ n idle_counter < 0 + 2 \/ m lone_pulse < 0 + 2.
Proof.
  apply (ma_connect_range_check true unwired 2%positive 1%positive
           idle_counter lone_pulse 0 0 2).
  - reflexivity.
  - reflexivity.
  - simpl. unfold SIZE_MAX. lia.
  - simpl. unfold SIZE_MAX. lia.
  - unfold SIZE_MAX. lia.
  - unfold SIZE_MAX. lia.
  - unfold SIZE_MAX. lia.
Defined.

(** X4 at the example: connecting the counter to the generator. *)
Lemma ma_connect_wires_witness :
  (exists ri' ic',
     net !! 2%positive = Some ri' /\ incoming_connections ri' = Some ic' /\
     length ic' = length [empty_slot] /\
     (forall i, 0 <= i < 1 ->
        ic' !! Z.to_nat (0 + i)
        = Some {| source_automaton := Some 1%positive;
                  source_output_index := 0 + i |}) /\
     (forall j : nat, ~ (0 <= Z.of_nat j < 0 + 1) ->
        ic' !! j = [empty_slot] !! j)) /\
  (exists ro',
     net !! 1%positive = Some ro' /\ 2%positive ∈ connected_to_me ro' /\
     (forall d, d ∈ connected_to_me lone_pulse -> d ∈ connected_to_me ro') /\
     (forall d, d ∈ connected_to_me ro' ->
        d = 2%positive \/ d ∈ connected_to_me lone_pulse) /\
     (NoDup (connected_to_me lone_pulse) -> NoDup (connected_to_me ro'))) /\
  (forall b, signals <$> net !! b = signals <$> unwired !! b) /\
  (forall b, b <> 2%positive -> b <> 1%positive -> net !! b = unwired !! b).
Proof.
  apply (ma_connect_wires true unwired net 2%positive 1%positive
           idle_counter lone_pulse [empty_slot] 0 0 1).
  - reflexivity.
  - reflexivity.
  - reflexivity.
  - reflexivity.
  - lia.
  - lia.
  - lia.
  - simpl. lia.
  - simpl. lia.
  - simpl. unfold SIZE_MAX. lia.
  - simpl. unfold SIZE_MAX. lia.
  - reflexivity.
Defined.

(** X5 at the example: the same connection made again, without memory. *)
Lemma ma_connect_idempotent_witness :
  ma_connect false net (Some 2%positive) 0 (Some 1%positive) 0 1
  = (net, Ok tt).
Proof.
  apply (ma_connect_idempotent true false unwired net 2%positive 1%positive
           idle_counter lone_pulse [empty_slot] 0 0 1).
  - reflexivity.
  - reflexivity.
  - reflexivity.
  - lia.
  - lia.
  - lia.
  - simpl. lia.
  - simpl. lia.
  - simpl. unfold SIZE_MAX. lia.
  - simpl. unfold SIZE_MAX. lia.
  - reflexivity.
Defined.

(** X6 at the example: disconnecting the counter's input. *)
Lemma ma_disconnect_clears_witness :
  exists h' ri' ic',
    ma_disconnect net (Some 2%positive) 0 1 = (h', Ok tt) /\
    h' !! 2%positive = Some ri' /\ incoming_connections ri' = Some ic' /\
    length ic' = length [counter_slot] /\
    (forall j : nat,
       ic' !! j
       = if bool_decide (0 <= Z.of_nat j < 0 + 1
                         /\ (j < length [counter_slot])%nat)
         then Some empty_slot else [counter_slot] !! j) /\
    (forall x rx (j : nat) c, net !! x = Some rx ->
       0 <= Z.of_nat j < 0 + 1 ->
       [counter_slot] !! j = Some c -> source_automaton c = Some x ->
       still_connected ri' x = false ->
       connected_to_me <$> h' !! x
       = Some (filter (fun d => d ≠ 2%positive) (connected_to_me rx))) /\
    (forall x rx, net !! x = Some rx ->
       ~ ((exists (j : nat) c,
             0 <= Z.of_nat j < 0 + 1 /\
             [counter_slot] !! j = Some c /\ source_automaton c = Some x)
          /\ still_connected ri' x = false) ->
       connected_to_me <$> h' !! x = Some (connected_to_me rx)) /\
    (forall b, signals <$> h' !! b = signals <$> net !! b).
Proof.
  apply (ma_disconnect_clears net 2%positive counter [counter_slot] 0 1).
  - reflexivity.
  - reflexivity.
  - lia.
  - lia.
  - simpl. lia.
  - simpl. unfold SIZE_MAX. lia.
Defined.

(** X7 at the example: disconnecting the input of the unconnected
    counter. *)
Lemma ma_disconnect_unconnected_witness :
  ma_disconnect unwired (Some 2%positive) 0 1 = (unwired, Ok tt).
Proof.
  apply (ma_disconnect_unconnected unwired 2%positive idle_counter
           [empty_slot] 0 1).
  - reflexivity.
  - reflexivity.
  - lia.
  - lia.
  - simpl. lia.
  - simpl. unfold SIZE_MAX. lia.
  - intros j Hj. assert (j = 0%nat) as -> by lia. reflexivity.
Defined.

(** X8 at the example: connecting and disconnecting the counter. *)
Lemma ma_connect_disconnect_witness :
  exists cap,
    ma_disconnect net (Some 2%positive) 0 1
    = (<[1%positive := set_connected_to_me (connected_to_me lone_pulse) cap
                         lone_pulse]> unwired, Ok tt) /\
    (connected_to_me_count lone_pulse <> connected_to_me_capacity lone_pulse ->
     <[1%positive := set_connected_to_me (connected_to_me lone_pulse) cap
                       lone_pulse]> unwired = unwired).
Proof.
  apply (ma_connect_disconnect true unwired net 2%positive 1%positive
           idle_counter lone_pulse [empty_slot] 0 0 1).
  - reflexivity.
  - reflexivity.
  - reflexivity.
  - reflexivity.
  - lia.
  - lia.
  - lia.
  - simpl. lia.
  - simpl. lia.
  - simpl. unfold SIZE_MAX. lia.
  - simpl. unfold SIZE_MAX. lia.
  - intros j Hj. assert (j = 0%nat) as -> by lia. reflexivity.
  - reflexivity.
  - simpl. apply not_elem_of_nil.
  - reflexivity.
Defined.

(** X9 at the example: deleting the generator. *)
Lemma ma_delete_unlinks_witness :
  is_live (ma_delete net (Some 1%positive)) 1%positive = false /\
  (forall b, b <> 1%positive ->
     is_live (ma_delete net (Some 1%positive)) b = is_live net b) /\
  (forall b rb', b <> 1%positive -> is_live net b = true ->
     names pulse b = true ->
     ma_delete net (Some 1%positive) !! b = Some rb' ->
     1%positive ∉ connected_to_me rb') /\
  (forall d rd', d <> 1%positive -> is_live net d = true ->
     d ∈ connected_to_me pulse ->
     ma_delete net (Some 1%positive) !! d = Some rd' ->
     still_connected rd' 1%positive = false).
Proof.
  apply (ma_delete_unlinks net 1%positive pulse).
  - reflexivity.
  - reflexivity.
Defined.

(** X10 at the example: what deleting the generator leaves alone. *)
Lemma ma_delete_frame_witness :
  (forall b, signals <$> ma_delete net (Some 1%positive) !! b
             = signals <$> net !! b) /\
  (forall b rb, net !! b = Some rb ->
     exists rb',
       ma_delete net (Some 1%positive) !! b = Some rb' /\
       connected_to_me_capacity rb' = connected_to_me_capacity rb /\
       (forall d, d <> 1%positive ->
          d ∈ connected_to_me rb' <-> d ∈ connected_to_me rb) /\
       (forall d, d ∈ connected_to_me rb' -> d ∈ connected_to_me rb) /\
       (forall j : nat,
          slot_source rb' j = slot_source rb j
          \/ (slot_source rb j = Some 1%positive
              /\ slot_source rb' j = None))).
Proof.
  apply (ma_delete_frame net 1%positive pulse).
  - reflexivity.
  - reflexivity.
Defined.

(** X11 at the example: the counter after its generator is deleted. *)
Lemma ma_delete_falls_back_witness :
  exists rT' fi',
    ma_delete net (Some 1%positive) !! 2%positive = Some rT' /\
    update_final_input (ma_delete net (Some 1%positive)) (Some 2%positive)
    = <[2%positive := set_final_input (Some fi') rT']>
        (ma_delete net (Some 1%positive)) /\
    forall i, 0 <= i < n counter ->
      get_bit fi' i
      = if bool_decide (slot_source counter (Z.to_nat i) = Some 1%positive)
        then get_bit (default [] (manual_input counter)) i
        else spec_input_bit net counter i.
Proof.
  apply (ma_delete_falls_back net 1%positive 2%positive pulse counter).
  - exact net_sized.
  - reflexivity.
  - reflexivity.
  - discriminate.
  - reflexivity.
  - simpl. lia.
Defined.

(** X12 at the example: the connection of the counter to the generator. *)
Lemma ma_connect_keeps_cover_witness :
  ma_connect true unwired (Some 2%positive) 0 (Some 1%positive) 0 1
  = (net, Ok tt) /\
  dependents_cover net.
Proof.
  split; [reflexivity|].
  apply (ma_connect_keeps_cover true unwired net (Some 2%positive)
           (Some 1%positive) 0 0 1).
  - exact unwired_cover.
  - reflexivity.
Defined.

(** X13 at the example: disconnecting the counter's input. *)
Lemma ma_disconnect_keeps_links_witness :
  dependents_cover (ma_disconnect net (Some 2%positive) 0 1).1 /\
  dependents_sound (ma_disconnect net (Some 2%positive) 0 1).1.
Proof.
  destruct (ma_disconnect_keeps_links net 2%positive counter [counter_slot]
              0 1) as [Hc Hs].
  - reflexivity.
  - reflexivity.
  - lia.
  - lia.
  - simpl. lia.
  - simpl. unfold SIZE_MAX. lia.
  - split; [exact (Hc net_cover) | exact (Hs net_sound)].
Defined.

(** X14 at the example: deleting the counter. *)
Lemma ma_delete_keeps_links_witness :
  dependents_cover (ma_delete net (Some 2%positive)) /\
  dependents_sound (ma_delete net (Some 2%positive)).
Proof.
  destruct (ma_delete_keeps_links net 2%positive counter) as [Hc Hs].
  - reflexivity.
  - reflexivity.
  - split; [exact (Hc net_cover)|].
    apply Hs; [|exact net_sound].
    intros ic [= <-]. reflexivity.
Defined.

(** X16 at the example: the counter as [ma_create_simple] makes it. *)
Lemma ma_create_simple_zero_witness :
  exists r,
    unwired !! 2%positive = Some r /\ n r = 1 /\ m r = 4 /\ s r = 4 /\
    state r = zeros ((4 + 63) / 64) /\
    output r = zeros ((4 + 63) / 64) /\
    ma_get_output unwired (Some 2%positive) = Ok (zeros ((4 + 63) / 64)).
Proof.
  apply (ma_create_simple_zero (<[1%positive := lone_pulse]> ∅) unwired true
           (Some 2%positive) true 1 4 (Some enabled_counter) 2%positive).
  - lia.
  - lia.
  - reflexivity.
Defined.

(** X17 at an example: bit 2 of the four-bit state 5. *)
Lemma identity_func_copies_witness :
  get_bit (identity_func [0] [5] 4 4) 2 = (2 <? 4) && get_bit [5] 2.
Proof.
  apply (identity_func_copies [0] [5] 4 2).
  - unfold SIZE_MAX. lia.
  - reflexivity.
  - vm_compute. discriminate.
  - lia.
Defined.

(** X18 at the example: enabling the unconnected counter by hand. *)
Lemma ma_set_input_reaches_final_witness :
  exists r' fi,
    update_final_input
      (ma_set_input unwired (Some 2%positive) (Some [1])).1 (Some 2%positive)
    !! 2%positive = Some r' /\
    (ma_set_input unwired (Some 2%positive) (Some [1])).2 = Ok tt /\
    final_input r' = Some fi /\
    forall i, 0 <= i < n idle_counter ->
      slot_source idle_counter (Z.to_nat i) = None ->
      get_bit fi i = get_bit [1] i.
Proof.
  apply (ma_set_input_reaches_final unwired 2%positive idle_counter [1]).
  - exact unwired_sized.
  - reflexivity.
  - simpl. lia.
  - vm_compute. discriminate.
Defined.

(** X19 at the example: the counter's lowest connected input is fed by the
    generator. *)
Lemma is_connected_to_lowest_witness :
  exists j : nat,
    (j < Z.to_nat (n counter))%nat /\
    slot_source counter j = Some 1%positive /\
    forall j' : nat, (j' < j)%nat -> slot_source counter j' = None.
Proof.
  apply (is_connected_to_lowest net 2%positive counter).
  reflexivity.
Defined.

(** ** The order of the calls of a step *)

Section CallOrder.

Lemma resolve_all_allocated h la a :
  is_Some (h !! a) -> is_Some (resolve_all h la !! a).
Proof.
  revert h. induction la as [|b la IH]; intros h Ha; [done|].
  rewrite resolve_all_cons. apply IH.
  unfold update_final_input. destruct (h !! b) as [rb|] eqn:Hb; [|done].
  destruct (decide (b = a)) as [->|Hne].
  - rewrite lookup_insert_eq. by eexists.
  - by rewrite lookup_insert_ne.
Qed.

Lemma step_transition_log (la : list addr) :
  forall st : heap * list call,
    (forall a, a ∈ la -> is_Some (st.1 !! a)) ->
    exists ts,
      (foldl step_transition st (Some <$> la)).2 = st.2 ++ ts /\
      call_addr <$> ts = la /\
      Forall (fun c => is_transition c = true) ts /\
      (forall a, is_Some (st.1 !! a) ->
         is_Some ((foldl step_transition st (Some <$> la)).1 !! a)).
Proof.
  induction la as [|a la IH]; intros st Hall.
  - exists []. simpl. rewrite app_nil_r. done.
  - destruct (Hall a ltac:(by left)) as [r Hr].
    rewrite fmap_cons.
    change (foldl step_transition st (Some a :: (Some <$> la)))
      with (foldl step_transition (step_transition st (Some a))
              (Some <$> la)).
    assert (step_transition st (Some a)
            = (<[a := transition_of r]> st.1,
               st.2 ++ [CallT a (final_input r) (state r)])) as Hstep
      by (unfold step_transition; by rewrite Hr).
    rewrite Hstep.
    set (st1 := (<[a := transition_of r]> st.1,
                 st.2 ++ [CallT a (final_input r) (state r)])).
    assert (forall b, is_Some (st.1 !! b) -> is_Some (st1.1 !! b)) as Hkeep.
    { intros b Hb. simpl. destruct (decide (a = b)) as [->|Hne].
      - rewrite lookup_insert_eq. by eexists.
      - by rewrite lookup_insert_ne. }
    destruct (IH st1) as (ts & Hts & Haddr & Hkind & Hdom).
    { intros b Hb. apply Hkeep, Hall. by right. }
    exists (CallT a (final_input r) (state r) :: ts).
    split; [rewrite Hts; simpl; by rewrite <- app_assoc|].
    split; [rewrite fmap_cons, Haddr; done|].
    split; [by apply Forall_cons|].
    intros b Hb. by apply Hdom, Hkeep.
Qed.

Lemma step_commit_log (la : list addr) :
  forall st : heap * list call,
    (forall a, a ∈ la -> is_Some (st.1 !! a)) ->
    exists ys,
      (foldl step_commit st (Some <$> la)).2 = st.2 ++ ys /\
      call_addr <$> ys = la /\
      Forall (fun c => is_transition c = false) ys.
Proof.
  induction la as [|a la IH]; intros st Hall.
  - exists []. simpl. rewrite app_nil_r. done.
  - destruct (Hall a ltac:(by left)) as [r Hr].
    rewrite fmap_cons.
    change (foldl step_commit st (Some a :: (Some <$> la)))
      with (foldl step_commit (step_commit st (Some a)) (Some <$> la)).
    assert (step_commit st (Some a)
            = (<[a := commit_of r]> st.1,
               st.2 ++ [CallY a (next_state r)])) as Hstep
      by (unfold step_commit; by rewrite Hr).
    rewrite Hstep.
    set (st1 := (<[a := commit_of r]> st.1,
                 st.2 ++ [CallY a (next_state r)])).
    destruct (IH st1) as (ys & Hys & Haddr & Hkind).
    { intros b Hb. simpl. destruct (decide (a = b)) as [->|Hne].
      - rewrite lookup_insert_eq. by eexists.
      - rewrite lookup_insert_ne by done. apply Hall. by right. }
    exists (CallY a (next_state r) :: ys).
    split; [rewrite Hys; simpl; by rewrite <- app_assoc|].
    split; [rewrite fmap_cons, Haddr; done|].
    by apply Forall_cons.
Qed.

End CallOrder.

(** X20. A step runs in two phases: for a non-empty list of allocated
    automata [ma_step] succeeds, and the calls it makes are first one call
    of the transition function for every list element, in list order, and
    then one call of the output function for every list element, in list
    order; no output function runs before the last transition function. *)
Theorem ma_step_two_phases (h : heap) (la : list addr) :
  la <> [] -> (forall a, a ∈ la -> is_Some (h !! a)) ->
  result (ma_step h (Some (Some <$> la))) = Ok tt /\
  exists ts ys,
    calls (ma_step h (Some (Some <$> la))) = ts ++ ys /\
    call_addr <$> ts = la /\ call_addr <$> ys = la /\
    Forall (fun c => is_transition c = true) ts /\
    Forall (fun c => is_transition c = false) ys.
Proof.
  intros Hne Hall. rewrite ma_step_all by done. simpl.
  split; [done|].
  destruct (step_transition_log la (resolve_all h la, []))
    as (ts & Hts & Hta & Htk & Hdom).
  { intros a Ha. simpl. by apply resolve_all_allocated, Hall. }
  destruct (step_commit_log la
              (foldl step_transition (resolve_all h la, []) (Some <$> la)))
    as (ys & Hys & Hya & Hyk).
  { intros a Ha. apply Hdom. simpl. by apply resolve_all_allocated, Hall. }
  exists ts, ys. rewrite Hys, Hts. done.
Qed.

(** X20 at the example: the calls of one step of the generator and the
    counter. *)
Lemma ma_step_two_phases_witness :
  result (ma_step net (Some (Some <$> [1; 2]%positive))) = Ok tt /\
  exists ts ys,
    calls (ma_step net (Some (Some <$> [1; 2]%positive))) = ts ++ ys /\
    call_addr <$> ts = [1; 2]%positive /\
    call_addr <$> ys = [1; 2]%positive /\
    Forall (fun c => is_transition c = true) ts /\
    Forall (fun c => is_transition c = false) ys.
Proof.
  apply (ma_step_two_phases net [1; 2]%positive).
  - discriminate.
  - intros a Ha. apply elem_of_cons in Ha as [->|Ha].
    + exists pulse. reflexivity.
    + apply list_elem_of_singleton in Ha as ->. exists counter. reflexivity.
Defined.

(** X21. The range check of [ma_disconnect] cannot be fooled by overflow:
    for an allocated automaton and [size_t] arguments the call is rejected
    with [EINVAL] exactly when [num = 0] or the range [in .. in+num) does
    not fit the [n] inputs, the sum taken in the integers; a rejected call
    leaves the heap as it was, and every other call succeeds. *)
Theorem ma_disconnect_range_check (h : heap) (ai : addr) (ri : moore)
    (in_ num : Z) :
  h !! ai = Some ri ->
  0 <= n ri <= SIZE_MAX -> 0 <= in_ <= SIZE_MAX -> 0 <= num <= SIZE_MAX ->
  ((ma_disconnect h (Some ai) in_ num).2 = Err EINVAL
   <-> num = 0 \/ n ri < in_ + num) /\
  ((ma_disconnect h (Some ai) in_ num).2 = Err EINVAL ->
   (ma_disconnect h (Some ai) in_ num).1 = h) /\
  ((ma_disconnect h (Some ai) in_ num).2 <> Err EINVAL ->
   (ma_disconnect h (Some ai) in_ num).2 = Ok tt).
Proof.
  intros Hi Hn Hin Hnum. unfold ma_disconnect. rewrite Hi.
  destruct (Z.eqb_spec num 0) as [Hz|Hz];
    [by (split; [split; [tauto|done]|done])|].
  destruct (Z.geb_spec in_ (n ri)) as [Hge|Hlt]; simpl.
  { split; [split; [intros _; right; lia|done]|done]. }
  rewrite wrap64_small by lia.
  destruct (Z.gtb_spec num (n ri - in_)) as [Hgt|Hle].
  { split; [split; [intros _; right; lia|done]|done]. }
  assert (~ (num = 0 \/ n ri < in_ + num)) as Hgood by lia.
  destruct (incoming_connections ri) as [ic|].
  - destruct (disconnect_slots ic in_ num) as [ic' srcs]. simpl.
    split; [split; [done|tauto]|done].
  - simpl. split; [split; [done|tauto]|done].
Qed.

(** X21 at the example: two inputs asked of the counter, which has one. *)
Lemma ma_disconnect_range_check_witness :
  ((ma_disconnect net (Some 2%positive) 0 2).2 = Err EINVAL
   <-> 2 = 0 \/ n counter < 0 + 2) /\
  ((ma_disconnect net (Some 2%positive) 0 2).2 = Err EINVAL ->
   (ma_disconnect net (Some 2%positive) 0 2).1 = net) /\
  ((ma_disconnect net (Some 2%positive) 0 2).2 <> Err EINVAL ->
   (ma_disconnect net (Some 2%positive) 0 2).2 = Ok tt).
Proof.
  apply (ma_disconnect_range_check net 2%positive counter 0 2).
  - reflexivity.
  - simpl. unfold SIZE_MAX. lia.
  - unfold SIZE_MAX. lia.
  - unfold SIZE_MAX. lia.
Defined.
